(** * VoyAIge trip-request parser: a shallow embedding of
      [multi_tool_agent/userinterfaceagent.py]

    The Python module is a pipeline of regular-expression extractors.  The
    development follows the module top-down:

    - [PyStr]: Python [str] values as lists of Unicode code points, with the
      string methods the module calls ([strip], [lower], [title], ...);
    - [Re]: the fragment of Python's [re] the module uses, as a pattern
      parser plus a backtracking matcher with capture groups;
    - [PyNum]: [int(str)], [float(str)] (binary64, round to nearest even),
      [int(float)] and [datetime.date];
    - the lexicon tables and the extractors, in source order;
    - the properties of the specification, claim by claim. *)

From Stdlib Require Import ZArith NArith List String Ascii Bool Lia.
From stdpp Require Import base option list gmap sets sorting lexico.

Local Open Scope N_scope.

(** ** Python strings *)

Module PyStr.

(** A Python [str] is a sequence of code points.  The character classes
    below are exact on ASCII; above ASCII the model knows Python's
    whitespace table and treats every other code point as a symbol that
    is neither digit, letter nor cased (so it only ever matches itself). *)
Abbreviation str := (list N).

Definition code (a : ascii) : N := N_of_ascii a.
Arguments code a%_char.

(** Rocq string literals are byte strings; source literals are read as UTF-8. *)
Fixpoint utf8_decode (bs : list N) : str :=
  match bs with
  | [] => []
  | b :: bs1 =>
      if b <? 128 then b :: utf8_decode bs1
      else if b <? 224 then
        match bs1 with
        | c1 :: bs2 => ((b - 192) * 64 + (c1 - 128)) :: utf8_decode bs2
        | [] => [b]
        end
      else if b <? 240 then
        match bs1 with
        | c1 :: c2 :: bs3 =>
            ((b - 224) * 4096 + (c1 - 128) * 64 + (c2 - 128)) :: utf8_decode bs3
        | _ => [b]
        end
      else
        match bs1 with
        | c1 :: c2 :: c3 :: bs4 =>
            ((b - 240) * 262144 + (c1 - 128) * 4096 + (c2 - 128) * 64 + (c3 - 128))
              :: utf8_decode bs4
        | _ => [b]
        end
  end.

Fixpoint bytes_of (s : string) : list N :=
  match s with
  | EmptyString => []
  | String a s' => N_of_ascii a :: bytes_of s'
  end.

Definition U (s : string) : str := utf8_decode (bytes_of s).
Arguments U s%_string.

Definition between (lo hi c : N) : bool := (lo <=? c) && (c <=? hi).

Definition is_digit (c : N) : bool := between 48 57 c.
Definition is_upper (c : N) : bool := between 65 90 c.
Definition is_lower (c : N) : bool := between 97 122 c.
Definition is_alpha (c : N) : bool := is_upper c || is_lower c.
(** [\w]: alphanumeric or underscore. *)
Definition is_word (c : N) : bool := is_alpha c || is_digit c || (c =? 95).

(** Python's whitespace: what [str.strip], [str.isspace] and [\s] use. *)
Definition is_space (c : N) : bool :=
  between 9 13 c || between 28 32 c || (c =? 133) || (c =? 160)
  || (c =? 5760) || between 8192 8202 c || (c =? 8232) || (c =? 8233)
  || (c =? 8239) || (c =? 8287) || (c =? 12288).

Definition lower_c (c : N) : N := if is_upper c then c + 32 else c.
Definition upper_c (c : N) : N := if is_lower c then c - 32 else c.

(** [s.lower()] *)
Definition lower (s : str) : str := map lower_c s.

Fixpoint lstrip (s : str) : str :=
  match s with
  | c :: s' => if is_space c then lstrip s' else s
  | [] => []
  end.

Definition rstrip (s : str) : str := rev (lstrip (rev s)).

(** [s.strip()] *)
Definition strip (s : str) : str := rstrip (lstrip s).

(** [s.title()]: a cased character is upper-cased when it follows an
    uncased one and lower-cased otherwise. *)
Fixpoint title_from (prev_cased : bool) (s : str) : str :=
  match s with
  | [] => []
  | c :: s' =>
      (if prev_cased then lower_c c else upper_c c) :: title_from (is_alpha c) s'
  end.

Definition title (s : str) : str := title_from false s.

(** [s.replace(old, "")] for a one-character [old]. *)
Definition remove_char (old : N) (s : str) : str :=
  List.filter (fun c => negb (c =? old)) s.

(** [s.endswith(suffix)] and [s.isdigit()] *)
Fixpoint starts_with (p s : str) : bool :=
  match p, s with
  | [], _ => true
  | a :: p', b :: s' => (a =? b) && starts_with p' s'
  | _ :: _, [] => false
  end.

Definition endswith (s suffix : str) : bool := starts_with (rev suffix) (rev s).

Definition isdigit (s : str) : bool :=
  match s with [] => false | _ => forallb is_digit s end.

(** Truthiness of a string: non-empty. *)
Definition truthy (s : str) : bool := match s with [] => false | _ => true end.

(** Decimal rendering, zero-padded to [width] digits ([%0wd]). *)
Fixpoint digits_of_uint (d : Decimal.uint) : str :=
  match d with
  | Decimal.Nil => []
  | Decimal.D0 d => 48 :: digits_of_uint d
  | Decimal.D1 d => 49 :: digits_of_uint d
  | Decimal.D2 d => 50 :: digits_of_uint d
  | Decimal.D3 d => 51 :: digits_of_uint d
  | Decimal.D4 d => 52 :: digits_of_uint d
  | Decimal.D5 d => 53 :: digits_of_uint d
  | Decimal.D6 d => 54 :: digits_of_uint d
  | Decimal.D7 d => 55 :: digits_of_uint d
  | Decimal.D8 d => 56 :: digits_of_uint d
  | Decimal.D9 d => 57 :: digits_of_uint d
  end.

Definition decimal (n : N) : str := digits_of_uint (N.to_uint n).

Definition zero_pad (width : nat) (n : N) : str :=
  let d := decimal n in
  repeat 48 (width - length d)%nat ++ d.

End PyStr.
Export PyStr.

(** ** Regular expressions: the fragment of Python's [re] used by the module *)

Module Re.

(** *** Abstract syntax *)

Inductive cset_item : Type :=
| CChar (c : N)
| CRange (lo hi : N)
| CDigit
| CSpace
| CWord.

Inductive regex : Type :=
| REmpty
| RFail
| RLit (c : N)
| RAny
| RSet (negated : bool) (items : list cset_item)
| RCat (r1 r2 : regex)
| RAlt (r1 r2 : regex)
| RRep (lo : nat) (hi : option nat) (greedy : bool) (r : regex)
| RGroup (idx : nat) (r : regex)
| RLook (r : regex)
| RWordB
| REnd.

(** *** Matching *)

(** The matcher walks the subject left to right.  A state remembers the
    offset, the character just before it (for [\b]), what is left of the
    subject, and the spans of the groups closed so far, newest first. *)
Record mstate : Type := MState {
  ms_pos : nat;
  ms_prev : option N;
  ms_rest : str;
  ms_caps : list (nat * (nat * nat))
}.

Definition advance (s : mstate) (c : N) (rest : str) : mstate :=
  MState (S (ms_pos s)) (Some c) rest (ms_caps s).

Definition set_cap (idx start : nat) (s : mstate) : mstate :=
  MState (ms_pos s) (ms_prev s) (ms_rest s) ((idx, (start, ms_pos s)) :: ms_caps s).

Definition item_has (it : cset_item) (c : N) : bool :=
  match it with
  | CChar x => c =? x
  | CRange lo hi => between lo hi c
  | CDigit => is_digit c
  | CSpace => is_space c
  | CWord => is_word c
  end.

Definition set_has (items : list cset_item) (c : N) : bool :=
  existsb (fun it => item_has it c) items.

(** With IGNORECASE a literal matches up to case, and a set matches when
    the character or one of its case variants is in it. *)
Definition lit_matches (ic : bool) (p c : N) : bool :=
  if ic then lower_c p =? lower_c c else p =? c.

Definition set_matches (ic negated : bool) (items : list cset_item) (c : N) : bool :=
  let hit :=
    if ic then set_has items c || set_has items (lower_c c) || set_has items (upper_c c)
    else set_has items c in
  if negated then negb hit else hit.

Definition word_opt (o : option N) : bool :=
  match o with Some c => is_word c | None => false end.

Definition or_else {A} (a b : option A) : option A :=
  match a with Some _ => a | None => b end.

(** One character against a predicate. *)
Definition step_char (p : N -> bool) (k : mstate -> option mstate) (s : mstate)
  : option mstate :=
  match ms_rest s with
  | c :: rest => if p c then k (advance s c rest) else None
  | [] => None
  end.

(** The rounds of a repetition [r{lo,hi}]; [step] matches [r] once and
    [done] counts the rounds completed.  A greedy repetition tries one more
    round before the continuation [k], a lazy one after it.  A round beyond
    the minimum must consume input (the patterns of the module repeat
    nothing that can match the empty string), which bounds the number of
    rounds by [lo] plus the length of what is left: [fuel] never runs out. *)
Fixpoint rounds (step : (mstate -> option mstate) -> mstate -> option mstate)
    (lo : nat) (hi : option nat) (greedy : bool) (k : mstate -> option mstate)
    (fuel done : nat) (s : mstate) {struct fuel} : option mstate :=
  let more :=
    match fuel with
    | O => None
    | S fuel' =>
        if match hi with Some h => (h <=? done)%nat | None => false end
        then None
        else step (fun s' =>
                     if (done <? lo)%nat || (ms_pos s <? ms_pos s')%nat
                     then rounds step lo hi greedy k fuel' (S done) s'
                     else None) s
    end in
  if (done <? lo)%nat then more
  else if greedy then or_else more (k s)
  else or_else (k s) more.

(** Backtracking matcher in continuation-passing style: [k] is the rest of
    the pattern, and alternatives are tried left to right. *)
Fixpoint rmatch (ic : bool) (r : regex) (k : mstate -> option mstate) (s : mstate)
  : option mstate :=
  match r with
  | REmpty => k s
  | RFail => None
  | RLit p => step_char (lit_matches ic p) k s
  | RAny => step_char (fun c => negb (c =? 10)) k s
  | RSet negated items => step_char (set_matches ic negated items) k s
  | RCat r1 r2 => rmatch ic r1 (rmatch ic r2 k) s
  | RAlt r1 r2 => or_else (rmatch ic r1 k s) (rmatch ic r2 k s)
  | RRep lo hi greedy r1 =>
      rounds (rmatch ic r1) lo hi greedy k (lo + S (length (ms_rest s)))%nat O s
  | RGroup idx r1 => rmatch ic r1 (fun s' => k (set_cap idx (ms_pos s) s')) s
  | RLook r1 =>
      match rmatch ic r1 Some s with
      | Some s' => k (MState (ms_pos s) (ms_prev s) (ms_rest s) (ms_caps s'))
      | None => None
      end
  | RWordB =>
      if xorb (word_opt (ms_prev s)) (word_opt (head (ms_rest s))) then k s else None
  | REnd =>
      match ms_rest s with
      | [] => k s
      | [c] => if c =? 10 then k s else None
      | _ => None
      end
  end.

(** *** Match objects *)

Record match_obj : Type := Match {
  m_string : str;
  m_start : nat;
  m_end : nat;
  m_caps : list (nat * (nat * nat))
}.

Definition slice (s : str) (i j : nat) : str := take (j - i) (drop i s).

Fixpoint cap_lookup (idx : nat) (caps : list (nat * (nat * nat))) : option (nat * nat) :=
  match caps with
  | [] => None
  | (i, span) :: caps' => if (i =? idx)%nat then Some span else cap_lookup idx caps'
  end.

(** [m.group(0)] *)
Definition group0 (m : match_obj) : str := slice (m_string m) (m_start m) (m_end m).

(** [m.group(i)] for [i >= 1]; [None] when the group took no part in the match. *)
Definition group (m : match_obj) (idx : nat) : option str :=
  match cap_lookup idx (m_caps m) with
  | Some (i, j) => Some (slice (m_string m) i j)
  | None => None
  end.

(** *** [re.search], [re.finditer], [re.sub] *)

(** Leftmost match: every offset in turn, from [s] on. *)
Fixpoint search_at (ic : bool) (r : regex) (pos : nat) (prev : option N) (rest : str)
  : option (nat * mstate) :=
  match rmatch ic r Some (MState pos prev rest []) with
  | Some s' => Some (pos, s')
  | None =>
      match rest with
      | [] => None
      | c :: rest' => search_at ic r (S pos) (Some c) rest'
      end
  end.

Definition search (ic : bool) (r : regex) (text : str) : option match_obj :=
  match search_at ic r 0 None text with
  | Some (i, s') => Some (Match text i (ms_pos s') (ms_caps s'))
  | None => None
  end.

(** Successive non-overlapping matches.  After an empty match the scan
    moves on by one character. *)
Fixpoint finditer_at (fuel : nat) (ic : bool) (r : regex) (text : str)
    (pos : nat) (prev : option N) (rest : str) : list match_obj :=
  match fuel with
  | O => []
  | S fuel' =>
      match search_at ic r pos prev rest with
      | None => []
      | Some (i, s') =>
          let m := Match text i (ms_pos s') (ms_caps s') in
          if (i <? ms_pos s')%nat
          then m :: finditer_at fuel' ic r text (ms_pos s') (ms_prev s') (ms_rest s')
          else
            match ms_rest s' with
            | [] => [m]
            | c :: rest' => m :: finditer_at fuel' ic r text (S (ms_pos s')) (Some c) rest'
            end
      end
  end.

Definition finditer (ic : bool) (r : regex) (text : str) : list match_obj :=
  finditer_at (S (length text)) ic r text 0 None text.

(** [re.sub(pattern, repl, text)] with a literal replacement. *)
Fixpoint splice (text repl : str) (from : nat) (ms : list match_obj) : str :=
  match ms with
  | [] => drop from text
  | m :: ms' => slice text from (m_start m) ++ repl ++ splice text repl (m_end m) ms'
  end.

Definition sub (ic : bool) (r : regex) (repl text : str) : str :=
  splice text repl 0 (finditer ic r text).

(** *** [re.compile]: reading a pattern *)

Abbreviation c_lparen := 40 (only parsing).
Abbreviation c_rparen := 41 (only parsing).
Abbreviation c_star := 42 (only parsing).
Abbreviation c_plus := 43 (only parsing).
Abbreviation c_comma := 44 (only parsing).
Abbreviation c_minus := 45 (only parsing).
Abbreviation c_dot := 46 (only parsing).
Abbreviation c_colon := 58 (only parsing).
Abbreviation c_equal := 61 (only parsing).
Abbreviation c_quest := 63 (only parsing).
Abbreviation c_lbrack := 91 (only parsing).
Abbreviation c_bslash := 92 (only parsing).
Abbreviation c_rbrack := 93 (only parsing).
Abbreviation c_caret := 94 (only parsing).
Abbreviation c_lbrace := 123 (only parsing).
Abbreviation c_bar := 124 (only parsing).
Abbreviation c_rbrace := 125 (only parsing).
Abbreviation c_dollar := 36 (only parsing).

(** A run of decimal digits, as a number. *)
Fixpoint read_nat (acc : nat) (seen : bool) (p : str) : option (nat * str) :=
  match p with
  | c :: p' =>
      if is_digit c then read_nat (10 * acc + N.to_nat (c - 48))%nat true p'
      else if seen then Some (acc, p) else None
  | [] => if seen then Some (acc, p) else None
  end.

(** One member of a bracketed set: a character or a class escape. *)
Definition read_set_atom (p : str) : option (cset_item * str) :=
  match p with
  | c_bslash :: x :: p' =>
      if x =? code "d" then Some (CDigit, p')
      else if x =? code "s" then Some (CSpace, p')
      else if x =? code "w" then Some (CWord, p')
      else if is_alpha x || is_digit x then None
      else Some (CChar x, p')
  | c_bslash :: [] => None
  | c :: p' => Some (CChar c, p')
  | [] => None
  end.

Fixpoint read_set (fuel : nat) (p : str) : option (list cset_item * str) :=
  match fuel with
  | O => None
  | S fuel' =>
      match p with
      | [] => None
      | c_rbrack :: p' => Some ([], p')
      | _ =>
          match read_set_atom p with
          | Some (CChar lo, c_minus :: y :: p2) =>
              if y =? c_rbrack then
                match read_set fuel' (c_minus :: y :: p2) with
                | Some (items, p3) => Some (CChar lo :: items, p3)
                | None => None
                end
              else
                match read_set_atom (y :: p2) with
                | Some (CChar hi, p3) =>
                    match read_set fuel' p3 with
                    | Some (items, p4) => Some (CRange lo hi :: items, p4)
                    | None => None
                    end
                | _ => None
                end
          | Some (it, p1) =>
              match read_set fuel' p1 with
              | Some (items, p2) => Some (it :: items, p2)
              | None => None
              end
          | None => None
          end
      end
  end.

(** The quantifier after an atom, if any: [?], [*], [+], [{m}], [{m,n}],
    [{m,}], each optionally followed by [?] for the lazy variant. *)
Definition read_bounds (p : str) : option (nat * option nat * str) :=
  match p with
  | c_quest :: p' => Some (O, Some 1%nat, p')
  | c_star :: p' => Some (O, None, p')
  | c_plus :: p' => Some (1%nat, None, p')
  | c_lbrace :: p' =>
      match read_nat 0 false p' with
      | Some (lo, c_rbrace :: p1) => Some (lo, Some lo, p1)
      | Some (lo, c_comma :: c_rbrace :: p1) => Some (lo, None, p1)
      | Some (lo, c_comma :: p1) =>
          match read_nat 0 false p1 with
          | Some (hi, c_rbrace :: p2) => Some (lo, Some hi, p2)
          | _ => None
          end
      | _ => None
      end
  | _ => None
  end.

Definition read_quant (atom : regex) (p : str) : regex * str :=
  match read_bounds p with
  | Some (lo, hi, c_quest :: p') => (RRep lo hi false atom, p')
  | Some (lo, hi, p') => (RRep lo hi true atom, p')
  | None => (atom, p)
  end.

Definition cat (r1 r2 : regex) : regex :=
  match r2 with REmpty => r1 | _ => RCat r1 r2 end.

(** Recursive descent; [g] counts the capturing groups opened so far, so
    that groups are numbered by their opening parenthesis. *)
Fixpoint read_alt (fuel g : nat) (p : str) {struct fuel} : option (regex * nat * str) :=
  match fuel with
  | O => None
  | S fuel' =>
      match read_seq fuel' g p with
      | Some (r1, g1, c_bar :: p1) =>
          match read_alt fuel' g1 p1 with
          | Some (r2, g2, p2) => Some (RAlt r1 r2, g2, p2)
          | None => None
          end
      | other => other
      end
  end
with read_seq (fuel g : nat) (p : str) {struct fuel} : option (regex * nat * str) :=
  match fuel with
  | O => None
  | S fuel' =>
      match p with
      | [] => Some (REmpty, g, p)
      | c_bar :: _ => Some (REmpty, g, p)
      | c_rparen :: _ => Some (REmpty, g, p)
      | _ =>
          match read_atom fuel' g p with
          | Some (a, g1, p1) =>
              let (q, p2) := read_quant a p1 in
              match read_seq fuel' g1 p2 with
              | Some (r, g2, p3) => Some (cat q r, g2, p3)
              | None => None
              end
          | None => None
          end
      end
  end
with read_atom (fuel g : nat) (p : str) {struct fuel} : option (regex * nat * str) :=
  match fuel with
  | O => None
  | S fuel' =>
      match p with
      | c_lparen :: c_quest :: c_colon :: p' =>
          match read_alt fuel' g p' with
          | Some (r, g1, c_rparen :: p1) => Some (r, g1, p1)
          | _ => None
          end
      | c_lparen :: c_quest :: c_equal :: p' =>
          match read_alt fuel' g p' with
          | Some (r, g1, c_rparen :: p1) => Some (RLook r, g1, p1)
          | _ => None
          end
      | c_lparen :: c_quest :: _ => None
      | c_lparen :: p' =>
          match read_alt fuel' (S g) p' with
          | Some (r, g1, c_rparen :: p1) => Some (RGroup (S g) r, g1, p1)
          | _ => None
          end
      | c_lbrack :: c_caret :: p' =>
          match read_set (S (length p')) p' with
          | Some (items, p1) => Some (RSet true items, g, p1)
          | None => None
          end
      | c_lbrack :: p' =>
          match read_set (S (length p')) p' with
          | Some (items, p1) => Some (RSet false items, g, p1)
          | None => None
          end
      | c_bslash :: x :: p' =>
          if x =? code "b" then Some (RWordB, g, p')
          else if x =? code "d" then Some (RSet false [CDigit], g, p')
          else if x =? code "s" then Some (RSet false [CSpace], g, p')
          else if x =? code "w" then Some (RSet false [CWord], g, p')
          else if is_alpha x || is_digit x then None
          else Some (RLit x, g, p')
      | c_bslash :: [] => None
      | c_dot :: p' => Some (RAny, g, p')
      | c_dollar :: p' => Some (REnd, g, p')
      | c_caret :: _ => None
      | c_star :: _ => None
      | c_plus :: _ => None
      | c_quest :: _ => None
      | c_lbrace :: _ => None
      | c_rparen :: _ => None
      | c :: p' => Some (RLit c, g, p')
      | [] => None
      end
  end.

(** [re.compile(pattern)]; [None] stands for [re.error] (or for syntax
    outside the fragment). *)
Definition compile (pattern : str) : option regex :=
  match read_alt (3 * S (length pattern)) O pattern with
  | Some (r, _, []) => Some r
  | _ => None
  end.

(** A pattern that does not compile matches nothing; every pattern of the
    module compiles (see [patterns_compile] below). *)
Definition re (pattern : str) : regex :=
  match compile pattern with Some r => r | None => RFail end.

(** [re.escape]: a backslash before every special character. *)
Definition is_special (c : N) : bool :=
  existsb (N.eqb c)
    (U "()[]{}?*+-|^$\.&~# " ++ [9; 10; 13; 11; 12]).

Definition escape (s : str) : str :=
  flat_map (fun c => if is_special c then [c_bslash; c] else [c]) s.

End Re.

(** ** Exceptions *)

(** What a call can raise.  [TypeError] also stands for the
    [AttributeError] of a method call on [None]. *)
Inductive exn : Type := ValueError | OverflowError | TypeError.

Inductive result (A : Type) : Type :=
| Ok (a : A)
| Raise (e : exn).
Arguments Ok {A} a.
Arguments Raise {A} e.

#[global] Instance result_ret : MRet result := fun A a => Ok a.
#[global] Instance result_bind : MBind result := fun A B f r =>
  match r with Ok a => f a | Raise e => Raise e end.

(** [try: ... except ValueError: return handler] *)
Definition except_ValueError {A} (body : result A) (handler : A) : result A :=
  match body with
  | Raise ValueError => Ok handler
  | other => other
  end.

(** ** Numbers and dates *)

Module PyNum.

Local Open Scope Z_scope.

(** *** [int(str)] *)

(** A run of digits, single underscores allowed between two digits;
    returns the digit values and what follows the run. *)
Fixpoint digit_run (started : bool) (p : str) : list Z * str :=
  match p with
  | c :: p' =>
      if is_digit c then
        let (ds, rest) := digit_run true p' in (Z.of_N (c - 48) :: ds, rest)
      else if (c =? 95)%N && started then
        match p' with
        | d :: _ => if is_digit d then digit_run false p' else ([], p)
        | [] => ([], p)
        end
      else ([], p)
  | [] => ([], [])
  end.

Definition digits_value (ds : list Z) : Z := fold_left (fun a d => 10 * a + d) ds 0.

Definition read_sign (p : str) : bool * str :=
  match p with
  | c :: p' =>
      if (c =? 45)%N then (true, p')
      else if (c =? 43)%N then (false, p')
      else (false, p)
  | [] => (false, p)
  end.

Definition signed (neg : bool) (n : Z) : Z := if neg then - n else n.

(** [sys.int_info.default_max_str_digits]: the longest run of digits that
    [int] converts. *)
Definition max_str_digits : nat := 4300.

(** [int(s)]: optional surrounding whitespace, optional sign, decimal
    digits; more than [max_str_digits] digits raise [ValueError]. *)
Definition int_of_str (s : str) : result Z :=
  let (neg, p) := read_sign (strip s) in
  match digit_run false p with
  | ((_ :: _) as ds, []) =>
      if (max_str_digits <? length ds)%nat then Raise ValueError
      else Ok (signed neg (digits_value ds))
  | _ => Raise ValueError
  end.

(** *** Floats *)

(** A binary64 value: [(-1)^neg * m * 2^e] with [0 <= m], an infinity,
    or not-a-number. *)
Inductive pyfloat : Type :=
| FNum (neg : bool) (m e : Z)
| FInf (neg : bool)
| FNan.

(** [p / (q * 2^e)] as a fraction of two integers. *)
Definition scale2 (p q e : Z) : Z * Z :=
  if 0 <=? e then (p, q * 2 ^ e) else (p * 2 ^ (- e), q).

(** The binary64 nearest to [p / q] ([0 <= p], [0 < q]), ties to even:
    53 significant bits, least exponent -1074, overflow to infinity from
    [2^1024] on. *)
Definition round_b64 (neg : bool) (p q : Z) : pyfloat :=
  if p =? 0 then FNum neg 0 0
  else
    let e0 := Z.log2 p - Z.log2 q in
    let (a0, b0) := scale2 p q e0 in
    let e := if a0 <? b0 then e0 - 1 else e0 in
    let ex := Z.max (e - 52) (-1074) in
    let (a, b) := scale2 p q ex in
    let m := a / b in
    let r := a mod b in
    let m' := if (b <? 2 * r) || ((b =? 2 * r) && Z.odd m) then m + 1 else m in
    if (971 <? ex) || ((ex =? 971) && (2 ^ 53 <=? m')) then FInf neg
    else FNum neg m' ex.

(** [float(n)] for an integer, and the product of two floats. *)
Definition float_of_int (n : Z) : pyfloat := round_b64 (n <? 0) (Z.abs n) 1.

Definition fmul (x y : pyfloat) : pyfloat :=
  match x, y with
  | FNan, _ => FNan
  | _, FNan => FNan
  | FInf s, FInf t => FInf (xorb s t)
  | FInf s, FNum t m _ => if m =? 0 then FNan else FInf (xorb s t)
  | FNum s m _, FInf t => if m =? 0 then FNan else FInf (xorb s t)
  | FNum s m1 e1, FNum t m2 e2 =>
      let (p, q) := scale2 (m1 * m2) 1 (- (e1 + e2)) in
      round_b64 (xorb s t) p q
  end.

(** [float(s)]: optional surrounding whitespace and sign, then [inf],
    [infinity], [nan], or a decimal numeral with optional fraction and
    exponent, correctly rounded. *)
Definition read_exponent (p : str) : option (Z * str) :=
  match p with
  | c :: p' =>
      if (lower_c c =? code "e")%N then
        let (neg, p1) := read_sign p' in
        match digit_run false p1 with
        | ((_ :: _) as ds, rest) => Some (signed neg (digits_value ds), rest)
        | _ => None
        end
      else Some (0, p)
  | [] => Some (0, p)
  end.

Definition float_of_str (s : str) : result pyfloat :=
  let (neg, p) := read_sign (strip s) in
  let word := lower p in
  if bool_decide (word = U "inf") || bool_decide (word = U "infinity") then Ok (FInf neg)
  else if bool_decide (word = U "nan") then Ok FNan
  else
    let (ip, p1) := digit_run false p in
    let (fp, p2) :=
      match p1 with
      | c :: p1' => if (c =? 46)%N then digit_run false p1' else ([], p1)
      | [] => ([], p1)
      end in
    match ip ++ fp with
    | [] => Raise ValueError
    | ds =>
        match read_exponent p2 with
        | Some (ex, []) =>
            let x := ex - Z.of_nat (length fp) in
            let mant := digits_value ds in
            Ok (if 0 <=? x then round_b64 neg (mant * 10 ^ x) 1
                else round_b64 neg mant (10 ^ (- x)))
        | _ => Raise ValueError
        end
    end.

(** [int(x)] for a float: truncation toward zero. *)
Definition int_of_float (x : pyfloat) : result Z :=
  match x with
  | FNum neg m e => Ok (signed neg (if 0 <=? e then m * 2 ^ e else m / 2 ^ (- e)))
  | FInf _ => Raise OverflowError
  | FNan => Raise ValueError
  end.

(** *** [datetime.date] *)

Record date : Type := Date { d_year : Z; d_month : Z; d_day : Z }.

Definition is_leap (y : Z) : bool :=
  (y mod 4 =? 0) && (negb (y mod 100 =? 0) || (y mod 400 =? 0)).

Definition days_in_month (y m : Z) : Z :=
  if m =? 2 then (if is_leap y then 29 else 28)
  else if (m =? 4) || (m =? 6) || (m =? 9) || (m =? 11) then 30
  else 31.

(** [datetime.date(y, m, d)]: a [ValueError] outside the calendar. *)
Definition date_new (y m d : Z) : result date :=
  if (1 <=? y) && (y <=? 9999) && (1 <=? m) && (m <=? 12)
     && (1 <=? d) && (d <=? days_in_month y m)
  then Ok (Date y m d) else Raise ValueError.

(** [d.isoformat()]: [YYYY-MM-DD] *)
Definition isoformat (d : date) : str :=
  zero_pad 4 (Z.to_N (d_year d)) ++ U "-" ++ zero_pad 2 (Z.to_N (d_month d))
    ++ U "-" ++ zero_pad 2 (Z.to_N (d_day d)).

End PyNum.
Export PyNum.

Import Re.

(** ** Keyword dictionaries

    Python dictionaries keep insertion order, and the module iterates over
    some of them: they are association lists in source order. *)

Fixpoint dict_get {V : Type} (d : list (str * V)) (k : str) : option V :=
  match d with
  | [] => None
  | (k', v) :: d' => if bool_decide (k' = k) then Some v else dict_get d' k
  end.

Definition MONTHS : list (str * Z) :=
  [ (U "january", 1); (U "february", 2); (U "march", 3); (U "april", 4);
    (U "may", 5); (U "june", 6); (U "july", 7); (U "august", 8);
    (U "september", 9); (U "october", 10); (U "november", 11);
    (U "december", 12) ]%Z.

(** [{m[:3]: n for m, n in MONTHS.items()}] *)
Definition MONTH_ABBR : list (str * Z) :=
  map (fun '(m, n) => (take 3 m, n)) MONTHS.

Definition WORD_NUMS : list (str * Z) :=
  [ (U "one", 1); (U "two", 2); (U "three", 3); (U "four", 4); (U "five", 5);
    (U "six", 6); (U "seven", 7); (U "eight", 8); (U "nine", 9); (U "ten", 10);
    (U "eleven", 11); (U "twelve", 12); (U "thirteen", 13); (U "fourteen", 14);
    (U "fifteen", 15); (U "sixteen", 16); (U "seventeen", 17);
    (U "eighteen", 18); (U "nineteen", 19); (U "twenty", 20) ]%Z.

Definition INTEREST_KEYWORDS : list (str * list str) :=
  [ (U "art", [U "art"; U "museum"; U "galleries"; U "gallery"; U "exhibition"]);
    (U "food", [U "food"; U "cuisine"; U "restaurant"; U "dining"; U "culinary";
                U "street food"]);
    (U "history", [U "history"; U "historic"; U "heritage"; U "castle";
                   U "monument"; U "ruins"]);
    (U "nature", [U "nature"; U "hike"; U "hiking"; U "park"; U "outdoors";
                  U "mountain"; U "forest"]);
    (U "adventure", [U "adventure"; U "kayak"; U "ski"; U "surf"; U "dive";
                     U "zipline"; U "trek"; U "climb"]);
    (U "nightlife", [U "nightlife"; U "club"; U "bars"; U "bar"; U "pub"; U "party"]);
    (U "shopping", [U "shopping"; U "shop"; U "boutique"; U "mall"; U "market";
                    U "souvenir"]);
    (U "family", [U "family"; U "kids"; U "children"; U "zoo"; U "theme park"]);
    (U "romance", [U "romance"; U "honeymoon"; U "couple"; U "romantic"]) ].

Definition CURRENCY_SIGNS : list (str * str) :=
  [ (U "$", U "USD"); (U "€", U "EUR"); (U "£", U "GBP"); (U "₹", U "INR");
    (U "¥", U "JPY"); (U "₩", U "KRW"); (U "A$", U "AUD"); (U "C$", U "CAD") ].

Definition CURRENCY_WORDS : list (str * str) :=
  [ (U "usd", U "USD"); (U "dollar", U "USD"); (U "dollars", U "USD");
    (U "eur", U "EUR"); (U "euro", U "EUR"); (U "euros", U "EUR");
    (U "gbp", U "GBP"); (U "pound", U "GBP"); (U "pounds", U "GBP");
    (U "inr", U "INR"); (U "rupee", U "INR"); (U "rupees", U "INR");
    (U "jpy", U "JPY"); (U "yen", U "JPY");
    (U "cad", U "CAD"); (U "aud", U "AUD") ].

(** ** Parsing utilities *)

(** [m.group(i)] used as a string: a group that took no part is [None],
    and the use raises. *)
Definition group_str (m : match_obj) (idx : nat) : result str :=
  match group m idx with
  | Some g => Ok g
  | None => Raise TypeError
  end.

(** [f(x) if x else other], for [x] a string or [None]. *)
Definition if_str {A : Type} (x : option str) (f : str -> A) (other : A) : A :=
  match x with
  | Some g => if truthy g then f g else other
  | None => other
  end.

(** [a or b], for integers or [None]. *)
Definition py_or (a b : option Z) : option Z :=
  match a with
  | Some n => if (n =? 0)%Z then b else a
  | None => b
  end.

Definition is_match (m : option match_obj) : bool :=
  match m with Some _ => true | None => false end.

Definition _clean (text : str) : str :=
  sub false (re (U "\s+")) (U " ") (strip text).

Definition destination_re : regex :=
  re (U "(?:trip\s+to|travel\s+to|fly\s+to|to|visit)\s+([A-Z][\w\-\s]+?)(?=(?:\s+for|\s+with|\s+in|\s+on|\s+by|,|\.|$))").

Definition _find_destination (text : str) : result (option str) :=
  match search true destination_re text with
  | Some m => g ← group_str m 1; Ok (Some (title (_clean g)))
  | None => Ok None
  end.

Definition departure_re : regex :=
  re (U "\bfrom\s+([A-Z][\w\-\s]+?)(?=(?:\s+to|\s+for|,|\.|$))").

Definition _find_departure_city (text : str) : result (option str) :=
  match search true departure_re text with
  | Some m => g ← group_str m 1; Ok (Some (title (_clean g)))
  | None => Ok None
  end.

(** *** Dates: [_find_month_or_window] *)

(** The dictionary [out], with keys among [start_date], [end_date], [month]. *)
Record window_t : Type := Window {
  w_start_date : option str;
  w_end_date : option str;
  w_month : option Z
}.

Definition _mon_num (tok : str) : option Z :=
  let tok := lower tok in
  py_or (dict_get MONTHS tok) (dict_get MONTH_ABBR (take 3 tok)).

Definition _strip_ord (d : str) : result Z :=
  int_of_str (sub true (re (U "(st|nd|rd|th)$")) (U "") d).

Definition iso_re : regex :=
  re (U "(\d{4}-\d{2}-\d{2})\s*(?:to|-|–|—)\s*(\d{4}-\d{2}-\d{2})").

Definition pat1 : regex :=
  re (U "\b([A-Za-z]{3,9})\s+(\d{1,2})(?:st|nd|rd|th)?"
      ++ U "\s*(?:,?\s*(\d{4}))?\s*"
      ++ U "(?:to|-|–|—|through|thru|until|till|up to|up\-to)\s*"
      ++ U "(?:(?:([A-Za-z]{3,9})\s+)?(\d{1,2})(?:st|nd|rd|th)?)"
      ++ U "(?:\s*,?\s*(\d{4}))?").

Definition pat2 : regex :=
  re (U "\b(\d{1,2})(?:st|nd|rd|th)?\s*"
      ++ U "(?:to|-|–|—|through|thru|until|till|up to|up\-to)\s*"
      ++ U "(\d{1,2})(?:st|nd|rd|th)?\s*"
      ++ U "([A-Za-z]{3,9})"
      ++ U "(?:\s*,?\s*(\d{4}))?").

Definition pat3 : regex :=
  re (U "\bbetween\s+([A-Za-z]{3,9})\s+(\d{1,2})(?:st|nd|rd|th)?\s+"
      ++ U "and\s+(\d{1,2})(?:st|nd|rd|th)?(?:\s*,?\s*(\d{4}))?").

Definition plain_month_re : regex := re (U "\b(?:in\s+)?([A-Za-z]{3,9})\b").

(** The [try] block shared by patterns 1 to 3: build both dates, then fill
    [out] and return it; a [ValueError] from either date means "keep
    looking" ([None]). *)
Definition date_pair (out : window_t) (sy sm sd ey em ed : Z) : result (option window_t) :=
  except_ValueError
    (start ← date_new sy sm sd;
     end_ ← date_new ey em ed;
     Ok (Some (Window (Some (isoformat start)) (Some (isoformat end_)) (w_month out))))
    None.

(** 1) "Oct 5th to 15th, 2025"  OR  "October 5-15, 2025" *)
Definition window_pat1 (year_now : Z) (T : str) (out : window_t) : result (option window_t) :=
  match search true pat1 T with
  | Some m =>
      smon ← group_str m 1;
      sd ← group_str m 2;
      let sy := group m 3 in
      let emon := group m 4 in
      ed ← group_str m 5;
      let ey := group m 6 in
      let sm := _mon_num smon in
      let em := if_str emon _mon_num sm in
      match sm, em with
      | Some sm, Some em =>
          if negb (sm =? 0)%Z && negb (em =? 0)%Z then
            sd_i ← _strip_ord sd;
            ed_i ← _strip_ord ed;
            sy_i ← if_str sy int_of_str (Ok year_now);
            ey_i ← if_str ey int_of_str (Ok sy_i);
            date_pair out sy_i sm sd_i ey_i em ed_i
          else Ok None
      | _, _ => Ok None
      end
  | None => Ok None
  end.

(** 2) "5th to 15th Oct 2025"  OR  "5-15 October, 2025" *)
Definition window_pat2 (year_now : Z) (T : str) (out : window_t) : result (option window_t) :=
  match search true pat2 T with
  | Some m =>
      sd ← group_str m 1;
      ed ← group_str m 2;
      mon ← group_str m 3;
      let yr := group m 4 in
      match _mon_num mon with
      | Some mm =>
          if negb (mm =? 0)%Z then
            sd_i ← _strip_ord sd;
            ed_i ← _strip_ord ed;
            y ← if_str yr int_of_str (Ok year_now);
            date_pair out y mm sd_i y mm ed_i
          else Ok None
      | None => Ok None
      end
  | None => Ok None
  end.

(** 3) "between Oct 5 and 15, 2025" *)
Definition window_pat3 (year_now : Z) (T : str) (out : window_t) : result (option window_t) :=
  match search true pat3 T with
  | Some m =>
      mon ← group_str m 1;
      sd ← group_str m 2;
      ed ← group_str m 3;
      let yr := group m 4 in
      match _mon_num mon with
      | Some mm =>
          if negb (mm =? 0)%Z then
            sd_i ← _strip_ord sd;
            ed_i ← _strip_ord ed;
            y ← if_str yr int_of_str (Ok year_now);
            date_pair out y mm sd_i y mm ed_i
          else Ok None
      | None => Ok None
      end
  | None => Ok None
  end.

(** 4) Plain month: "in Oct" / "in October" *)
Definition window_plain_month (T : str) (out : window_t) : result (option window_t) :=
  match search false plain_month_re T with
  | Some mon =>
      g ← group_str mon 1;
      let key := lower g in
      match py_or (dict_get MONTHS key) (dict_get MONTH_ABBR (take 3 key)) with
      | Some month_num =>
          if negb (month_num =? 0)%Z
          then Ok (Some (Window (w_start_date out) (w_end_date out) (Some month_num)))
          else Ok None
      | None => Ok None
      end
  | None => Ok None
  end.

(** [year_now] is [datetime.date.today().year], the one reading of the
    clock, taken as an input. *)
Definition _find_month_or_window (year_now : Z) (text : str) : result window_t :=
  let out := Window None None None in
  let T := text in
  match search false iso_re T with
  | Some iso =>
      s ← group_str iso 1;
      e ← group_str iso 2;
      Ok (Window (Some s) (Some e) (w_month out))
  | None =>
      r1 ← window_pat1 year_now T out;
      match r1 with
      | Some w => Ok w
      | None =>
          r2 ← window_pat2 year_now T out;
          match r2 with
          | Some w => Ok w
          | None =>
              r3 ← window_pat3 year_now T out;
              match r3 with
              | Some w => Ok w
              | None =>
                  r4 ← window_plain_month T out;
                  match r4 with
                  | Some w => Ok w
                  | None => Ok out
                  end
              end
          end
      end
  end.

(** *** Duration: [_find_duration_days] *)

Definition duration_digits_re : regex :=
  re (U "\b(\d{1,3})\s*(?:-\s*)?(?:day|days|night|nights)\b").

(** [rf"\b{w}\s*(?:day|days|night|nights)\b"] *)
Definition duration_word_re (w : str) : regex :=
  re (U "\b" ++ w ++ U "\s*(?:day|days|night|nights)\b").

Definition _find_duration_days (text : str) : result (option Z) :=
  match search true duration_digits_re text with
  | Some m => g ← group_str m 1; n ← int_of_str g; Ok (Some n)
  | None =>
      Ok (snd <$> List.find
            (fun '(w, n) => is_match (search true (duration_word_re w) text))
            WORD_NUMS)
  end.

(** *** Travelers: [_find_travelers] *)

Record travelers_t : Type := Travelers {
  adults : option Z;
  children : Z
}.

Definition family_re : regex := re (U "\bfamily\s+of\s+(\d+)\b").
Definition n_people_re : regex := re (U "\b(\d+)\s+(?:adults?|people|persons?)\b").
(** [rf"\b{w}\s+(?:people|persons|adults?)\b"] *)
Definition word_people_re (w : str) : regex :=
  re (U "\b" ++ w ++ U "\s+(?:people|persons|adults?)\b").
Definition for_n_re : regex := re (U "\bfor\s+(one|two|three|four|five|six|\d+)\b").
Definition couple_re : regex := re (U "\b(couple|honeymoon)\b").

Definition _find_travelers (text : str) : result travelers_t :=
  let out := Travelers None 0 in
  match search true family_re text with
  | Some m =>
      g ← group_str m 1;
      total ← int_of_str g;
      let a := if (3 <=? total)%Z then Z.max 2 (total - 2) else total in
      Ok (Travelers (Some a) (Z.max 0 (total - a)))
  | None =>
  match search true n_people_re text with
  | Some m =>
      g ← group_str m 1;
      n ← int_of_str g;
      Ok (Travelers (Some n) (children out))
  | None =>
  match List.find (fun '(w, n) => is_match (search true (word_people_re w) text))
          WORD_NUMS with
  | Some (w, n) => Ok (Travelers (Some n) (children out))
  | None =>
  match search true for_n_re text with
  | Some m =>
      g ← group_str m 1;
      let word := lower g in
      dflt ← (if isdigit word then int_of_str word else Ok 2%Z);
      Ok (Travelers (Some (default dflt (dict_get WORD_NUMS word))) (children out))
  | None =>
  if is_match (search true couple_re text)
  then Ok (Travelers (Some 2%Z) (children out))
  else Ok out
  end end end end.

(** *** Budget: [_normalize_budget_number], [_find_budget] *)

Definition _normalize_budget_number (num_str : str) : result Z :=
  let s := remove_char (code " ") (remove_char (code ",") (lower num_str)) in
  if endswith s (U "k") then
    let s := removelast s in
    except_ValueError
      (x ← float_of_str s; int_of_float (fmul x (float_of_int 1000)))
      0%Z
  else
    except_ValueError (x ← float_of_str s; int_of_float x) 0%Z.

Record budget_t : Type := Budget {
  amount : option Z;
  currency : option str;
  tag : option str
}.

(** [rf"(?:{re.escape(sign)})\s*([\d,.\s]*k?)"] *)
Definition sign_re (sign : str) : regex :=
  re (U "(?:" ++ escape sign ++ U ")\s*([\d,.\s]*k?)").

Definition currency_word_re : regex :=
  re (U "\b(\d[\d,.\s]*k?)\s*(usd|eur|gbp|inr|jpy|cad|aud|dollars?|euros?|pounds?|rupees?|yen)\b").

Definition budget_number_re : regex :=
  re (U "\bbudget(?:\s+of|\s*[:=])?\s*(\d[\d,.\s]*k?)\b").

Definition budget_friendly_re : regex :=
  re (U "\bbudget[- ]?friendly|cheap|affordable|low[ -]?cost\b").
Definition luxury_re : regex :=
  re (U "\bluxury|luxurious|high[- ]?end|premium|5[- ]?star\b").
Definition mid_range_re : regex :=
  re (U "\bmid[- ]?range|moderate|standard\b").

(** The loop over [CURRENCY_SIGNS.items()]: the first sign whose amount
    is non-zero returns; [None] when the loop runs to its end. *)
Fixpoint budget_by_sign (signs : list (str * str)) (text : str)
  : result (option budget_t) :=
  match signs with
  | [] => Ok None
  | (sign, code_) :: signs' =>
      match search true (sign_re sign) text with
      | Some m =>
          g ← group_str m 1;
          if truthy (strip g) then
            amt ← _normalize_budget_number g;
            if negb (amt =? 0)%Z
            then Ok (Some (Budget (Some amt) (Some code_) None))
            else budget_by_sign signs' text
          else budget_by_sign signs' text
      | None => budget_by_sign signs' text
      end
  end.

(** The keyword bands, after the numeric rules. *)
Definition budget_band (text : str) : budget_t :=
  if is_match (search true budget_friendly_re text)
  then Budget None None (Some (U "budget-friendly"))
  else if is_match (search true luxury_re text)
  then Budget None None (Some (U "luxury"))
  else if is_match (search true mid_range_re text)
  then Budget None None (Some (U "mid-range"))
  else Budget None None None.

Definition _find_budget (text : str) : result budget_t :=
  r ← budget_by_sign CURRENCY_SIGNS text;
  match r with
  | Some b => Ok b
  | None =>
  match search true currency_word_re text with
  | Some m =>
      g1 ← group_str m 1;
      amt ← _normalize_budget_number g1;
      g2 ← group_str m 2;
      let cur := default (U "USD") (dict_get CURRENCY_WORDS (lower g2)) in
      Ok (Budget (Some amt) (Some cur) None)
  | None =>
  match search true budget_number_re text with
  | Some m =>
      g ← group_str m 1;
      amt ← _normalize_budget_number g;
      if negb (amt =? 0)%Z
      then Ok (Budget (Some amt) (Some (U "USD")) None)
      else Ok (budget_band text)
  | None => Ok (budget_band text)
  end end end.

(** *** Interests: [_find_interests] *)

(** Python compares strings code point by code point, a proper prefix
    being smaller. *)
Fixpoint str_leb (a b : str) : bool :=
  match a, b with
  | [], _ => true
  | _ :: _, [] => false
  | x :: a', y :: b' =>
      if (x <? y)%N then true
      else if (x =? y)%N then str_leb a' b'
      else false
  end.

Definition str_le (a b : str) : Prop := str_leb a b.
Definition str_lt (a b : str) : Prop := str_le a b ∧ a ≠ b.

(** [sorted(hits)] for a set of strings. *)
Definition sorted (hits : gset str) : list str := merge_sort str_le (elements hits).

(** [rf"\b{re.escape(w)}\b"] *)
Definition interest_re (w : str) : regex := re (U "\b" ++ escape w ++ U "\b").

Definition _find_interests (text : str) : list str :=
  let hits : gset str :=
    foldl (fun hits '(tag, words) =>
             if existsb (fun w => is_match (search true (interest_re w) text)) words
             then {[ tag ]} ∪ hits
             else hits)
          ∅ INTEREST_KEYWORDS in
  sorted hits.

(** *** Constraints: [_find_constraints] *)

(** [rf"\b{kw}\b[^.,;]*"] *)
Definition constraint_re (kw : str) : regex := re (U "\b" ++ kw ++ U "\b[^.,;]*").

Definition constraint_keywords : list str :=
  [U "must"; U "need"; U "avoid"; U "no "; U "prefer"; U "nonstop"; U "non-stop"].

(** The de-duplication loop: [seen] holds the lower-cased entries kept so far. *)
Fixpoint dedup (seen : gset str) (constraints : list str) : list str :=
  match constraints with
  | [] => []
  | c :: rest =>
      if decide (lower c ∈ seen) then dedup seen rest
      else c :: dedup ({[ lower c ]} ∪ seen) rest
  end.

Definition _find_constraints (text : str) : list str :=
  let constraints :=
    flat_map (fun kw => map (fun m => _clean (group0 m))
                            (finditer true (constraint_re kw) text))
             constraint_keywords in
  dedup ∅ constraints.

(** ** Main tool: [parse_trip_request] *)

Record trip_spec : Type := TripSpec {
  destination : option str;
  departure_city : option str;
  month : option Z;
  start_date : option str;
  end_date : option str;
  duration_days : option Z;
  travelers : travelers_t;
  budget : budget_t;
  interests : list str;
  constraints : list str;
  notes : str
}.

Record response : Type := Response {
  status : str;
  spec : trip_spec
}.

Definition parse_trip_request (year_now : Z) (text : str) : result response :=
  let text := strip text in
  destination ← _find_destination text;
  departure ← _find_departure_city text;
  window ← _find_month_or_window year_now text;
  duration ← _find_duration_days text;
  travelers ← _find_travelers text;
  budget ← _find_budget text;
  let interests := _find_interests text in
  let constraints := _find_constraints text in
  Ok (Response (U "success")
        (TripSpec destination departure
           (w_month window) (w_start_date window) (w_end_date window)
           duration
           (Travelers (adults travelers) (children travelers))
           (Budget (amount budget) (currency budget) (tag budget))
           interests constraints text)).

(** [f <$> r] on results, to read one field of the answer. *)
#[global] Instance result_fmap : FMap result := fun A B f r =>
  match r with Ok a => Ok (f a) | Raise e => Raise e end.

(** The budget and the date fields of the answer to a request. *)
Definition budget_of (r : result response) : result budget_t :=
  (fun a => budget (spec a)) <$> r.

Definition window_of (r : result response) : result window_t :=
  (fun a => Window (start_date (spec a)) (end_date (spec a)) (month (spec a))) <$> r.

(** The closed vocabulary of interest tags. *)
Definition interest_vocabulary : list str :=
  [U "art"; U "food"; U "history"; U "nature"; U "adventure"; U "nightlife";
   U "shopping"; U "family"; U "romance"].



(** A date window is either a pair of dates without a month, or no dates. *)
Definition window_shape (w : window_t) : Prop :=
  (w_start_date w = None ∧ w_end_date w = None)
  ∨ (∃ s e, w_start_date w = Some s ∧ w_end_date w = Some e ∧ w_month w = None).

(** Strictly ascending, hence duplicate-free, and inside the vocabulary. *)
Definition interests_ok (l : list str) : Prop :=
  StronglySorted str_lt l ∧ NoDup l ∧ Forall (fun t => t ∈ interest_vocabulary) l.

(** A pattern that compiled: [re] did not fall back to [RFail]. *)
Definition compiles (r : regex) : bool :=
  match r with RFail => false | _ => true end.

(** ** Notions used by the further properties *)

(** The clauses found by the keyword loops, before de-duplication. *)
Definition constraint_candidates (text : str) : list str :=
  flat_map (fun kw => map (fun m => _clean (group0 m))
                          (finditer true (constraint_re kw) text))
           constraint_keywords.

(** The ISO codes and the tier names a budget can carry. *)
Definition currency_codes : list str :=
  [U "USD"; U "EUR"; U "GBP"; U "INR"; U "JPY"; U "KRW"; U "AUD"; U "CAD"].

Definition budget_tags : list str :=
  [U "budget-friendly"; U "luxury"; U "mid-range"].

(** The text of a valid calendar date, as [isoformat] prints it. *)
Definition is_iso_date (s : str) : Prop :=
  ∃ y m d : Z,
    (1 <= y <= 9999)%Z ∧ (1 <= m <= 12)%Z ∧ (1 <= d <= days_in_month y m)%Z
    ∧ s = isoformat (Date y m d).

(** The number a string of decimal digits spells. *)
Definition digit_val (c : N) : Z := Z.of_N (c - 48).
Definition digits_number (ds : str) : Z := digits_value (map digit_val ds).

(** What a plain amount is written with: digits, commas and blanks. *)
Definition amount_char (c : N) : bool := is_digit c || (c =? 44) || (c =? 32).

(** *** What a match means

    A declarative reading of patterns, against which the matcher is sound:
    [spans r s s'] says that [r] can take the matcher from state [s] to
    state [s'], and [lang r w] that [r] can consume the text [w]. *)

Definition hi_ok (hi : option nat) (n : nat) : Prop :=
  match hi with Some h => (n <= h)%nat | None => True end.

Fixpoint iter_rel (R : mstate -> mstate -> Prop) (n : nat) (s s' : mstate) : Prop :=
  match n with
  | O => s' = s
  | S n' => ∃ m, R s m ∧ iter_rel R n' m s'
  end.

Definition step_rel (p : N -> bool) (s s' : mstate) : Prop :=
  ∃ c rest, ms_rest s = c :: rest ∧ p c = true ∧ s' = advance s c rest.

Fixpoint spans (ic : bool) (r : regex) (s s' : mstate) : Prop :=
  match r with
  | REmpty => s' = s
  | RFail => False
  | RLit p => step_rel (lit_matches ic p) s s'
  | RAny => step_rel (fun c => negb (c =? 10)) s s'
  | RSet negated items => step_rel (set_matches ic negated items) s s'
  | RCat r1 r2 => ∃ m, spans ic r1 s m ∧ spans ic r2 m s'
  | RAlt r1 r2 => spans ic r1 s s' ∨ spans ic r2 s s'
  | RRep lo hi _ r1 =>
      ∃ n, (lo <= n)%nat ∧ hi_ok hi n ∧ iter_rel (spans ic r1) n s s'
  | RGroup idx r1 => ∃ m, spans ic r1 s m ∧ s' = set_cap idx (ms_pos s) m
  | RLook r1 =>
      ∃ m, spans ic r1 s m
           ∧ s' = MState (ms_pos s) (ms_prev s) (ms_rest s) (ms_caps m)
  | RWordB =>
      xorb (word_opt (ms_prev s)) (word_opt (head (ms_rest s))) = true ∧ s' = s
  | REnd => (ms_rest s = [] ∨ ms_rest s = [10]) ∧ s' = s
  end.

Fixpoint lang (ic : bool) (r : regex) (w : str) : Prop :=
  match r with
  | REmpty => w = []
  | RFail => False
  | RLit p => ∃ c, w = [c] ∧ lit_matches ic p c = true
  | RAny => ∃ c, w = [c] ∧ negb (c =? 10) = true
  | RSet negated items => ∃ c, w = [c] ∧ set_matches ic negated items c = true
  | RCat r1 r2 => ∃ w1 w2, w = w1 ++ w2 ∧ lang ic r1 w1 ∧ lang ic r2 w2
  | RAlt r1 r2 => lang ic r1 w ∨ lang ic r2 w
  | RRep lo hi _ r1 =>
      ∃ ws, w = concat ws ∧ Forall (lang ic r1) ws
            ∧ (lo <= length ws)%nat ∧ hi_ok hi (length ws)
  | RGroup _ r1 => lang ic r1 w
  | RLook _ => w = []
  | RWordB => w = []
  | REnd => w = []
  end.

(** The capturing groups of a pattern, with their bodies. *)
Fixpoint groups_of (r : regex) : list (nat * regex) :=
  match r with
  | RGroup idx r1 => (idx, r1) :: groups_of r1
  | RCat r1 r2 => groups_of r1 ++ groups_of r2
  | RAlt r1 r2 => groups_of r1 ++ groups_of r2
  | RRep _ _ _ r1 => groups_of r1
  | RLook r1 => groups_of r1
  | _ => []
  end.

(** Whether every match of [r] closes group [idx]. *)
Fixpoint sets (idx : nat) (r : regex) : bool :=
  match r with
  | RGroup i r1 => (i =? idx)%nat || sets idx r1
  | RCat r1 r2 => sets idx r1 || sets idx r2
  | RAlt r1 r2 => sets idx r1 && sets idx r2
  | RRep lo _ _ r1 => (1 <=? lo)%nat && sets idx r1
  | RLook r1 => sets idx r1
  | _ => false
  end.

(** Every character [r] can consume satisfies [p]. *)
Fixpoint leaves (ic : bool) (p : N -> bool) (r : regex) : Prop :=
  match r with
  | RLit x => ∀ c, lit_matches ic x c = true → p c = true
  | RAny => ∀ c, negb (c =? 10) = true → p c = true
  | RSet negated items => ∀ c, set_matches ic negated items c = true → p c = true
  | RCat r1 r2 => leaves ic p r1 ∧ leaves ic p r2
  | RAlt r1 r2 => leaves ic p r1 ∧ leaves ic p r2
  | RRep _ _ _ r1 => leaves ic p r1
  | RGroup _ r1 => leaves ic p r1
  | _ => True
  end.

(** Whether [r] cannot match the empty text. *)
Fixpoint nonnull (r : regex) : bool :=
  match r with
  | RLit _ | RAny | RSet _ _ => true
  | RCat r1 r2 => nonnull r1 || nonnull r2
  | RAlt r1 r2 => nonnull r1 && nonnull r2
  | RRep lo _ _ r1 => (1 <=? lo)%nat && nonnull r1
  | RGroup _ r1 => nonnull r1
  | RFail => true
  | _ => false
  end.

(** A state of the matcher over [text]: what is left is the text from
    the offset on. *)
Definition wf (text : str) (s : mstate) : Prop := ms_rest s = drop (ms_pos s) text.

(** Every recorded span is a match of the body of its group in [G]. *)
Definition caps_in (ic : bool) (text : str) (G : list (nat * regex))
    (caps : list (nat * (nat * nat))) : Prop :=
  ∀ idx i j, (idx, (i, j)) ∈ caps → ∃ r1, (idx, r1) ∈ G ∧ lang ic r1 (slice text i j).

(** A group body that is one or more digits. *)
Definition digits_body (r : regex) : bool :=
  match r with
  | RRep lo _ _ (RSet false [CDigit]) => (1 <=? lo)%nat
  | _ => false
  end.

(** A body that is a run of digits of a length [int] always converts. *)
Definition short_digits (r : regex) : bool :=
  match r with
  | RRep lo (Some hi) _ (RSet false [CDigit]) =>
      (1 <=? lo)%nat && (hi <=? max_str_digits)%nat
  | _ => false
  end.

(** Whether group [idx] of [r], wherever it occurs, has a body passing [test]. *)
Definition group_is (test : regex -> bool) (idx : nat) (r : regex) : bool :=
  forallb (fun p => negb (fst p =? idx)%nat || test (snd p)) (groups_of r).

(** Whether [r] can never consume the character [x]. *)
Fixpoint avoids (ic : bool) (x : N) (r : regex) : bool :=
  match r with
  | RLit y => negb (lit_matches ic y x)
  | RAny => x =? 10
  | RSet negated items => negb (set_matches ic negated items x)
  | RCat r1 r2 => avoids ic x r1 && avoids ic x r2
  | RAlt r1 r2 => avoids ic x r1 && avoids ic x r2
  | RRep _ _ _ r1 => avoids ic x r1
  | RGroup _ r1 => avoids ic x r1
  | _ => true
  end.










(** *** Collapsed whitespace *)

(** Each run of whitespace replaced by one blank; [in_run] tells whether
    the character before was whitespace. *)
Fixpoint collapse (in_run : bool) (s : str) : str :=
  match s with
  | [] => []
  | c :: s' =>
      if is_space c then (if in_run then collapse true s' else 32 :: collapse true s')
      else c :: collapse false s'
  end.

(** Text whose only whitespace is single blanks between other characters:
    [prev_ws] tells whether a whitespace character, or the start, is just
    before. *)
Fixpoint spacing_from (prev_ws : bool) (s : str) : bool :=
  match s with
  | [] => negb prev_ws
  | c :: s' =>
      if is_space c then negb prev_ws && (c =? 32) && spacing_from true s'
      else spacing_from false s'
  end.

Definition normal_spacing (s : str) : bool :=
  match s with [] => true | _ :: _ => spacing_from true s end.

(** The matcher's state after the whitespace at the head of [rest]. *)
Fixpoint skip_space (pos : nat) (prev : option N) (rest : str)
    (caps : list (nat * (nat * nat))) : mstate :=
  match rest with
  | c :: rest' =>
      if is_space c then skip_space (S pos) (Some c) rest' caps
      else MState pos prev rest caps
  | [] => MState pos prev [] caps
  end.

(** The first run of whitespace from [pos] on. *)
Fixpoint find_space (pos : nat) (prev : option N) (rest : str) : option (nat * mstate) :=
  match rest with
  | [] => None
  | c :: rest' =>
      if is_space c then Some (pos, skip_space (S pos) (Some c) rest' [])
      else find_space (S pos) (Some c) rest'
  end.

(** Whether the last character, or else the one before the text, is no
    whitespace. *)
Fixpoint ends_nonspace (prev_ws : bool) (s : str) : bool :=
  match s with
  | [] => negb prev_ws
  | c :: s' => ends_nonspace (is_space c) s'
  end.

(** The characters of a text that are no whitespace. *)
Definition nonspace (s : str) : str := List.filter (fun c => negb (is_space c)) s.

(** What a place name is written with once cleaned: letters, digits,
    underscores, hyphens and blanks. *)
Definition place_char (c : N) : bool := is_word c || (c =? 45) || (c =? 32).

(** The group of a place in the two patterns: [[A-Z][\w\-\s]+?]. *)
Definition place_body (r : regex) : bool :=
  match r with
  | RCat (RSet false [CRange 65 90])
         (RRep (S _) _ _ (RSet false [CWord; CChar 45; CSpace])) => true
  | _ => false
  end.

(** The literal characters a pattern starts with, word boundaries apart. *)
Fixpoint literal_prefix (r : regex) : str :=
  match r with
  | RLit x => [x]
  | RCat RWordB r2 => literal_prefix r2
  | RCat (RLit x) r2 => x :: literal_prefix r2
  | _ => []
  end.

(** The words a constraint can start with. *)
Definition constraint_words : list str :=
  [U "must"; U "need"; U "avoid"; U "no"; U "prefer"; U "nonstop"; U "non-stop"].

(** *** Lower-cased matching *)

(** A matcher state and a match, on the lower-cased text. *)
Definition lower_state (s : mstate) : mstate :=
  MState (ms_pos s) (lower_c <$> ms_prev s) (lower (ms_rest s)) (ms_caps s).

Definition lower_match (m : match_obj) : match_obj :=
  Match (lower (m_string m)) (m_start m) (m_end m) (m_caps m).

(** *** Where a search stops *)

(** The character just before a position: the last one read so far, or
    else the one before the reading began. *)
Definition prev_after (prev : option N) (read : str) : option N :=
  match last read with Some c => Some c | None => prev end.

(** A word boundary, [\b]: exactly one of the two neighbours is a word
    character (the ends of the text count as none). *)
Definition boundary (before after : option N) : Prop :=
  word_opt before ≠ word_opt after.

(** [w] stands in [text] as a whole word, up to letter case. *)
Definition whole_word_in (w text : str) : Prop :=
  ∃ pre mid post,
    text = pre ++ mid ++ post ∧ lower mid = lower w
    ∧ boundary (last pre) (head (mid ++ post))
    ∧ boundary (last (pre ++ mid)) (head post).

(** The pattern [\b w \b] of a literal [w], and the word such a pattern
    spells. *)
Fixpoint lits (w : str) : regex :=
  match w with
  | [] => RWordB
  | p :: w' => RCat (RLit p) (lits w')
  end.

Definition word_re (w : str) : regex := RCat RWordB (lits w).

Fixpoint lits_of (r : regex) : option str :=
  match r with
  | RWordB => Some []
  | RCat (RLit p) r' => cons p <$> lits_of r'
  | _ => None
  end.

Definition as_word (r : regex) : option str :=
  match r with
  | RCat RWordB r' => lits_of r'
  | _ => None
  end.

(** Whether [rest], with [prev] before it, starts with [w] up to case and
    a boundary follows. *)
Fixpoint word_tail (w : str) (prev : option N) (rest : str) : bool :=
  match w with
  | [] => xorb (word_opt prev) (word_opt (head rest))
  | p :: w' =>
      match rest with
      | c :: rest' => lit_matches true p c && word_tail w' (Some c) rest'
      | [] => false
      end
  end.

Definition word_here (w : str) (prev : option N) (rest : str) : bool :=
  xorb (word_opt prev) (word_opt (head rest)) && word_tail w prev rest.


(** * Properties *)

(** ** The patterns of the module all compile *)

Lemma patterns_compile :
  forallb compiles
    ([ re (U "\s+"); re (U "(st|nd|rd|th)$"); destination_re; departure_re;
       iso_re; pat1; pat2; pat3; plain_month_re; duration_digits_re;
       family_re; n_people_re; for_n_re; couple_re; currency_word_re;
       budget_number_re; budget_friendly_re; luxury_re; mid_range_re ]
     ++ map (fun '(w, _) => duration_word_re w) WORD_NUMS
     ++ map (fun '(w, _) => word_people_re w) WORD_NUMS
     ++ map (fun '(sign, _) => sign_re sign) CURRENCY_SIGNS
     ++ flat_map (fun '(_, words) => map interest_re words) INTEREST_KEYWORDS
     ++ map constraint_re constraint_keywords) = true.
Proof. vm_compute. reflexivity. Qed.

(** The comprehension that builds [MONTH_ABBR] meets no key twice. *)
Lemma MONTH_ABBR_keys_distinct : NoDup (map fst MONTH_ABBR).
Proof. apply (bool_decide_unpack _). vm_compute. exact I. Qed.

(** ** Worked requests *)

Example parse_lisbon :
  parse_trip_request 2026
    (U "  Family of 5 trip to Lisbon for 6 days in October, budget around $3k, we love food and history ")
  = Ok (Response (U "success")
          (TripSpec (Some (U "Lisbon")) None None None None (Some 6%Z)
             (Travelers (Some 3%Z) 2) (Budget (Some 3000%Z) (Some (U "USD")) None)
             [U "family"; U "food"; U "history"] []
             (U "Family of 5 trip to Lisbon for 6 days in October, budget around $3k, we love food and history"))).
Proof. vm_compute. reflexivity. Qed.

Example parse_nothing :
  parse_trip_request 2026 (U "hello world")
  = Ok (Response (U "success")
          (TripSpec None None None None None None (Travelers None 0)
             (Budget None None None) [] [] (U "hello world"))).
Proof. vm_compute. reflexivity. Qed.

Example window_iso :
  _find_month_or_window 2026 (U "2025-10-05 to 2025-10-15")
  = Ok (Window (Some (U "2025-10-05")) (Some (U "2025-10-15")) None).
Proof. vm_compute. reflexivity. Qed.

Example window_invalid_day_falls_through :
  _find_month_or_window 2026 (U "Feb 30 to Mar 2") = Ok (Window None None (Some 2%Z)).
Proof. vm_compute. reflexivity. Qed.

Example constraints_dedup :
  _find_constraints
    (U "We must avoid red-eye flights, need a pool; Must Avoid Red-eye flights. nonstop only")
  = [U "must avoid red-eye flights"; U "need a pool"; U "avoid red-eye flights";
     U "nonstop only"].
Proof. vm_compute. reflexivity. Qed.

Example float_tenth : float_of_str (U "0.1") = Ok (FNum false 7205759403792794 (-56)).
Proof. vm_compute. reflexivity. Qed.

Example float_times_1000 :
  (x ← float_of_str (U "1.005"); int_of_float (fmul x (float_of_int 1000))) = Ok 1004%Z.
Proof. vm_compute. reflexivity. Qed.

(** ** Date windows *)

(** On "Oct 5th to 15th, 2025" pattern 1 is the one that matches, with the
    year group after the start day empty: the start date is built from
    the clock's year, the end date from the stated one. *)
Lemma window_pat1_oct_5_15 (year_now : Z) (out : window_t) :
  window_pat1 year_now (U "Oct 5th to 15th, 2025") out
  = date_pair out year_now 10 5 2025 10 15.
Proof. vm_compute. reflexivity. Qed.

Lemma date_new_valid (y m d : Z) :
  (1 <= y <= 9999)%Z → (1 <= m <= 12)%Z → (1 <= d <= days_in_month y m)%Z →
  date_new y m d = Ok (Date y m d).
Proof.
  intros Hy Hm Hd. unfold date_new.
  replace (1 <=? y)%Z with true by (symmetry; apply Z.leb_le; lia).
  replace (y <=? 9999)%Z with true by (symmetry; apply Z.leb_le; lia).
  replace (1 <=? m)%Z with true by (symmetry; apply Z.leb_le; lia).
  replace (m <=? 12)%Z with true by (symmetry; apply Z.leb_le; lia).
  replace (1 <=? d)%Z with true by (symmetry; apply Z.leb_le; lia).
  replace (d <=? days_in_month y m)%Z with true by (symmetry; apply Z.leb_le; lia).
  reflexivity.
Qed.

(** C1. On "Oct 5th to 15th, 2025" the end date is 2025-10-15 and the month
    is absent, but the start date is the 5th of October of the clock's
    current year, whatever that year is: the year stated after the end day
    does not reach the start date. *)
Theorem named_month_range_start_year_is_clock_year (year_now : Z) :
  (1 <= year_now <= 9999)%Z →
  _find_month_or_window year_now (U "Oct 5th to 15th, 2025")
  = Ok (Window (Some (isoformat (Date year_now 10 5))) (Some (U "2025-10-15")) None).
Proof.
  intros Hy. unfold _find_month_or_window.
  replace (search false iso_re (U "Oct 5th to 15th, 2025")) with (@None match_obj)
    by (vm_compute; reflexivity).
  rewrite window_pat1_oct_5_15. unfold date_pair.
  rewrite (date_new_valid year_now 10 5) by (try lia; vm_compute; split; discriminate).
  rewrite (date_new_valid 2025 10 15) by (try lia; vm_compute; split; discriminate).
  reflexivity.
Qed.

Lemma named_month_range_start_year_is_clock_year_witness :
  (1 <= 2026 <= 9999)%Z
  ∧ window_of (parse_trip_request 2026 (U "Oct 5th to 15th, 2025"))
    = Ok (Window (Some (U "2026-10-05")) (Some (U "2025-10-15")) None)
  ∧ _find_month_or_window 2026 (U "Oct 5th to 15th, 2025")
    = Ok (Window (Some (U "2026-10-05")) (Some (U "2025-10-15")) None).
Proof.
  split; [lia |]. split; [vm_compute; reflexivity |].
  apply (named_month_range_start_year_is_clock_year 2026). lia.
Defined.

(** C2. The plain-month rule looks at the first word of three to nine
    letters only: "trip in October" yields no month (and no dates), while
    "in October" yields month 10. *)
Theorem plain_month_reads_first_word_only (year_now : Z) :
  _find_month_or_window year_now (U "trip in October") = Ok (Window None None None)
  ∧ window_of (parse_trip_request year_now (U "trip in October"))
    = Ok (Window None None None)
  ∧ _find_month_or_window year_now (U "in October") = Ok (Window None None (Some 10%Z)).
Proof. repeat split; vm_compute; reflexivity. Qed.

(** C8. "5-15 October 2025" (day range before the month) and
    "between Oct 5 and 15, 2025" both resolve to 2025-10-05 .. 2025-10-15,
    with no month, whatever the clock says. *)
Theorem day_range_and_between_agree (year_now : Z) :
  _find_month_or_window year_now (U "5-15 October 2025")
  = Ok (Window (Some (U "2025-10-05")) (Some (U "2025-10-15")) None)
  ∧ _find_month_or_window year_now (U "between Oct 5 and 15, 2025")
    = Ok (Window (Some (U "2025-10-05")) (Some (U "2025-10-15")) None)
  ∧ window_of (parse_trip_request year_now (U "5-15 October 2025"))
    = window_of (parse_trip_request year_now (U "between Oct 5 and 15, 2025")).
Proof. repeat split; vm_compute; reflexivity. Qed.

(** ** Duration *)

(** C3. "4 days" yields 4, but "four-day" yields no duration: the hyphen is
    accepted after digits only, not after a number word. *)
Theorem word_duration_rejects_hyphen :
  _find_duration_days (U "4 days") = Ok (Some 4%Z)
  ∧ _find_duration_days (U "4-day") = Ok (Some 4%Z)
  ∧ _find_duration_days (U "four day") = Ok (Some 4%Z)
  ∧ _find_duration_days (U "four-day") = Ok None.
Proof. repeat split; vm_compute; reflexivity. Qed.

(** ** Budget *)

(** C4. "0 usd" is answered with amount 0 and currency USD: the
    number-then-currency-word rule returns the normalized number without
    testing it, unlike the sign rule and the "budget N" rule. *)
Theorem currency_word_rule_returns_zero (year_now : Z) :
  _find_budget (U "0 usd") = Ok (Budget (Some 0%Z) (Some (U "USD")) None)
  ∧ budget_of (parse_trip_request year_now (U "0 usd"))
    = Ok (Budget (Some 0%Z) (Some (U "USD")) None)
  ∧ _find_budget (U "$0") = Ok (Budget None None None)
  ∧ _find_budget (U "budget 0") = Ok (Budget None None None).
Proof. repeat split; vm_compute; reflexivity. Qed.

(** C6. "$3k" and "3,000 usd" both give amount 3000 in USD: the trailing
    "k" multiplies by 1000 and the thousands separator is dropped. *)
Theorem budget_3k_and_3000_usd (year_now : Z) :
  budget_of (parse_trip_request year_now (U "$3k"))
  = Ok (Budget (Some 3000%Z) (Some (U "USD")) None)
  ∧ budget_of (parse_trip_request year_now (U "3,000 usd"))
    = Ok (Budget (Some 3000%Z) (Some (U "USD")) None)
  ∧ _find_budget (U "$3k") = Ok (Budget (Some 3000%Z) (Some (U "USD")) None)
  ∧ _find_budget (U "3,000 usd") = Ok (Budget (Some 3000%Z) (Some (U "USD")) None)
  ∧ _normalize_budget_number (U "3k") = Ok 3000%Z
  ∧ _normalize_budget_number (U "3,000 ") = Ok 3000%Z.
Proof. repeat split; vm_compute; reflexivity. Qed.

(** ** The orchestrator *)

(** C5. A request with a dollar sign followed by a 310-digit number makes
    [parse_trip_request] raise [OverflowError]: the number is too large
    for a float, [float] returns infinity, and [int] of infinity is not
    the [ValueError] that [_normalize_budget_number] catches. *)
Theorem parse_trip_request_can_raise (year_now : Z) :
  parse_trip_request year_now (U "$1" ++ repeat (code "0") 309) = Raise OverflowError.
Proof. vm_compute. reflexivity. Qed.

(** ** Reasoning about results *)

Lemma bind_Ok {A B : Type} (r : result A) (f : A → result B) (b : B) :
  r ≫= f = Ok b → ∃ a, r = Ok a ∧ f a = Ok b.
Proof. destruct r as [a | e]; simpl; [eauto | discriminate]. Qed.

Lemma except_ValueError_Ok {A : Type} (body : result A) (handler a : A) :
  except_ValueError body handler = Ok a → body = Ok a ∨ a = handler.
Proof.
  destruct body as [x | []]; simpl; intros H; try discriminate;
    injection H as <-; auto.
Qed.

(** Takes a hypothesis [r ≫= f = Ok b] apart, as far as it goes. *)
Ltac ok_inv H :=
  repeat match type of H with
    | _ ≫= _ = Ok _ =>
        let a := fresh "a" in
        let Ha := fresh "Ha" in
        apply bind_Ok in H as (a & Ha & H)
    end.

(** ** Date windows, for every request *)

Lemma date_pair_shape (out w : window_t) (sy sm sd ey em ed : Z) :
  w_month out = None →
  date_pair out sy sm sd ey em ed = Ok (Some w) → window_shape w.
Proof.
  intros Hout H. unfold date_pair in H.
  apply except_ValueError_Ok in H as [H | H]; [| discriminate].
  ok_inv H. injection H as <-. right. rewrite Hout. simpl. by do 2 eexists.
Qed.

Lemma window_pat1_shape (year_now : Z) (T : str) (out w : window_t) :
  w_month out = None →
  window_pat1 year_now T out = Ok (Some w) → window_shape w.
Proof.
  intros Hout H. unfold window_pat1 in H.
  destruct (search true pat1 T) as [m |]; [| discriminate].
  ok_inv H.
  destruct (_mon_num a) as [sm |]; [| discriminate].
  destruct (if_str (group m 4) _mon_num (Some sm)) as [em |]; [| discriminate].
  destruct (negb (sm =? 0)%Z && negb (em =? 0)%Z); [| discriminate].
  ok_inv H. by eapply date_pair_shape; [| exact H].
Qed.

Lemma window_pat2_shape (year_now : Z) (T : str) (out w : window_t) :
  w_month out = None →
  window_pat2 year_now T out = Ok (Some w) → window_shape w.
Proof.
  intros Hout H. unfold window_pat2 in H.
  destruct (search true pat2 T) as [m |]; [| discriminate].
  ok_inv H.
  destruct (_mon_num a1) as [mm |]; [| discriminate].
  destruct (negb (mm =? 0)%Z); [| discriminate].
  ok_inv H. by eapply date_pair_shape; [| exact H].
Qed.

Lemma window_pat3_shape (year_now : Z) (T : str) (out w : window_t) :
  w_month out = None →
  window_pat3 year_now T out = Ok (Some w) → window_shape w.
Proof.
  intros Hout H. unfold window_pat3 in H.
  destruct (search true pat3 T) as [m |]; [| discriminate].
  ok_inv H.
  destruct (_mon_num a) as [mm |]; [| discriminate].
  destruct (negb (mm =? 0)%Z); [| discriminate].
  ok_inv H. by eapply date_pair_shape; [| exact H].
Qed.

Lemma window_plain_month_shape (T : str) (out w : window_t) :
  w_start_date out = None → w_end_date out = None →
  window_plain_month T out = Ok (Some w) → window_shape w.
Proof.
  intros Hs He H. unfold window_plain_month in H.
  destruct (search false plain_month_re T) as [m |]; [| discriminate].
  ok_inv H.
  destruct (py_or _ _) as [n |]; [| discriminate].
  destruct (negb (n =? 0)%Z); [| discriminate].
  injection H as <-. left. auto.
Qed.

Lemma _find_month_or_window_shape (year_now : Z) (text : str) (w : window_t) :
  _find_month_or_window year_now text = Ok w → window_shape w.
Proof.
  intros H. unfold _find_month_or_window in H.
  destruct (search false iso_re text) as [iso |].
  { ok_inv H. injection H as <-. right. simpl. by do 2 eexists. }
  ok_inv H. destruct a as [w1 |].
  { injection H as <-. by eapply window_pat1_shape; [| exact Ha]. }
  ok_inv H. destruct a as [w2 |].
  { injection H as <-. by eapply window_pat2_shape; [| exact Ha0]. }
  ok_inv H. destruct a as [w3 |].
  { injection H as <-. by eapply window_pat3_shape; [| exact Ha1]. }
  ok_inv H. destruct a as [w4 |].
  { injection H as <-. by eapply window_plain_month_shape; [| | exact Ha2]. }
  injection H as <-. left. auto.
Qed.

(** What [parse_trip_request] copies from the extractors. *)
Lemma parse_trip_request_fields (year_now : Z) (text : str) (r : response) :
  parse_trip_request year_now text = Ok r →
  status r = U "success"
  ∧ notes (spec r) = strip text
  ∧ interests (spec r) = _find_interests (strip text)
  ∧ constraints (spec r) = _find_constraints (strip text)
  ∧ _find_budget (strip text) = Ok (budget (spec r))
  ∧ _find_month_or_window year_now (strip text)
    = Ok (Window (start_date (spec r)) (end_date (spec r)) (month (spec r))).
Proof.
  intros H. unfold parse_trip_request in H. ok_inv H. injection H as <-. simpl.
  repeat split; try reflexivity.
  - rewrite Ha4. by destruct a4.
  - rewrite Ha1. by destruct a1.
Qed.

(** C9. In every answer the start and end dates are both present or both
    absent, and when they are present the month is absent; the same holds
    of what the date-window resolver returns. *)
Theorem dates_paired_and_exclusive_with_month (year_now : Z) (text : str) :
  match window_of (parse_trip_request year_now text) with
  | Ok w => window_shape w
  | Raise _ => True
  end
  ∧ match _find_month_or_window year_now text with
    | Ok w => window_shape w
    | Raise _ => True
    end.
Proof.
  split.
  - destruct (parse_trip_request year_now text) as [r | e] eqn:H; simpl; [| exact I].
    apply parse_trip_request_fields in H as (_ & _ & _ & _ & _ & H).
    eauto using _find_month_or_window_shape.
  - destruct (_find_month_or_window year_now text) as [w | e] eqn:H; [| exact I].
    eauto using _find_month_or_window_shape.
Qed.

(** ** Interests *)

Lemma str_leb_refl (a : str) : str_leb a a = true.
Proof. induction a as [| x a IH]; simpl; [done |]. by rewrite N.ltb_irrefl, N.eqb_refl. Qed.

Lemma str_leb_total (a b : str) : str_leb a b = true ∨ str_leb b a = true.
Proof.
  revert b. induction a as [| x a IH]; intros [| y b]; simpl; auto.
  destruct (N.ltb_spec x y), (N.ltb_spec y x), (N.eqb_spec x y), (N.eqb_spec y x);
    auto; lia.
Qed.

Lemma str_leb_trans (a b c : str) :
  str_leb a b = true → str_leb b c = true → str_leb a c = true.
Proof.
  revert b c. induction a as [| x a IH]; intros [| y b] [| z c]; simpl; try done.
  destruct (N.ltb_spec x y), (N.ltb_spec y z), (N.ltb_spec x z),
    (N.eqb_spec x y), (N.eqb_spec y z), (N.eqb_spec x z);
    try done; try lia; eauto.
Qed.

Lemma str_leb_antisym (a b : str) :
  str_leb a b = true → str_leb b a = true → a = b.
Proof.
  revert b. induction a as [| x a IH]; intros [| y b]; simpl; try done.
  destruct (N.ltb_spec x y), (N.ltb_spec y x), (N.eqb_spec x y), (N.eqb_spec y x);
    try done; try lia.
  intros. subst. f_equal. auto.
Qed.

#[global] Instance str_le_total : Total str_le.
Proof. intros a b. unfold str_le. destruct (str_leb_total a b) as [-> | ->]; simpl; auto. Qed.

#[global] Instance str_le_trans : Transitive str_le.
Proof.
  intros a b c Hab Hbc. unfold str_le in *.
  apply Is_true_true. apply Is_true_true in Hab, Hbc. eauto using str_leb_trans.
Qed.

#[global] Instance str_le_antisym : AntiSymm (=) str_le.
Proof.
  intros a b Hab Hba. unfold str_le in *.
  apply Is_true_true in Hab, Hba. eauto using str_leb_antisym.
Qed.

(** A sorted list without duplicates is strictly sorted. *)
Lemma StronglySorted_strict (l : list str) :
  StronglySorted str_le l → NoDup l → StronglySorted str_lt l.
Proof.
  induction 1 as [| x l Hl IH Hx]; intros Hnd; [constructor |].
  apply NoDup_cons in Hnd as [Hx' Hnd]. constructor; [auto |].
  apply Forall_forall. intros y Hy. split.
  - by eapply Forall_forall in Hx.
  - intros ->. auto.
Qed.

Lemma sorted_strict (hits : gset str) : StronglySorted str_lt (sorted hits).
Proof.
  apply StronglySorted_strict.
  - apply StronglySorted_merge_sort; apply _.
  - unfold sorted. rewrite merge_sort_Permutation. apply NoDup_elements.
Qed.

Lemma sorted_elem_of (hits : gset str) (t : str) : t ∈ sorted hits ↔ t ∈ hits.
Proof. unfold sorted. by rewrite merge_sort_Permutation, elem_of_elements. Qed.

(** The loop only ever adds keys of the dictionary it runs over. *)
Lemma hits_from_keys (text : str) (kw : list (str * list str)) (acc : gset str) (t : str) :
  t ∈ foldl (fun hits '(tag, words) =>
               if existsb (fun w => is_match (search true (interest_re w) text)) words
               then {[ tag ]} ∪ hits
               else hits) acc kw →
  t ∈ acc ∨ t ∈ map fst kw.
Proof.
  revert acc. induction kw as [| [tag_ words] kw IH]; intros acc; simpl; [auto |].
  intros H. rewrite elem_of_cons. apply IH in H as [H | H]; [| auto].
  destruct (existsb _ words); [| auto].
  apply elem_of_union in H as [H | H]; [| auto].
  apply elem_of_singleton in H. auto.
Qed.

(** C10. The interests of every answer are strictly ascending (so sorted
    and free of duplicates) and all belong to the nine-tag vocabulary. *)
Theorem interests_sorted_unique_in_vocabulary (year_now : Z) (text : str) :
  interests_ok (_find_interests text)
  ∧ match parse_trip_request year_now text with
    | Ok r => interests_ok (interests (spec r))
    | Raise _ => True
    end.
Proof.
  assert (Hall : ∀ t, interests_ok (_find_interests t)).
  { intros t. unfold interests_ok, _find_interests. split; [apply sorted_strict |].
    split.
    - unfold sorted. rewrite merge_sort_Permutation. apply NoDup_elements.
    - apply Forall_forall. intros x Hx. apply sorted_elem_of in Hx.
      apply hits_from_keys in Hx as [Hx | Hx]; [| exact Hx].
      by apply not_elem_of_empty in Hx. }
  split; [apply Hall |].
  destruct (parse_trip_request year_now text) as [r | e] eqn:H; [| exact I].
  apply parse_trip_request_fields in H as (_ & _ & -> & _). apply Hall.
Qed.

(** With several trigger words of one category the tag still appears once. *)
Example interests_one_tag_per_category :
  _find_interests (U "Museums? A museum, an art gallery, street food and hiking in the park")
  = [U "art"; U "food"; U "nature"].
Proof. vm_compute. reflexivity. Qed.

(** * Further properties of the extractors *)

(** ** Constraints *)

Lemma dedup_spec (cs : list str) :
  ∀ seen : gset str,
    NoDup (map lower (dedup seen cs))
    ∧ (∀ c, c ∈ dedup seen cs → lower c ∉ seen)
    ∧ dedup seen cs `sublist_of` cs
    ∧ (∀ c, c ∈ cs → lower c ∈ seen ∨ lower c ∈ map lower (dedup seen cs)).
Proof.
  induction cs as [| c cs IH]; intros seen; simpl.
  - split; [apply NoDup_nil_2 |]. split; [| split; [constructor |]];
      intros c H; by apply elem_of_nil in H.
  - destruct (decide (lower c ∈ seen)) as [Hin | Hout].
    + destruct (IH seen) as (Hnd & Hseen & Hsub & Hcov).
      repeat split; [done | done | by apply sublist_cons |].
      intros x Hx. apply elem_of_cons in Hx as [-> | Hx]; auto.
    + destruct (IH ({[lower c]} ∪ seen)) as (Hnd & Hseen & Hsub & Hcov).
      repeat split.
      * simpl. apply NoDup_cons. split; [| done].
        intros Hc. apply list_elem_of_fmap in Hc as (x & Hx1 & Hx2).
        apply Hseen in Hx2. apply Hx2. rewrite <- Hx1.
        apply elem_of_union. left. by apply elem_of_singleton.
      * intros x Hx. apply elem_of_cons in Hx as [-> | Hx]; [done |].
        apply Hseen in Hx. intros Hs. apply Hx. apply elem_of_union. auto.
      * by apply sublist_skip.
      * intros x Hx. simpl. rewrite elem_of_cons.
        apply elem_of_cons in Hx as [-> | Hx]; [auto |].
        destruct (Hcov x Hx) as [H | H]; [| auto].
        apply elem_of_union in H as [H | H]; [| auto].
        apply elem_of_singleton in H. auto.
Qed.

(** The kept entry for a clause is its first occurrence. *)
Lemma dedup_first (cs : list str) :
  ∀ (seen : gset str) (pre post : list str) (c : str),
    cs = pre ++ c :: post →
    lower c ∉ seen → lower c ∉ map lower pre →
    c ∈ dedup seen cs.
Proof.
  induction cs as [| x cs IH]; intros seen pre post c Hcs Hseen Hpre.
  - by destruct pre.
  - destruct pre as [| p pre]; simpl in Hcs; injection Hcs as -> ->; simpl.
    + destruct (decide (lower c ∈ seen)); [done | apply elem_of_cons; auto].
    + simpl in Hpre. apply not_elem_of_cons in Hpre as [Hne Hpre].
      destruct (decide (lower p ∈ seen)).
      * eapply IH; eauto.
      * apply elem_of_cons. right. eapply IH; eauto.
        intros Hs. apply elem_of_union in Hs as [Hs | Hs]; [| done].
        apply elem_of_singleton in Hs. done.
Qed.

(** X1. No two constraints of an answer are equal up to letter case. *)
Theorem constraints_unique_up_to_case (text : str) :
  NoDup (map lower (_find_constraints text)).
Proof. apply (dedup_spec (constraint_candidates text) ∅). Qed.

(** X2. De-duplication only drops clauses and keeps their order; every
    clause found stays represented up to case, and the entry kept for it is
    its first occurrence, in its original spelling. *)
Theorem constraints_keep_first_occurrences (text : str) :
  _find_constraints text `sublist_of` constraint_candidates text
  ∧ (∀ c, c ∈ constraint_candidates text →
          lower c ∈ map lower (_find_constraints text))
  ∧ (∀ pre c post,
        constraint_candidates text = pre ++ c :: post →
        lower c ∉ map lower pre →
        c ∈ _find_constraints text).
Proof.
  destruct (dedup_spec (constraint_candidates text) ∅) as (_ & _ & Hsub & Hcov).
  split; [exact Hsub |]. split.
  - intros c Hc. destruct (Hcov c Hc) as [H | H]; [| exact H].
    by apply not_elem_of_empty in H.
  - intros pre c post Hcs Hpre.
    eapply (dedup_first _ ∅); eauto. apply not_elem_of_empty.
Qed.

(** ** Travelers *)

(** X3. Whatever the request, the resolver reports between 0 and 2
    children: only "family of N" reports any, and it counts at most two. *)
Theorem children_between_0_and_2 (text : str) (t : travelers_t) :
  _find_travelers text = Ok t → (0 <= children t <= 2)%Z.
Proof.
  unfold _find_travelers. intros H.
  destruct (search true family_re text) as [m |].
  { ok_inv H. injection H as <-. simpl. destruct (3 <=? a0)%Z eqn:H3; [| lia].
    apply Z.leb_le in H3. lia. }
  destruct (search true n_people_re text) as [m |].
  { ok_inv H. injection H as <-. simpl. lia. }
  destruct (List.find _ WORD_NUMS) as [[w n] |].
  { injection H as <-. simpl. lia. }
  destruct (search true for_n_re text) as [m |].
  { ok_inv H. injection H as <-. simpl. lia. }
  destruct (is_match _); injection H as <-; simpl; lia.
Qed.

Lemma children_between_0_and_2_witness :
  _find_travelers (U "family of 9") = Ok (Travelers (Some 7%Z) 2)
  ∧ (0 <= 2 <= 2)%Z.
Proof.
  split; [vm_compute; reflexivity |].
  apply (children_between_0_and_2 (U "family of 9") (Travelers (Some 7%Z) 2)).
  vm_compute. reflexivity.
Defined.

(** ** Budget *)

Lemma budget_by_sign_shape (text : str) (signs : list (str * str)) (b : budget_t) :
  budget_by_sign signs text = Ok (Some b) →
  ∃ a c, b = Budget (Some a) (Some c) None ∧ a ≠ 0%Z ∧ c ∈ map snd signs.
Proof.
  induction signs as [| [sign code_] signs IH]; simpl; [discriminate |].
  intros H.
  assert (Hrec : budget_by_sign signs text = Ok (Some b) →
                 ∃ a c, b = Budget (Some a) (Some c) None ∧ a ≠ 0%Z
                        ∧ c ∈ code_ :: map snd signs).
  { intros H'. destruct (IH H') as (a & c & ? & ? & ?). exists a, c.
    repeat split; [done | done | by apply list_elem_of_further]. }
  destruct (search true (sign_re sign) text) as [m |]; [| auto].
  ok_inv H. destruct (truthy (strip a)); [| auto].
  ok_inv H. destruct (a0 =? 0)%Z eqn:Hz; simpl in H; [auto |].
  injection H as <-. exists a0, code_. apply Z.eqb_neq in Hz.
  repeat split; [done | apply list_elem_of_here].
Qed.

Lemma budget_band_shape (text : str) :
  ∃ t, budget_band text = Budget None None t
       ∧ (t = None ∨ ∃ name, t = Some name ∧ name ∈ budget_tags).
Proof.
  unfold budget_band, budget_tags.
  destruct (is_match _); [eexists; split; [done |]; right; eexists; split; [done |] |].
  { apply list_elem_of_here. }
  destruct (is_match _); [eexists; split; [done |]; right; eexists; split; [done |] |].
  { apply list_elem_of_further, list_elem_of_here. }
  destruct (is_match _); [eexists; split; [done |]; right; eexists; split; [done |] |].
  { do 2 apply list_elem_of_further. apply list_elem_of_here. }
  eexists; split; [done |]. by left.
Qed.

Lemma CURRENCY_WORDS_codes (k c : str) :
  dict_get CURRENCY_WORDS k = Some c → c ∈ currency_codes.
Proof.
  unfold CURRENCY_WORDS. simpl.
  repeat (case_bool_decide; [intros [= <-]; by apply (bool_decide_unpack _) |]).
  discriminate.
Qed.

(** X4. A budget is either an amount with a currency code and no tag, the
    code being one of the eight the tables know, or no amount and no
    currency, with at most one of the three tier tags. *)
Theorem budget_amount_or_tag (text : str) (b : budget_t) :
  _find_budget text = Ok b →
  (∃ a c, b = Budget (Some a) (Some c) None ∧ c ∈ currency_codes)
  ∨ (∃ t, b = Budget None None t
          ∧ (t = None ∨ ∃ name, t = Some name ∧ name ∈ budget_tags)).
Proof.
  unfold _find_budget. intros H. ok_inv H. destruct a as [b1 |].
  { injection H as <-. apply budget_by_sign_shape in Ha as (a & c & -> & _ & Hc).
    left. exists a, c. split; [done |].
    exact Hc. }
  destruct (search true currency_word_re text) as [m |].
  { ok_inv H. injection H as <-. left.
    exists a0, (default (U "USD") (dict_get CURRENCY_WORDS (lower a1))).
    split; [reflexivity |].
    destruct (dict_get CURRENCY_WORDS (lower a1)) as [c |] eqn:Hc; simpl.
    - by eapply CURRENCY_WORDS_codes.
    - by apply (bool_decide_unpack _). }
  destruct (search true budget_number_re text) as [m |].
  - ok_inv H. destruct (a0 =? 0)%Z; simpl in H; injection H as <-.
    + right. apply budget_band_shape.
    + left. exists a0, (U "USD"). split; [reflexivity |]. by apply (bool_decide_unpack _).
  - injection H as <-. right. apply budget_band_shape.
Qed.

Lemma budget_amount_or_tag_witness :
  _find_budget (U "a cheap trip") = Ok (Budget None None (Some (U "budget-friendly")))
  ∧ ((∃ a c, Budget None None (Some (U "budget-friendly")) = Budget (Some a) (Some c) None
             ∧ c ∈ currency_codes)
     ∨ (∃ t, Budget None None (Some (U "budget-friendly")) = Budget None None t
             ∧ (t = None ∨ ∃ name, t = Some name ∧ name ∈ budget_tags))).
Proof.
  split; [vm_compute; reflexivity |].
  apply (budget_amount_or_tag (U "a cheap trip")). vm_compute. reflexivity.
Defined.

(** ** Months *)

Lemma dict_get_elem_of {V : Type} (d : list (str * V)) (k : str) (v : V) :
  dict_get d k = Some v → (k, v) ∈ d.
Proof.
  induction d as [| [k' v'] d IH]; simpl; [discriminate |].
  case_bool_decide as Hk.
  - intros [= <-]. subst. apply list_elem_of_here.
  - intros H. apply list_elem_of_further. auto.
Qed.

Lemma month_tables_range (k : str) (n : Z) :
  py_or (dict_get MONTHS k) (dict_get MONTH_ABBR (take 3 k)) = Some n →
  (1 <= n <= 12)%Z.
Proof.
  assert (HM : Forall (fun kv => (1 <= kv.2 <= 12)%Z) MONTHS)
    by (apply (bool_decide_unpack _); by vm_compute).
  assert (HA : Forall (fun kv => (1 <= kv.2 <= 12)%Z) MONTH_ABBR)
    by (apply (bool_decide_unpack _); by vm_compute).
  intros H.
  assert (Hor : dict_get MONTHS k = Some n ∨ dict_get MONTH_ABBR (take 3 k) = Some n).
  { unfold py_or in H. destruct (dict_get MONTHS k) as [x |]; [| auto].
    destruct (x =? 0)%Z; auto. }
  destruct Hor as [Hg | Hg]; apply dict_get_elem_of in Hg;
    [eapply Forall_forall in HM | eapply Forall_forall in HA]; eauto; done.
Qed.

Lemma date_new_Ok (y m d : Z) (dt : date) :
  date_new y m d = Ok dt →
  dt = Date y m d
  ∧ (1 <= y <= 9999)%Z ∧ (1 <= m <= 12)%Z ∧ (1 <= d <= days_in_month y m)%Z.
Proof.
  unfold date_new. intros H.
  destruct (_ && _) eqn:Hc in H; [| discriminate]. injection H as <-.
  repeat (apply andb_true_iff in Hc as [Hc ?]).
  repeat match goal with H : (_ <=? _)%Z = true |- _ => apply Z.leb_le in H end.
  repeat split; lia.
Qed.

Lemma date_pair_dates (out w : window_t) (sy sm sd ey em ed : Z) :
  date_pair out sy sm sd ey em ed = Ok (Some w) →
  ∃ s e, is_iso_date s ∧ is_iso_date e
         ∧ w = Window (Some s) (Some e) (w_month out).
Proof.
  intros H. unfold date_pair in H.
  apply except_ValueError_Ok in H as [H | H]; [| discriminate].
  ok_inv H. injection H as <-.
  apply date_new_Ok in Ha as (-> & ? & ? & ?).
  apply date_new_Ok in Ha0 as (-> & ? & ? & ?).
  do 2 eexists. split; [| split; [| reflexivity]]; unfold is_iso_date; eauto 10.
Qed.

Lemma window_pat1_dates (year_now : Z) (T : str) (out w : window_t) :
  window_pat1 year_now T out = Ok (Some w) →
  ∃ s e, is_iso_date s ∧ is_iso_date e
         ∧ w = Window (Some s) (Some e) (w_month out).
Proof.
  intros H. unfold window_pat1 in H.
  destruct (search true pat1 T) as [m |]; [| discriminate].
  ok_inv H.
  destruct (_mon_num a) as [sm |]; [| discriminate].
  destruct (if_str (group m 4) _mon_num (Some sm)) as [em |]; [| discriminate].
  destruct (negb (sm =? 0)%Z && negb (em =? 0)%Z); [| discriminate].
  ok_inv H. by eapply date_pair_dates.
Qed.

Lemma window_pat2_dates (year_now : Z) (T : str) (out w : window_t) :
  window_pat2 year_now T out = Ok (Some w) →
  ∃ s e, is_iso_date s ∧ is_iso_date e
         ∧ w = Window (Some s) (Some e) (w_month out).
Proof.
  intros H. unfold window_pat2 in H.
  destruct (search true pat2 T) as [m |]; [| discriminate].
  ok_inv H.
  destruct (_mon_num a1) as [mm |]; [| discriminate].
  destruct (negb (mm =? 0)%Z); [| discriminate].
  ok_inv H. by eapply date_pair_dates.
Qed.

Lemma window_pat3_dates (year_now : Z) (T : str) (out w : window_t) :
  window_pat3 year_now T out = Ok (Some w) →
  ∃ s e, is_iso_date s ∧ is_iso_date e
         ∧ w = Window (Some s) (Some e) (w_month out).
Proof.
  intros H. unfold window_pat3 in H.
  destruct (search true pat3 T) as [m |]; [| discriminate].
  ok_inv H.
  destruct (_mon_num a) as [mm |]; [| discriminate].
  destruct (negb (mm =? 0)%Z); [| discriminate].
  ok_inv H. by eapply date_pair_dates.
Qed.

Lemma window_plain_month_range (T : str) (out w : window_t) :
  window_plain_month T out = Ok (Some w) →
  ∃ n, (1 <= n <= 12)%Z ∧ w = Window (w_start_date out) (w_end_date out) (Some n).
Proof.
  intros H. unfold window_plain_month in H.
  destruct (search false plain_month_re T) as [m |]; [| discriminate].
  ok_inv H.
  destruct (py_or _ _) as [n |] eqn:Hn; [| discriminate].
  destruct (negb (n =? 0)%Z); [| discriminate].
  injection H as <-. apply month_tables_range in Hn. eauto.
Qed.

(** The five ways [_find_month_or_window] can answer. *)
Lemma _find_month_or_window_cases (year_now : Z) (text : str) (w : window_t) :
  _find_month_or_window year_now text = Ok w →
  (∃ iso s e, search false iso_re text = Some iso
              ∧ group iso 1 = Some s ∧ group iso 2 = Some e
              ∧ w = Window (Some s) (Some e) None)
  ∨ (search false iso_re text = None
     ∧ ((∃ s e, is_iso_date s ∧ is_iso_date e ∧ w = Window (Some s) (Some e) None)
        ∨ (∃ n, (1 <= n <= 12)%Z ∧ w = Window None None (Some n))
        ∨ w = Window None None None)).
Proof.
  intros H. unfold _find_month_or_window in H.
  destruct (search false iso_re text) as [iso |].
  { left. ok_inv H. injection H as <-. unfold group_str in *.
    destruct (group iso 1) as [s |] eqn:H1; [| discriminate].
    destruct (group iso 2) as [e |] eqn:H2; [| discriminate].
    injection Ha as <-. injection Ha0 as <-. by exists iso, s, e. }
  right. split; [reflexivity |].
  ok_inv H. destruct a as [w1 |].
  { injection H as <-. apply window_pat1_dates in Ha. by left. }
  ok_inv H. destruct a as [w2 |].
  { injection H as <-. apply window_pat2_dates in Ha0. by left. }
  ok_inv H. destruct a as [w3 |].
  { injection H as <-. apply window_pat3_dates in Ha1. by left. }
  ok_inv H. destruct a as [w4 |].
  { injection H as <-. apply window_plain_month_range in Ha2. right. by left. }
  injection H as <-. right. by right.
Qed.

(** X5. A month, when the resolver reports one, is a number from 1 to 12. *)
Theorem month_between_1_and_12 (year_now : Z) (text : str) (w : window_t) (n : Z) :
  _find_month_or_window year_now text = Ok w →
  w_month w = Some n →
  (1 <= n <= 12)%Z.
Proof.
  intros H Hn.
  apply _find_month_or_window_cases in H
    as [(iso & s & e & _ & _ & _ & ->)
       | (_ & [(s & e & _ & _ & ->) | [(k & Hk & ->) | ->]])];
    simpl in Hn; try discriminate.
  by injection Hn as <-.
Qed.

Lemma month_between_1_and_12_witness :
  _find_month_or_window 2026 (U "in October") = Ok (Window None None (Some 10%Z))
  ∧ (1 <= 10 <= 12)%Z.
Proof.
  split; [vm_compute; reflexivity |].
  apply (month_between_1_and_12 2026 (U "in October") (Window None None (Some 10%Z)));
    vm_compute; reflexivity.
Defined.

(** X6. Outside the ISO pass-through, a start or end date the resolver
    reports is the ISO text of a date that exists in the calendar. *)
Theorem resolved_dates_are_calendar_dates
    (year_now : Z) (text : str) (w : window_t) (s : str) :
  search false iso_re text = None →
  _find_month_or_window year_now text = Ok w →
  w_start_date w = Some s ∨ w_end_date w = Some s →
  is_iso_date s.
Proof.
  intros Hiso H Hs.
  apply _find_month_or_window_cases in H
    as [(iso & ? & ? & Hm & _) | (_ & [(s1 & e1 & Hs1 & He1 & ->) | [(k & Hk & ->) | ->]])].
  - rewrite Hiso in Hm. discriminate.
  - simpl in Hs. destruct Hs as [[= <-] | [= <-]]; done.
  - simpl in Hs. destruct Hs; discriminate.
  - simpl in Hs. destruct Hs; discriminate.
Qed.

Lemma resolved_dates_are_calendar_dates_witness :
  search false iso_re (U "5-15 October 2025") = None
  ∧ _find_month_or_window 2026 (U "5-15 October 2025")
    = Ok (Window (Some (U "2025-10-05")) (Some (U "2025-10-15")) None)
  ∧ is_iso_date (U "2025-10-15").
Proof.
  split; [vm_compute; reflexivity |]. split; [vm_compute; reflexivity |].
  apply (resolved_dates_are_calendar_dates 2026 (U "5-15 October 2025")
           (Window (Some (U "2025-10-05")) (Some (U "2025-10-15")) None));
    [vm_compute; reflexivity | vm_compute; reflexivity | right; reflexivity].
Defined.

(** ** Interests *)

Lemma hits_iff (text : str) (kw : list (str * list str)) (acc : gset str) (t : str) :
  t ∈ foldl (fun hits '(tag, words) =>
               if existsb (fun w => is_match (search true (interest_re w) text)) words
               then {[ tag ]} ∪ hits
               else hits) acc kw
  ↔ t ∈ acc
    ∨ ∃ words w, (t, words) ∈ kw ∧ w ∈ words
                 ∧ is_match (search true (interest_re w) text) = true.
Proof.
  revert acc. induction kw as [| [tag_ words] kw IH]; intros acc; simpl.
  - split; [auto |]. intros [H | (ws & w & H & _)]; [done |]. by apply elem_of_nil in H.
  - rewrite IH. split.
    + intros [H | (ws & w & H & Hw)].
      * destruct (existsb _ words) eqn:He; [| auto].
        apply elem_of_union in H as [H | H]; [| auto].
        apply elem_of_singleton in H as ->.
        apply existsb_exists in He as (w & Hw & Hm).
        right. exists words, w. split; [apply list_elem_of_here |].
        split; [by apply list_elem_of_In | done].
      * right. exists ws, w. split; [by apply list_elem_of_further | done].
    + intros [H | (ws & w & H & Hw & Hm)].
      * left. destruct (existsb _ words); [apply elem_of_union |]; auto.
      * apply elem_of_cons in H as [[= -> ->] | H].
        -- left. replace (existsb _ words) with true.
           ++ apply elem_of_union. left. by apply elem_of_singleton.
           ++ symmetry. apply existsb_exists. exists w.
              split; [by apply list_elem_of_In | done].
        -- right. by exists ws, w.
Qed.

(** A tag is among the interests exactly when the pattern of one of its
    trigger words is found in the request. *)
Lemma interest_tag_iff_match (text t : str) :
  t ∈ _find_interests text
  ↔ ∃ words w, (t, words) ∈ INTEREST_KEYWORDS ∧ w ∈ words
               ∧ is_match (search true (interest_re w) text) = true.
Proof.
  unfold _find_interests. rewrite sorted_elem_of, hits_iff.
  split; [intros [H | H]; [by apply not_elem_of_empty in H | done] | auto].
Qed.

(** ** Months *)

(** X8. Only the first three letters of a token decide its month: the
    answer is the abbreviation table's entry for them, lower-cased, so any
    word that begins like a month is read as that month. *)
Theorem _mon_num_first_three_letters (tok : str) :
  _mon_num tok = dict_get MONTH_ABBR (take 3 (lower tok)).
Proof.
  unfold _mon_num.
  destruct (dict_get MONTHS (lower tok)) as [n |] eqn:E; [| reflexivity].
  apply dict_get_elem_of in E. unfold MONTHS in E.
  repeat (apply elem_of_cons in E as [[= Hk ->] | E]; [by rewrite Hk |]).
  by apply elem_of_nil in E.
Qed.

(** ** Whitespace *)

Lemma lstrip_split (s : str) :
  ∃ sp, s = sp ++ lstrip s ∧ forallb is_space sp = true.
Proof.
  induction s as [| c s (sp & Hs & Hsp)]; simpl; [by exists [] |].
  destruct (is_space c) eqn:Hc.
  - exists (c :: sp). simpl. rewrite Hc, Hsp. split; [by f_equal | done].
  - by exists [].
Qed.

Lemma lstrip_head (s : str) :
  match lstrip s with c :: _ => is_space c = false | [] => True end.
Proof.
  induction s as [| c s IH]; simpl; [done |].
  destruct (is_space c) eqn:Hc; [done |]. simpl. done.
Qed.

Lemma lstrip_fixed (s : str) :
  match s with c :: _ => is_space c = false | [] => True end → lstrip s = s.
Proof. destruct s as [| c s]; simpl; [done |]. by intros ->. Qed.

Lemma strip_head (s : str) :
  match strip s with c :: _ => is_space c = false | [] => True end.
Proof.
  unfold strip, rstrip.
  pose proof (lstrip_head s) as Ha.
  destruct (lstrip_split (rev (lstrip s))) as (sp & Hs & Hsp).
  set (a := lstrip s) in *. set (b := lstrip (rev a)) in *.
  assert (Hab : a = rev b ++ rev sp).
  { rewrite <- rev_app_distr, <- Hs. by rewrite rev_involutive. }
  destruct (rev b) as [| c r] eqn:Hrb; [done |].
  rewrite Hab in Ha. exact Ha.
Qed.

Lemma strip_idempotent (s : str) : strip (strip s) = strip s.
Proof.
  pose proof (strip_head s) as Hh.
  unfold strip at 1. rewrite (lstrip_fixed _ Hh).
  unfold strip, rstrip. rewrite rev_involutive.
  rewrite (lstrip_fixed (lstrip _)); [done |]. apply lstrip_head.
Qed.

Lemma strip_no_outer_whitespace (s : str) :
  match strip s with c :: _ => is_space c = false | [] => True end
  ∧ match rev (strip s) with c :: _ => is_space c = false | [] => True end.
Proof.
  split; [apply strip_head |].
  unfold strip, rstrip. rewrite rev_involutive. apply lstrip_head.
Qed.

(** X9. Parsing the notes of an answer gives that answer again: the notes
    are the stripped request, and stripping twice changes nothing. *)
Theorem parse_trip_request_of_notes (year_now : Z) (text : str) (r : response) :
  parse_trip_request year_now text = Ok r →
  parse_trip_request year_now (notes (spec r)) = Ok r.
Proof.
  intros H. pose proof H as Hf.
  apply parse_trip_request_fields in Hf as (_ & -> & _).
  rewrite <- H. unfold parse_trip_request. by rewrite strip_idempotent.
Qed.

Lemma parse_trip_request_of_notes_witness :
  parse_trip_request 2026 (U "  a couple, nonstop  ")
  = Ok (Response (U "success")
          (TripSpec None None None None None None (Travelers (Some 2%Z) 0)
             (Budget None None None) [U "romance"] [U "nonstop"]
             (U "a couple, nonstop")))
  ∧ parse_trip_request 2026 (U "a couple, nonstop")
    = Ok (Response (U "success")
            (TripSpec None None None None None None (Travelers (Some 2%Z) 0)
               (Budget None None None) [U "romance"] [U "nonstop"]
               (U "a couple, nonstop"))).
Proof.
  assert (H : parse_trip_request 2026 (U "  a couple, nonstop  ")
              = Ok (Response (U "success")
                      (TripSpec None None None None None None (Travelers (Some 2%Z) 0)
                         (Budget None None None) [U "romance"] [U "nonstop"]
                         (U "a couple, nonstop"))))
    by (vm_compute; reflexivity).
  split; [exact H |].
  exact (parse_trip_request_of_notes 2026 (U "  a couple, nonstop  ") _ H).
Defined.

Section Section_X4.
Local Open Scope Z_scope.

Lemma log2_times_pow2 (n j : Z) : 0 < n → 0 <= j → Z.log2 (n * 2 ^ j) = Z.log2 n + j.
Proof.
  intros Hn Hj. rewrite <- Z.shiftl_mul_pow2 by done. by rewrite Z.log2_shiftl by lia.
Qed.

(** An integer below [2^53], given as a fraction over a power of two, is
    a binary64 value: rounding does not move it. *)
Lemma round_b64_exact (neg : bool) (n j : Z) :
  0 < n < 2 ^ 53 → 0 <= j →
  round_b64 neg (n * 2 ^ j) (2 ^ j)
  = FNum neg (n * 2 ^ (52 - Z.log2 n)) (Z.log2 n - 52).
Proof.
  intros [Hn Hlt] Hj. unfold round_b64.
  assert (Hp : 0 < 2 ^ j) by (apply Z.pow_pos_nonneg; lia).
  assert (Hl : 0 <= Z.log2 n < 53).
  { split; [apply Z.log2_nonneg |]. apply Z.log2_lt_pow2; lia. }
  replace (n * 2 ^ j =? 0) with false by (symmetry; apply Z.eqb_neq; lia).
  rewrite log2_times_pow2, Z.log2_pow2 by lia.
  replace (Z.log2 n + j - j) with (Z.log2 n) by lia.
  unfold scale2 at 1.
  replace (0 <=? Z.log2 n) with true by (symmetry; apply Z.leb_le; lia).
  assert (Hlo : 2 ^ Z.log2 n <= n) by (apply Z.log2_spec; lia).
  replace (n * 2 ^ j <? 2 ^ j * 2 ^ Z.log2 n) with false
    by (symmetry; apply Z.ltb_ge; nia).
  replace (Z.max (Z.log2 n - 52) (-1074)) with (Z.log2 n - 52) by lia.
  unfold scale2.
  destruct (0 <=? Z.log2 n - 52) eqn:He.
  - apply Z.leb_le in He. assert (Z.log2 n = 52) as -> by lia. simpl (52 - 52).
    rewrite Z.pow_0_r, !Z.mul_1_r.
    rewrite Z.div_mul, Z.mod_mul by lia.
    replace (2 ^ j <? 2 * 0) with false by (symmetry; apply Z.ltb_ge; lia).
    replace (2 ^ j =? 2 * 0) with false by (symmetry; apply Z.eqb_neq; lia).
    simpl. replace (2 ^ 53 <=? n) with false by (symmetry; apply Z.leb_gt; lia).
    reflexivity.
  - apply Z.leb_gt in He.
    replace (- (Z.log2 n - 52)) with (52 - Z.log2 n) by lia.
    replace (n * 2 ^ j * 2 ^ (52 - Z.log2 n)) with (n * 2 ^ (52 - Z.log2 n) * 2 ^ j) by lia.
    rewrite Z.div_mul, Z.mod_mul by lia.
    replace (2 ^ j <? 2 * 0) with false by (symmetry; apply Z.ltb_ge; lia).
    replace (2 ^ j =? 2 * 0) with false by (symmetry; apply Z.eqb_neq; lia).
    simpl.
    replace (971 <? Z.log2 n - 52) with false by (symmetry; apply Z.ltb_ge; lia).
    replace (Z.log2 n - 52 =? 971) with false by (symmetry; apply Z.eqb_neq; lia).
    reflexivity.
Qed.

Lemma int_of_float_exact (neg : bool) (n : Z) :
  0 < n < 2 ^ 53 →
  int_of_float (FNum neg (n * 2 ^ (52 - Z.log2 n)) (Z.log2 n - 52)) = Ok (signed neg n).
Proof.
  intros [Hn Hlt]. unfold int_of_float.
  assert (Hl : 0 <= Z.log2 n < 53).
  { split; [apply Z.log2_nonneg |]. apply Z.log2_lt_pow2; lia. }
  destruct (0 <=? Z.log2 n - 52) eqn:He.
  - apply Z.leb_le in He. assert (Z.log2 n = 52) as -> by lia.
    simpl (52 - 52). rewrite Z.pow_0_r. do 2 f_equal. lia.
  - replace (- (Z.log2 n - 52)) with (52 - Z.log2 n) by lia.
    rewrite Z.div_mul; [done |]. apply Z.pow_nonzero; lia.
Qed.

(** [float(n)] and back, below [2^53]. *)
Lemma int_of_round_b64 (n : Z) :
  0 <= n < 2 ^ 53 → int_of_float (round_b64 false n 1) = Ok n.
Proof.
  intros [Hn Hlt]. destruct (Z.eq_dec n 0) as [-> | Hne]; [reflexivity |].
  pose proof (round_b64_exact false n 0) as H.
  rewrite Z.pow_0_r, Z.mul_1_r in H. rewrite H by lia.
  apply (int_of_float_exact false). lia.
Qed.

(** The product with [1000.0] is exact while it stays below [2^53]. *)
Lemma int_of_times_1000 (n : Z) :
  0 <= n → 1000 * n < 2 ^ 53 →
  int_of_float (fmul (round_b64 false n 1) (float_of_int 1000)) = Ok (1000 * n).
Proof.
  intros Hn Hlt. destruct (Z.eq_dec n 0) as [-> | Hne]; [reflexivity |].
  pose proof (round_b64_exact false n 0) as H.
  rewrite Z.pow_0_r, Z.mul_1_r in H. rewrite H by lia. clear H.
  replace (float_of_int 1000) with (FNum false (1000 * 2 ^ 43) (-43))
    by (vm_compute; reflexivity).
  assert (Hl : 0 <= Z.log2 n < 53).
  { split; [apply Z.log2_nonneg |]. apply Z.log2_lt_pow2; lia. }
  unfold fmul, scale2.
  replace (0 <=? - (Z.log2 n - 52 + -43)) with true by (symmetry; apply Z.leb_le; lia).
  replace (- (Z.log2 n - 52 + -43)) with (95 - Z.log2 n) by lia.
  replace (n * 2 ^ (52 - Z.log2 n) * (1000 * 2 ^ 43))
    with (1000 * n * 2 ^ (95 - Z.log2 n)).
  2:{ replace (95 - Z.log2 n) with ((52 - Z.log2 n) + 43) by lia.
      rewrite Z.pow_add_r by lia. lia. }
  rewrite Z.mul_1_l. simpl (xorb false false).
  rewrite round_b64_exact by lia.
  rewrite (int_of_float_exact false) by lia. reflexivity.
Qed.

End Section_X4.

Lemma is_digit_bounds (c : N) : is_digit c = true ↔ 48 <= c <= 57.
Proof.
  unfold is_digit, between. rewrite andb_true_iff, !N.leb_le. done.
Qed.

(** Settles every comparison in the goal that [lia] can decide. *)
Ltac decide_cmp :=
  repeat match goal with
    | |- context [N.leb ?a ?b] =>
        first [ replace (N.leb a b) with true by (symmetry; apply N.leb_le; lia)
              | replace (N.leb a b) with false by (symmetry; apply N.leb_gt; lia) ]
    | |- context [N.eqb ?a ?b] =>
        first [ replace (N.eqb a b) with true by (symmetry; apply N.eqb_eq; lia)
              | replace (N.eqb a b) with false by (symmetry; apply N.eqb_neq; lia) ]
    end.

Ltac digit_facts :=
  unfold is_space, is_word, is_alpha, is_upper, is_lower, between;
  decide_cmp; try reflexivity.

Lemma digit_not_upper (c : N) : is_digit c = true → is_upper c = false.
Proof. intros H%is_digit_bounds. digit_facts. Qed.

Lemma digit_not_space (c : N) : is_digit c = true → is_space c = false.
Proof. intros H%is_digit_bounds. digit_facts. Qed.

Lemma amount_char_cases (c : N) :
  amount_char c = true → 48 <= c <= 57 ∨ c = 44 ∨ c = 32.
Proof.
  unfold amount_char. rewrite !orb_true_iff, is_digit_bounds, !N.eqb_eq. tauto.
Qed.

Lemma amount_char_lower (c : N) : amount_char c = true → lower_c c = c.
Proof.
  intros H%amount_char_cases. unfold lower_c.
  assert (is_upper c = false) as -> by (destruct H as [? | [-> | ->]]; digit_facts). done.
Qed.

Lemma amount_chars_cleaned (s : str) :
  Forall (fun c => amount_char c = true) s →
  remove_char (code " ") (remove_char (code ",") (lower s)) = List.filter is_digit s.
Proof.
  induction 1 as [| c s Hc Hs IH]; [done |].
  unfold lower in *. cbn [map]. rewrite (amount_char_lower c Hc).
  unfold remove_char in *. cbn [List.filter].
  change (code ",") with 44 in *. change (code " ") with 32 in *.
  destruct (amount_char_cases c Hc) as [Hd | [-> | ->]].
  - assert (is_digit c = true) as -> by (apply is_digit_bounds; lia).
    assert ((c =? 44) = false) as -> by (decide_cmp; reflexivity). cbn [negb List.filter].
    assert ((c =? 32) = false) as -> by (decide_cmp; reflexivity). cbn [negb]. by rewrite IH.
  - exact IH.
  - exact IH.
Qed.

Lemma digit_run_digits (ds : str) (b : bool) :
  Forall (fun c => is_digit c = true) ds →
  digit_run b ds = (map digit_val ds, []).
Proof.
  intros H. revert b. induction H as [| c ds Hc Hds IH]; intros b; [done |].
  cbn [digit_run map]. rewrite Hc, IH. done.
Qed.

Lemma digits_value_nonneg (ds : str) : (0 <= digits_number ds)%Z.
Proof.
  unfold digits_number, digits_value.
  assert (H : ∀ (l : list Z) (a : Z), (0 <= a)%Z → Forall (fun d => 0 <= d)%Z l →
              (0 <= fold_left (fun a d => 10 * a + d) l a)%Z).
  { induction l as [| d l IH]; intros a Ha Hl; [done |].
    apply Forall_cons in Hl as [Hd Hl]. simpl. apply IH; [lia | done]. }
  apply H; [lia |]. apply Forall_forall. intros d Hd.
  apply list_elem_of_fmap in Hd as (c & -> & _). unfold digit_val. lia.
Qed.

Lemma digits_strip (ds : str) :
  Forall (fun c => is_digit c = true) ds → strip ds = ds.
Proof.
  intros H. unfold strip, rstrip.
  assert (Hl : ∀ l : str, Forall (fun c => is_digit c = true) l → lstrip l = l).
  { intros l Hl. apply lstrip_fixed. destruct Hl as [| c l Hc _]; [done |].
    by apply digit_not_space. }
  rewrite (Hl ds H). rewrite Hl; [apply rev_involutive |].
  apply Forall_forall. intros c Hc. apply list_elem_of_In, in_rev, list_elem_of_In in Hc.
  by eapply Forall_forall in H.
Qed.

Lemma float_of_digits (ds : str) :
  ds ≠ [] → Forall (fun c => is_digit c = true) ds →
  float_of_str ds = Ok (round_b64 false (digits_number ds) 1).
Proof.
  intros Hne Hds. unfold float_of_str. rewrite (digits_strip ds Hds).
  destruct ds as [| c ds]; [done |].
  pose proof Hds as Hds'. apply Forall_cons in Hds' as [Hc _].
  assert (Hsign : read_sign (c :: ds) = (false, c :: ds)).
  { apply is_digit_bounds in Hc. unfold read_sign.
    assert ((c =? 45) = false) as -> by (decide_cmp; reflexivity).
    assert ((c =? 43) = false) as -> by (decide_cmp; reflexivity). done. }
  rewrite Hsign.
  assert (Hlow : lower_c c = c).
  { unfold lower_c. by rewrite digit_not_upper. }
  assert (Hw : ∀ w : str, lower (c :: ds) = 105 :: w → False).
  { unfold lower. cbn [map]. rewrite Hlow. intros w [= -> _].
    by apply is_digit_bounds in Hc as [? ?]. }
  assert (Hn : ∀ w : str, lower (c :: ds) = 110 :: w → False).
  { unfold lower. cbn [map]. rewrite Hlow. intros w [= -> _].
    by apply is_digit_bounds in Hc as [? ?]. }
  rewrite !bool_decide_eq_false_2
    by (intros E;
        first [ exact (Hn [97; 110] E) | exact (Hw [110; 102] E)
              | exact (Hw [110; 102; 105; 110; 105; 116; 121] E) ]).
  cbn [orb]. rewrite (digit_run_digits _ _ Hds). cbn [app map].
  rewrite app_nil_r. cbn [read_exponent length Z.of_nat].
  replace (0 - 0)%Z with 0%Z by lia. cbn [Z.leb Z.compare].
  rewrite Z.pow_0_r, Z.mul_1_r. reflexivity.
Qed.

Lemma digits_not_endswith_k (ds : str) :
  Forall (fun c => is_digit c = true) ds → endswith ds (U "k") = false.
Proof.
  intros H. unfold endswith. change (rev (U "k")) with [107].
  destruct (rev ds) as [| c r] eqn:Hr; [done |].
  assert (Hc : is_digit c = true).
  { eapply Forall_forall in H; [exact H |].
    apply list_elem_of_In, in_rev. rewrite Hr. by left. }
  apply is_digit_bounds in Hc.
  cbn [starts_with]. assert ((107 =? c) = false) as -> by (decide_cmp; reflexivity). done.
Qed.

(** X10. A token of digits, commas and blanks is normalized to the integer
    its digits spell, and with a trailing "k" or "K" to a thousand times
    it, exactly, as long as the result stays below 2^53. *)
Theorem normalize_budget_number_exact (s : str) :
  Forall (fun c => amount_char c = true) s →
  List.filter is_digit s ≠ [] →
  let n := digits_number (List.filter is_digit s) in
  ((n < 2 ^ 53)%Z → _normalize_budget_number s = Ok n)
  ∧ ((1000 * n < 2 ^ 53)%Z →
     _normalize_budget_number (s ++ U "k") = Ok (1000 * n)%Z
     ∧ _normalize_budget_number (s ++ U "K") = Ok (1000 * n)%Z).
Proof.
  intros Hs Hne n.
  assert (Hds : Forall (fun c => is_digit c = true) (List.filter is_digit s)).
  { apply Forall_forall. intros c Hc.
    apply list_elem_of_In, filter_In in Hc as [_ Hc]. done. }
  pose proof (digits_value_nonneg (List.filter is_digit s)) as Hn. fold n in Hn.
  split.
  - intros Hlt. unfold _normalize_budget_number.
    rewrite (amount_chars_cleaned s Hs), (digits_not_endswith_k _ Hds).
    rewrite (float_of_digits _ Hne Hds). fold n. cbn [mbind result_bind].
    unfold except_ValueError. by rewrite int_of_round_b64.
  - intros Hlt.
    assert (Hk : ∀ k : N, lower_c k = 107 →
      _normalize_budget_number (s ++ [k]) = Ok (1000 * n)%Z).
    { intros k Hk. unfold _normalize_budget_number.
      assert (Hclean : remove_char (code " ") (remove_char (code ",") (lower (s ++ [k])))
                       = List.filter is_digit s ++ [107]).
      { unfold lower. rewrite map_app. unfold remove_char.
        rewrite !List.filter_app. cbn [map]. rewrite Hk.
        pose proof (amount_chars_cleaned s Hs) as E. unfold lower, remove_char in E.
        rewrite E. reflexivity. }
      rewrite Hclean.
      assert (Hend : endswith (List.filter is_digit s ++ [107]) (U "k") = true).
      { unfold endswith. rewrite rev_app_distr. reflexivity. }
      rewrite Hend, removelast_last.
      rewrite (float_of_digits _ Hne Hds). fold n. cbn [mbind result_bind].
      unfold except_ValueError. by rewrite int_of_times_1000. }
    split; apply Hk; reflexivity.
Qed.

Lemma normalize_budget_number_exact_witness :
  Forall (fun c => amount_char c = true) (U "12,500")
  ∧ List.filter is_digit (U "12,500") ≠ []
  ∧ _normalize_budget_number (U "12,500") = Ok 12500%Z
  ∧ _normalize_budget_number (U "12,500k") = Ok 12500000%Z.
Proof.
  assert (Hs : Forall (fun c => amount_char c = true) (U "12,500"))
    by (apply (bool_decide_unpack _); vm_compute; exact I).
  assert (Hne : List.filter is_digit (U "12,500") ≠ []) by (vm_compute; discriminate).
  split; [exact Hs |]. split; [exact Hne |].
  destruct (normalize_budget_number_exact (U "12,500") Hs Hne) as [H1 H2].
  split; [apply H1; vm_compute; reflexivity |].
  apply H2. vm_compute. reflexivity.
Defined.

(** ** The matcher is sound for the declarative reading *)

Lemma step_char_sound (p : N → bool) (k : mstate → option mstate) (s f : mstate) :
  step_char p k s = Some f → ∃ s', step_rel p s s' ∧ k s' = Some f.
Proof.
  unfold step_char, step_rel. destruct (ms_rest s) as [| c rest]; [discriminate |].
  destruct (p c) eqn:Hp; [| discriminate]. intros H. eauto 10.
Qed.

Lemma or_else_Some {A : Type} (a b : option A) (x : A) :
  or_else a b = Some x → a = Some x ∨ b = Some x.
Proof. destruct a; simpl; auto. Qed.

Lemma rounds_sound (step : (mstate → option mstate) → mstate → option mstate)
    (R : mstate → mstate → Prop) (lo : nat) (hi : option nat) (greedy : bool)
    (k : mstate → option mstate) :
  (∀ k s f, step k s = Some f → ∃ s', R s s' ∧ k s' = Some f) →
  ∀ (fuel done : nat) (s f : mstate),
    hi_ok hi done →
    rounds step lo hi greedy k fuel done s = Some f →
    ∃ n s', iter_rel R n s s' ∧ k s' = Some f
            ∧ (lo <= done + n)%nat ∧ hi_ok hi (done + n).
Proof.
  intros Hstep. induction fuel as [| fuel IH]; intros done s f Hhi H.
  - simpl in H. destruct (done <? lo)%nat eqn:Hlo; [discriminate |].
    apply Nat.ltb_ge in Hlo.
    assert (Hk : k s = Some f).
    { destruct greedy; [exact H |]. by apply or_else_Some in H as [H | H]. }
    exists O, s. rewrite Nat.add_0_r. simpl. auto.
  - cbn [rounds] in H.
    set (more := if match hi with Some h => (h <=? done)%nat | None => false end
                 then None
                 else step (fun s' => if (done <? lo)%nat || (ms_pos s <? ms_pos s')%nat
                                      then rounds step lo hi greedy k fuel (S done) s'
                                      else None) s) in H.
    assert (Hmore : more = Some f →
              ∃ n s', iter_rel R n s s' ∧ k s' = Some f
                      ∧ (lo <= done + n)%nat ∧ hi_ok hi (done + n)).
    { unfold more. intros Hm.
      destruct (match hi with Some h => (h <=? done)%nat | None => false end) eqn:Hb;
        [discriminate |].
      apply Hstep in Hm as (s1 & Hs1 & Hm).
      destruct ((done <? lo)%nat || (ms_pos s <? ms_pos s1)%nat); [| discriminate].
      apply IH in Hm as (n & s' & Hit & Hk & Hn & Hh).
      - exists (S n), s'. replace (done + S n)%nat with (S done + n)%nat by lia.
        simpl. eauto 10.
      - destruct hi as [h |]; simpl in *; [| done]. apply Nat.leb_gt in Hb. lia. }
    destruct (done <? lo)%nat eqn:Hlo; [auto |].
    apply Nat.ltb_ge in Hlo.
    assert (Hk : k s = Some f → ∃ n s', iter_rel R n s s' ∧ k s' = Some f
                      ∧ (lo <= done + n)%nat ∧ hi_ok hi (done + n)).
    { intros Hk. exists O, s. rewrite Nat.add_0_r. simpl. auto. }
    destruct greedy; apply or_else_Some in H as [H | H]; auto.
Qed.

Theorem rmatch_sound (ic : bool) (r : regex) :
  ∀ (k : mstate → option mstate) (s f : mstate),
    rmatch ic r k s = Some f → ∃ s', spans ic r s s' ∧ k s' = Some f.
Proof.
  induction r as [| | p | | negated items | r1 IH1 r2 IH2 | r1 IH1 r2 IH2
                 | lo hi greedy r1 IH1 | idx r1 IH1 | r1 IH1 | |];
    intros k s f H; cbn [rmatch] in H; cbn [spans].
  - eauto.
  - discriminate.
  - by apply step_char_sound.
  - by apply step_char_sound.
  - by apply step_char_sound.
  - apply IH1 in H as (m & Hm & H). apply IH2 in H as (s' & Hs' & H). eauto.
  - apply or_else_Some in H as [H | H]; [apply IH1 in H | apply IH2 in H];
      destruct H as (s' & Hs' & H); eauto.
  - eapply rounds_sound in H as (n & s' & Hit & Hk & Hn & Hh); [| exact IH1 |].
    + exists s'. split; [| done]. exists n. auto.
    + destruct hi; simpl; [lia | done].
  - apply IH1 in H as (m & Hm & H). eauto.
  - destruct (rmatch ic r1 Some s) as [m |] eqn:Hm; [| discriminate].
    apply IH1 in Hm as (m' & Hm' & [= ->]). eauto.
  - destruct (xorb _ _) eqn:Hx; [| discriminate]. eauto.
  - destruct (ms_rest s) as [| c [| c' rest]] eqn:Hr; [eauto | | discriminate].
    destruct (c =? 10) eqn:Hc; [| discriminate]. apply N.eqb_eq in Hc as ->. eauto.
Qed.

(** ** What a match consumes and records *)

Lemma step_rel_consumes (p : N → bool) (s s' : mstate) :
  step_rel p s s' →
  ∃ c, ms_rest s = [c] ++ ms_rest s' ∧ ms_pos s' = (ms_pos s + 1)%nat
       ∧ ms_caps s' = ms_caps s ∧ p c = true.
Proof.
  intros (c & rest & Hr & Hp & ->). exists c. simpl. split_and!; [done | lia | done | done].
Qed.

(** A match consumes a text of the pattern's language, and moves the
    offset by its length. *)
Lemma spans_lang (ic : bool) (r : regex) :
  ∀ s s', spans ic r s s' →
    ∃ w, ms_rest s = w ++ ms_rest s'
         ∧ ms_pos s' = (ms_pos s + length w)%nat ∧ lang ic r w.
Proof.
  induction r as [| | p | | negated items | r1 IH1 r2 IH2 | r1 IH1 r2 IH2
                 | lo hi greedy r1 IH1 | idx r1 IH1 | r1 IH1 | |];
    intros s s' H; cbn [spans] in H; cbn [lang].
  - subst. exists []. simpl. split_and!; [done | lia | done].
  - done.
  - apply step_rel_consumes in H as (c & ? & ? & _ & ?). exists [c]. eauto 10.
  - apply step_rel_consumes in H as (c & ? & ? & _ & ?). exists [c]. eauto 10.
  - apply step_rel_consumes in H as (c & ? & ? & _ & ?). exists [c]. eauto 10.
  - destruct H as (m & H1 & H2).
    apply IH1 in H1 as (w1 & Hr1 & Hp1 & Hl1).
    apply IH2 in H2 as (w2 & Hr2 & Hp2 & Hl2).
    exists (w1 ++ w2). rewrite Hr1, Hr2, Hp2, Hp1, length_app, <- app_assoc.
    split_and!; [done | lia |]. eauto.
  - destruct H as [H | H]; [apply IH1 in H | apply IH2 in H];
      destruct H as (w & ? & ? & ?); exists w; auto.
  - destruct H as (n & Hlo & Hhi & Hit).
    assert (Hiter : ∀ j t, iter_rel (spans ic r1) j t s' →
              ∃ ws, length ws = j ∧ Forall (lang ic r1) ws
                    ∧ ms_rest t = concat ws ++ ms_rest s'
                    ∧ ms_pos s' = (ms_pos t + length (concat ws))%nat).
    { clear Hit. induction j as [| j IHn]; intros t H; simpl in H.
      - subst. exists []. simpl. split_and!; [done | constructor | done | lia].
      - destruct H as (m & Hm & H). apply IH1 in Hm as (w & Hr & Hp & Hl).
        apply IHn in H as (ws & Hlen & Hall & Hr' & Hp').
        exists (w :: ws). simpl. rewrite Hr, Hr', Hp', Hp, length_app, <- app_assoc.
        split_and!; [lia | by constructor | done | lia]. }
    apply Hiter in Hit as (ws & Hlen & Hall & Hr & Hp). subst n.
    exists (concat ws). split_and!; [done | done |]. eauto 10.
  - destruct H as (m & H & ->). apply IH1 in H as (w & ? & ? & ?).
    exists w. simpl. auto.
  - destruct H as (m & H & ->). exists []. simpl. split_and!; [done | lia | done].
  - destruct H as [_ ->]. exists []. simpl. split_and!; [done | lia | done].
  - destruct H as [_ ->]. exists []. simpl. split_and!; [done | lia | done].
Qed.

Lemma wf_slice (text : str) (s s' : mstate) (w : str) :
  wf text s → ms_rest s = w ++ ms_rest s' →
  ms_pos s' = (ms_pos s + length w)%nat →
  wf text s' ∧ slice text (ms_pos s) (ms_pos s') = w.
Proof.
  unfold wf, slice. intros Hwf Hr Hp. rewrite Hp, Hwf in *. split.
  - rewrite <- drop_drop, Hr. by rewrite drop_app_length.
  - replace (ms_pos s + length w - ms_pos s)%nat with (length w) by lia.
    rewrite Hr. by rewrite take_app_length.
Qed.

(** Matching keeps the state on the text and records, for each group it
    closes, a span that the group's body matches. *)
Lemma spans_caps (ic : bool) (text : str) (G : list (nat * regex)) (r : regex) :
  ∀ s s', spans ic r s s' →
    groups_of r ⊆ G → wf text s → caps_in ic text G (ms_caps s) →
    wf text s' ∧ caps_in ic text G (ms_caps s').
Proof.
  induction r as [| | p | | negated items | r1 IH1 r2 IH2 | r1 IH1 r2 IH2
                 | lo hi greedy r1 IH1 | idx r1 IH1 | r1 IH1 | |];
    intros s s' H HG Hwf Hcaps; cbn [spans] in H; cbn [groups_of] in HG.
  - by subst.
  - done.
  - pose proof (spans_lang ic (RLit p) s s' H) as (w & Hr & Hp & _).
    destruct H as (c & rest & _ & _ & ->).
    split; [by eapply wf_slice | done].
  - pose proof (spans_lang ic RAny s s' H) as (w & Hr & Hp & _).
    destruct H as (c & rest & _ & _ & ->).
    split; [by eapply wf_slice | done].
  - pose proof (spans_lang ic (RSet negated items) s s' H) as (w & Hr & Hp & _).
    destruct H as (c & rest & _ & _ & ->).
    split; [by eapply wf_slice | done].
  - destruct H as (m & H1 & H2).
    apply IH1 in H1 as [Hwf1 Hc1]; [| | done | done].
    2: { intros x Hx. apply HG, elem_of_app. by left. }
    apply IH2 in H2; [done | | done | done].
    intros x Hx. apply HG, elem_of_app. by right.
  - destruct H as [H | H]; [apply IH1 in H | apply IH2 in H]; try done;
      intros x Hx; apply HG, elem_of_app; [by left | by right].
  - destruct H as (n & _ & _ & Hit). revert s Hwf Hcaps Hit.
    induction n as [| n IHn]; intros s Hwf Hcaps Hit; simpl in Hit; [by subst |].
    destruct Hit as (m & Hm & Hit). apply IH1 in Hm as [Hwf1 Hc1]; [| done..].
    by eapply IHn.
  - destruct H as (m & H & ->).
    pose proof (spans_lang ic r1 s m H) as (w & Hr & Hp & Hl).
    destruct (wf_slice text s m w Hwf Hr Hp) as [Hwfm Hsl].
    apply IH1 in H as [_ Hc1]; [| | done | done].
    2: { intros x Hx. by apply HG, list_elem_of_further. }
    split; [exact Hwfm |]. intros i a b Hin. simpl in Hin.
    apply elem_of_cons in Hin as [[= -> -> ->] | Hin]; [| by apply Hc1].
    exists r1. split; [apply HG, list_elem_of_here |]. by rewrite Hsl.
  - destruct H as (m & H & ->).
    apply IH1 in H as [_ Hc1]; [| done..]. split; [exact Hwf | exact Hc1].
  - by destruct H as [_ ->].
  - by destruct H as [_ ->].
Qed.

Lemma cap_lookup_cons (idx i : nat) (span : nat * nat) (caps : list (nat * (nat * nat))) :
  is_Some (cap_lookup idx caps) → is_Some (cap_lookup idx ((i, span) :: caps)).
Proof. simpl. destruct (i =? idx)%nat; eauto. Qed.

(** Matching never forgets a group, and closes the groups it must. *)
Lemma spans_keeps (ic : bool) (idx : nat) (r : regex) :
  ∀ s s', spans ic r s s' →
    is_Some (cap_lookup idx (ms_caps s)) → is_Some (cap_lookup idx (ms_caps s')).
Proof.
  induction r as [| | p | | negated items | r1 IH1 r2 IH2 | r1 IH1 r2 IH2
                 | lo hi greedy r1 IH1 | i r1 IH1 | r1 IH1 | |];
    intros s s' H Hs; cbn [spans] in H.
  - by subst.
  - done.
  - by destruct H as (c & rest & _ & _ & ->).
  - by destruct H as (c & rest & _ & _ & ->).
  - by destruct H as (c & rest & _ & _ & ->).
  - destruct H as (m & H1 & H2). eauto.
  - destruct H as [H | H]; eauto.
  - destruct H as (n & _ & _ & Hit). revert s Hs Hit.
    induction n as [| n IHn]; intros s Hs Hit; simpl in Hit; [by subst |].
    destruct Hit as (m & Hm & Hit). eauto.
  - destruct H as (m & H & ->). simpl. apply cap_lookup_cons. eauto.
  - destruct H as (m & H & ->). simpl. eauto.
  - by destruct H as [_ ->].
  - by destruct H as [_ ->].
Qed.

Lemma spans_sets (ic : bool) (idx : nat) (r : regex) :
  ∀ s s', spans ic r s s' → sets idx r = true →
    is_Some (cap_lookup idx (ms_caps s')).
Proof.
  induction r as [| | p | | negated items | r1 IH1 r2 IH2 | r1 IH1 r2 IH2
                 | lo hi greedy r1 IH1 | i r1 IH1 | r1 IH1 | |];
    intros s s' H Hs; cbn [spans] in H; cbn [sets] in Hs; try discriminate.
  - destruct H as (m & H1 & H2). apply orb_true_iff in Hs as [Hs | Hs].
    + eapply spans_keeps; eauto.
    + eauto.
  - apply andb_true_iff in Hs as [Hs1 Hs2]. destruct H as [H | H]; eauto.
  - apply andb_true_iff in Hs as [Hlo Hs]. apply Nat.leb_le in Hlo.
    destruct H as (n & Hn & _ & Hit). destruct n as [| n]; [lia |].
    simpl in Hit. destruct Hit as (m & Hm & Hit).
    apply IH1 in Hm; [| done]. clear Hn. revert m Hm Hit.
    induction n as [| n IHn]; intros m Hm Hit; simpl in Hit; [by subst |].
    destruct Hit as (m' & Hm' & Hit). eapply IHn; [| exact Hit].
    eapply spans_keeps; eauto.
  - destruct H as (m & H & ->). simpl.
    destruct (i =? idx)%nat eqn:Hi; [eauto |]. simpl in Hs. eauto.
  - destruct H as (m & H & ->). simpl. eauto.
Qed.

(** ** [re.search] *)

Lemma search_at_sound (ic : bool) (r : regex) (text : str) :
  ∀ (rest : str) (pos : nat) (prev : option N) (i : nat) (s' : mstate),
    rest = drop pos text →
    search_at ic r pos prev rest = Some (i, s') →
    ∃ prev', spans ic r (MState i prev' (drop i text) []) s'.
Proof.
  induction rest as [| c rest IH]; intros pos prev i s' Hrest H; cbn [search_at] in H.
  - destruct (rmatch ic r Some _) as [f |] eqn:Hm; [| discriminate].
    injection H as <- <-. apply rmatch_sound in Hm as (s1 & Hs1 & [= ->]).
    rewrite Hrest in Hs1. eauto.
  - destruct (rmatch ic r Some _) as [f |] eqn:Hm.
    + injection H as <- <-. apply rmatch_sound in Hm as (s1 & Hs1 & [= ->]).
      rewrite Hrest in Hs1. eauto.
    + eapply IH; [| exact H].
      rewrite <- Nat.add_1_r, <- drop_drop, <- Hrest. done.
Qed.

Lemma cap_lookup_elem_of (idx : nat) (caps : list (nat * (nat * nat))) (i j : nat) :
  cap_lookup idx caps = Some (i, j) → (idx, (i, j)) ∈ caps.
Proof.
  induction caps as [| [k span] caps IH]; simpl; [discriminate |].
  destruct (k =? idx)%nat eqn:Hk.
  - apply Nat.eqb_eq in Hk as ->. intros [= ->]. apply list_elem_of_here.
  - intros H. apply list_elem_of_further. auto.
Qed.

(** What [re.search] promises about the match it returns: the matched text
    is in the pattern's language, the text of a group is in the language of
    the group's body, and the groups every match closes are there. *)
Theorem search_sound (ic : bool) (r : regex) (text : str) (m : match_obj) :
  search ic r text = Some m →
  lang ic r (group0 m)
  ∧ (∀ idx g, group m idx = Some g →
        ∃ r1, (idx, r1) ∈ groups_of r ∧ lang ic r1 g)
  ∧ (∀ idx, sets idx r = true → is_Some (group m idx)).
Proof.
  unfold search. intros H.
  destruct (search_at ic r 0 None text) as [[i s'] |] eqn:Hs; [| discriminate].
  injection H as <-.
  apply (search_at_sound ic r text) in Hs as (prev' & Hs); [| done].
  set (s0 := MState i prev' (drop i text) []) in *.
  assert (Hwf : wf text s0) by done.
  pose proof (spans_lang ic r s0 s' Hs) as (w & Hr & Hp & Hl).
  destruct (wf_slice text s0 s' w Hwf Hr Hp) as [_ Hsl].
  assert (Hc0 : caps_in ic text (groups_of r) (ms_caps s0)).
  { intros idx a b Hin. by apply elem_of_nil in Hin. }
  destruct (spans_caps ic text (groups_of r) r s0 s' Hs) as [_ Hcaps]; try done.
  split; [| split].
  - unfold group0. subst s0. simpl in *. by rewrite Hsl.
  - intros idx g Hg. unfold group in Hg. simpl in Hg.
    destruct (cap_lookup idx (ms_caps s')) as [[a b] |] eqn:Hl'; [| discriminate].
    injection Hg as <-. apply cap_lookup_elem_of in Hl'. by apply Hcaps.
  - intros idx Hset. unfold group. simpl.
    destruct (spans_sets ic idx r s0 s' Hs Hset) as [[a b] ->]. eauto.
Qed.

(** ** Reading facts off a language *)

Lemma lang_leaves (ic : bool) (p : N → bool) (r : regex) :
  ∀ w, leaves ic p r → lang ic r w → Forall (fun c => p c = true) w.
Proof.
  induction r as [| | x | | negated items | r1 IH1 r2 IH2 | r1 IH1 r2 IH2
                 | lo hi greedy r1 IH1 | idx r1 IH1 | r1 IH1 | |];
    intros w Hp H; cbn [lang] in H; cbn [leaves] in Hp; subst; try done.
  - destruct H as (c & -> & Hc). repeat constructor. auto.
  - destruct H as (c & -> & Hc). repeat constructor. auto.
  - destruct H as (c & -> & Hc). repeat constructor. auto.
  - destruct Hp as [Hp1 Hp2]. destruct H as (w1 & w2 & -> & H1 & H2).
    apply Forall_app. auto.
  - destruct Hp as [Hp1 Hp2]. destruct H as [H | H]; auto.
  - destruct H as (ws & -> & Hall & _). apply Forall_concat.
    eapply Forall_impl; [exact Hall |]. simpl. auto.
  - auto.
Qed.

Lemma lang_nonnull (ic : bool) (r : regex) :
  ∀ w, nonnull r = true → lang ic r w → w ≠ [].
Proof.
  induction r as [| | x | | negated items | r1 IH1 r2 IH2 | r1 IH1 r2 IH2
                 | lo hi greedy r1 IH1 | idx r1 IH1 | r1 IH1 | |];
    intros w Hn H; cbn [lang] in H; cbn [nonnull] in Hn; try discriminate; try done.
  - by destruct H as (c & -> & _).
  - by destruct H as (c & -> & _).
  - by destruct H as (c & -> & _).
  - destruct H as (w1 & w2 & -> & H1 & H2). intros E.
    apply app_eq_nil in E as [-> ->].
    apply orb_true_iff in Hn as [Hn | Hn]; [by eapply IH1 | by eapply IH2].
  - apply andb_true_iff in Hn as [Hn1 Hn2]. destruct H as [H | H]; eauto.
  - apply andb_true_iff in Hn as [Hlo Hn]. apply Nat.leb_le in Hlo.
    destruct H as (ws & -> & Hall & Hlen & _).
    destruct ws as [| w ws]; [simpl in Hlen; lia |].
    apply Forall_cons in Hall as [Hw _]. simpl. intros E.
    apply app_eq_nil in E as [-> _]. by eapply IH1.
  - eauto.
Qed.

(** Repeating a one-character pattern gives as many characters as rounds. *)
Lemma lang_rep_length (ic : bool) (lo : nat) (hi : option nat) (greedy negated : bool)
    (items : list cset_item) (w : str) :
  lang ic (RRep lo hi greedy (RSet negated items)) w →
  (lo <= length w)%nat ∧ hi_ok hi (length w).
Proof.
  cbn [lang]. intros (ws & -> & Hall & Hlo & Hhi).
  assert (Hlen : length (concat ws) = length ws).
  { clear Hlo Hhi. induction Hall as [| w ws (c & -> & _) _ IH]; [done |].
    simpl. by rewrite IH. }
  by rewrite Hlen.
Qed.

(** ** Groups of digits *)

Lemma group_text (ic : bool) (r : regex) (text : str) (m : match_obj)
    (test : regex → bool) (idx : nat) (g : str) :
  search ic r text = Some m → group_is test idx r = true →
  group m idx = Some g → ∃ r1, test r1 = true ∧ lang ic r1 g.
Proof.
  intros Hm Ht Hg. apply search_sound in Hm as (_ & Hgr & _).
  apply Hgr in Hg as (r1 & Hin & Hl). exists r1. split; [| done].
  unfold group_is in Ht. rewrite forallb_forall in Ht.
  apply list_elem_of_In, Ht in Hin. simpl in Hin.
  by rewrite Nat.eqb_refl in Hin.
Qed.

Lemma group_present (ic : bool) (r : regex) (text : str) (m : match_obj) (idx : nat) :
  search ic r text = Some m → sets idx r = true →
  ∃ g, group m idx = Some g ∧ group_str m idx = Ok g.
Proof.
  intros Hm Hs. apply search_sound in Hm as (_ & _ & Hset).
  destruct (Hset idx Hs) as [g Hg]. exists g. unfold group_str. by rewrite Hg.
Qed.

Lemma is_digit_lower (c : N) : is_digit (lower_c c) = is_digit c.
Proof.
  unfold lower_c. destruct (is_upper c) eqn:Hu; [| done].
  unfold is_upper, between in Hu. apply andb_true_iff in Hu as [H1 H2].
  apply N.leb_le in H1, H2. unfold is_digit, between. by decide_cmp.
Qed.

Lemma is_digit_upper (c : N) : is_digit (upper_c c) = is_digit c.
Proof.
  unfold upper_c. destruct (is_lower c) eqn:Hu; [| done].
  unfold is_lower, between in Hu. apply andb_true_iff in Hu as [H1 H2].
  apply N.leb_le in H1, H2. unfold is_digit, between. by decide_cmp.
Qed.

Lemma digit_set (ic : bool) (c : N) :
  set_matches ic false [CDigit] c = is_digit c.
Proof.
  unfold set_matches, set_has. simpl. destruct ic.
  - rewrite is_digit_lower, is_digit_upper. by destruct (is_digit c).
  - by rewrite orb_false_r.
Qed.

Lemma digits_body_lang (ic : bool) (r : regex) (g : str) :
  digits_body r = true → lang ic r g →
  g ≠ [] ∧ Forall (fun c => is_digit c = true) g.
Proof.
  destruct r as [| | | | | | | lo hi greedy [| | | | [] [| [] []] | | | | | | |] | | | |];
    try discriminate.
  unfold digits_body. intros Hlo Hl. split.
  - apply (lang_nonnull ic _ g) in Hl; [done |]. cbn [nonnull]. by rewrite Hlo.
  - apply (lang_leaves ic is_digit) in Hl; [done |].
    cbn [leaves]. intros c. by rewrite digit_set.
Qed.

Lemma short_digits_lang (ic : bool) (r : regex) (g : str) :
  short_digits r = true → lang ic r g →
  g ≠ [] ∧ Forall (fun c => is_digit c = true) g ∧ (length g <= max_str_digits)%nat.
Proof.
  destruct r as [| | | | | | | lo [hi |] greedy [| | | | [] [| [] []] | | | | | | |] | | | |];
    try discriminate.
  unfold short_digits. intros [Hlo Hhi]%andb_true_iff Hl.
  assert (Hb : digits_body (RRep lo (Some hi) greedy (RSet false [CDigit])) = true)
    by exact Hlo.
  destruct (digits_body_lang ic _ g Hb Hl) as [Hne Hd].
  apply lang_rep_length in Hl as [_ Hh]. simpl in Hh. apply Nat.leb_le in Hhi.
  split; [done |]. split; [done | lia].
Qed.

(** [int] of a run of digits: their number, up to [max_str_digits] of
    them, and [ValueError] beyond. *)
Lemma int_of_digit_run (g : str) :
  g ≠ [] → Forall (fun c => is_digit c = true) g →
  int_of_str g = if (max_str_digits <? length g)%nat then Raise ValueError
                 else Ok (digits_number g).
Proof.
  intros Hne Hg. unfold int_of_str. rewrite (digits_strip g Hg).
  destruct g as [| c g]; [done |].
  pose proof Hg as Hc. apply Forall_cons in Hc as [Hc%is_digit_bounds _].
  assert (Hsign : read_sign (c :: g) = (false, c :: g)).
  { unfold read_sign.
    assert ((c =? 45) = false) as -> by (decide_cmp; reflexivity).
    assert ((c =? 43) = false) as -> by (decide_cmp; reflexivity). done. }
  rewrite Hsign, (digit_run_digits _ _ Hg). cbn [map].
  change (digit_val c :: map digit_val g) with (map digit_val (c :: g)).
  rewrite length_map. reflexivity.
Qed.

Lemma int_of_digits (g : str) :
  g ≠ [] → Forall (fun c => is_digit c = true) g →
  (length g <= max_str_digits)%nat →
  int_of_str g = Ok (digits_number g).
Proof.
  intros Hne Hg Hlen. rewrite int_of_digit_run by done.
  by apply Nat.ltb_ge in Hlen as ->.
Qed.

(** The digits of a number with [n] digits spell less than [10^n]. *)
Lemma digits_number_bound (g : str) :
  Forall (fun c => is_digit c = true) g →
  (0 <= digits_number g < 10 ^ Z.of_nat (length g))%Z.
Proof.
  intros Hg. unfold digits_number, digits_value.
  assert (H : ∀ (l : str) (a : Z), Forall (fun c => is_digit c = true) l → (0 <= a)%Z →
    (0 <= fold_left (fun a d => 10 * a + d)%Z (map digit_val l) a
     < (a + 1) * 10 ^ Z.of_nat (length l))%Z).
  { induction l as [| c l IH]; intros a Hl Ha.
    - simpl. lia.
    - apply Forall_cons in Hl as [Hc%is_digit_bounds Hl].
      cbn [map fold_left length]. rewrite Nat2Z.inj_succ, Z.pow_succ_r by lia.
      assert (Hd : (0 <= digit_val c <= 9)%Z) by (unfold digit_val; lia).
      specialize (IH (10 * a + digit_val c)%Z Hl ltac:(lia)).
      assert (0 < 10 ^ Z.of_nat (length l))%Z by (apply Z.pow_pos_nonneg; lia).
      nia. }
  specialize (H g 0%Z Hg ltac:(lia)). lia.
Qed.

(** ** The ordinal suffix *)

(** In a text of digits there is no "st", "nd", "rd" or "th" to remove. *)
Lemma search_ordinal_digits (d : str) :
  Forall (fun c => is_digit c = true) d →
  search true (re (U "(st|nd|rd|th)$")) d = None.
Proof.
  intros Hd. destruct (search _ _ d) as [m |] eqn:Hm; [| done]. exfalso.
  pose proof Hm as Hs. apply search_sound in Hs as (Hl & _ & _).
  assert (Hstr : m_string m = d).
  { unfold search in Hm. destruct (search_at _ _ _ _ _) as [[i s'] |]; [| done].
    by injection Hm as <-. }
  assert (Hne : group0 m ≠ []).
  { eapply lang_nonnull; [| exact Hl]. by vm_compute. }
  assert (Hletters : Forall (fun c => negb (is_digit c) = true) (group0 m)).
  { eapply lang_leaves; [| exact Hl].
    let v := eval vm_compute in (re (U "(st|nd|rd|th)$")) in
    change (re (U "(st|nd|rd|th)$")) with v.
    cbn [leaves].
    assert (Hlit : ∀ x c, is_lower x = true → lit_matches true x c = true →
                          negb (is_digit c) = true).
    { intros x c Hx Hc. unfold lit_matches in Hc. apply N.eqb_eq in Hc.
      destruct (is_digit c) eqn:Hdc; [| done]. exfalso.
      unfold lower_c in Hc. rewrite (digit_not_upper c Hdc) in Hc.
      assert (is_upper x = false) as Hux.
      { unfold is_lower, between in Hx. apply andb_true_iff in Hx as [H1 H2].
        apply N.leb_le in H1, H2. unfold is_upper, between. by decide_cmp. }
      rewrite Hux in Hc. subst x.
      apply is_digit_bounds in Hdc. unfold is_lower, between in Hx.
      apply andb_true_iff in Hx as [H1 H2]. apply N.leb_le in H1. lia. }
    repeat split; try done; intros c; by apply Hlit. }
  unfold group0, slice in *. rewrite Hstr in *.
  destruct (take _ (drop _ d)) as [| c w] eqn:Hw; [done |].
  apply Forall_cons in Hletters as [Hc _].
  assert (Hin : c ∈ d).
  { eapply elem_of_sublist; [| apply sublist_drop].
    eapply elem_of_sublist; [| apply sublist_take]. rewrite Hw. apply list_elem_of_here. }
  eapply Forall_forall in Hd; [| exact Hin]. by rewrite Hd in Hc.
Qed.

Lemma _strip_ord_digits (d : str) :
  d ≠ [] → Forall (fun c => is_digit c = true) d →
  (length d <= max_str_digits)%nat →
  _strip_ord d = Ok (digits_number d).
Proof.
  intros Hne Hd Hlen. unfold _strip_ord, sub, finditer.
  pose proof (search_ordinal_digits d Hd) as Hs. unfold search in Hs.
  cbn [finditer_at].
  destruct (search_at true _ 0 None d) as [[i s'] |]; [discriminate |].
  cbn [splice]. rewrite drop_0. by apply int_of_digits.
Qed.

(** ** The date resolver and the duration extractor always return *)

Lemma digit_group (ic : bool) (r : regex) (text : str) (m : match_obj)
    (idx : nat) (g : str) :
  search ic r text = Some m → group_is digits_body idx r = true →
  group m idx = Some g →
  g ≠ [] ∧ Forall (fun c => is_digit c = true) g.
Proof.
  intros Hm Ht Hg.
  destruct (group_text ic r text m digits_body idx g Hm Ht Hg) as (r1 & Hr1 & Hl).
  by eapply digits_body_lang.
Qed.

Lemma short_group (ic : bool) (r : regex) (text : str) (m : match_obj)
    (idx : nat) (g : str) :
  search ic r text = Some m → group_is short_digits idx r = true →
  group m idx = Some g →
  g ≠ [] ∧ Forall (fun c => is_digit c = true) g ∧ (length g <= max_str_digits)%nat.
Proof.
  intros Hm Ht Hg.
  destruct (group_text ic r text m short_digits idx g Hm Ht Hg) as (r1 & Hr1 & Hl).
  by eapply short_digits_lang.
Qed.

Lemma year_group (ic : bool) (r : regex) (text : str) (m : match_obj)
    (idx : nat) (other : Z) :
  search ic r text = Some m → group_is short_digits idx r = true →
  ∃ y, if_str (group m idx) int_of_str (Ok other) = Ok y.
Proof.
  intros Hm Ht. unfold if_str. destruct (group m idx) as [g |] eqn:Hg; [| eauto].
  destruct (short_group ic r text m idx g Hm Ht Hg) as (Hne & Hd & Hlen).
  destruct g as [| c g]; [done |]. simpl. rewrite int_of_digits by done. eauto.
Qed.

Lemma day_group (ic : bool) (r : regex) (text : str) (m : match_obj) (idx : nat) :
  search ic r text = Some m → sets idx r = true →
  group_is short_digits idx r = true →
  ∃ g, group_str m idx = Ok g ∧ _strip_ord g = Ok (digits_number g).
Proof.
  intros Hm Hs Ht. destruct (group_present ic r text m idx Hm Hs) as (g & Hg & Hgs).
  destruct (short_group ic r text m idx g Hm Ht Hg) as (Hne & Hd & Hlen).
  exists g. split; [done |]. by apply _strip_ord_digits.
Qed.

Lemma date_pair_total (out : window_t) (sy sm sd ey em ed : Z) :
  ∃ r, date_pair out sy sm sd ey em ed = Ok r.
Proof.
  assert (Hd : ∀ y m d, (∃ dt, date_new y m d = Ok dt) ∨ date_new y m d = Raise ValueError).
  { intros y m d. unfold date_new. destruct (_ && _); eauto. }
  unfold date_pair.
  destruct (Hd sy sm sd) as [[d1 ->] | ->]; [| simpl; eauto].
  destruct (Hd ey em ed) as [[d2 ->] | ->]; simpl; eauto.
Qed.

Lemma window_pat1_total (year_now : Z) (T : str) (out : window_t) :
  ∃ r, window_pat1 year_now T out = Ok r.
Proof.
  unfold window_pat1. destruct (search true pat1 T) as [m |] eqn:Hm; [| eauto].
  destruct (group_present _ _ _ _ 1 Hm eq_refl) as (smon & _ & ->).
  destruct (day_group _ _ _ _ 2 Hm eq_refl eq_refl) as (sd & -> & Hsd).
  destruct (day_group _ _ _ _ 5 Hm eq_refl eq_refl) as (ed & -> & Hed).
  destruct (year_group _ _ _ _ 3 year_now Hm eq_refl) as (sy & Hsy).
  cbn [mbind result_bind].
  destruct (_mon_num smon) as [sm |]; [| eauto].
  destruct (if_str (group m 4) _mon_num (Some sm)) as [em |]; [| eauto].
  destruct (negb (sm =? 0)%Z && negb (em =? 0)%Z); [| eauto].
  rewrite Hsd, Hed, Hsy. cbn [mbind result_bind].
  destruct (year_group _ _ _ _ 6 sy Hm eq_refl) as (ey & ->).
  cbn [mbind result_bind]. apply date_pair_total.
Qed.

Lemma window_pat2_total (year_now : Z) (T : str) (out : window_t) :
  ∃ r, window_pat2 year_now T out = Ok r.
Proof.
  unfold window_pat2. destruct (search true pat2 T) as [m |] eqn:Hm; [| eauto].
  destruct (day_group _ _ _ _ 1 Hm eq_refl eq_refl) as (sd & -> & Hsd).
  destruct (day_group _ _ _ _ 2 Hm eq_refl eq_refl) as (ed & -> & Hed).
  destruct (group_present _ _ _ _ 3 Hm eq_refl) as (mon & _ & ->).
  destruct (year_group _ _ _ _ 4 year_now Hm eq_refl) as (y & Hy).
  cbn [mbind result_bind].
  destruct (_mon_num mon) as [mm |]; [| eauto].
  destruct (negb (mm =? 0)%Z); [| eauto].
  rewrite Hsd, Hed, Hy. cbn [mbind result_bind]. apply date_pair_total.
Qed.

Lemma window_pat3_total (year_now : Z) (T : str) (out : window_t) :
  ∃ r, window_pat3 year_now T out = Ok r.
Proof.
  unfold window_pat3. destruct (search true pat3 T) as [m |] eqn:Hm; [| eauto].
  destruct (group_present _ _ _ _ 1 Hm eq_refl) as (mon & _ & ->).
  destruct (day_group _ _ _ _ 2 Hm eq_refl eq_refl) as (sd & -> & Hsd).
  destruct (day_group _ _ _ _ 3 Hm eq_refl eq_refl) as (ed & -> & Hed).
  destruct (year_group _ _ _ _ 4 year_now Hm eq_refl) as (y & Hy).
  cbn [mbind result_bind].
  destruct (_mon_num mon) as [mm |]; [| eauto].
  destruct (negb (mm =? 0)%Z); [| eauto].
  rewrite Hsd, Hed, Hy. cbn [mbind result_bind]. apply date_pair_total.
Qed.

Lemma window_plain_month_total (T : str) (out : window_t) :
  ∃ r, window_plain_month T out = Ok r.
Proof.
  unfold window_plain_month.
  destruct (search false plain_month_re T) as [m |] eqn:Hm; [| eauto].
  destruct (group_present _ _ _ _ 1 Hm eq_refl) as (g & _ & ->).
  cbn [mbind result_bind].
  destruct (py_or _ _) as [n |]; [| eauto]. destruct (negb _); eauto.
Qed.

Lemma window_total (year_now : Z) (text : str) :
  ∃ w, _find_month_or_window year_now text = Ok w.
Proof.
  unfold _find_month_or_window.
  destruct (search false iso_re text) as [iso |] eqn:Hm.
  { destruct (group_present _ _ _ _ 1 Hm eq_refl) as (s & _ & ->).
    destruct (group_present _ _ _ _ 2 Hm eq_refl) as (e & _ & ->).
    cbn [mbind result_bind]. eauto. }
  destruct (window_pat1_total year_now text (Window None None None)) as (r1 & ->).
  cbn [mbind result_bind]. destruct r1; [eauto |].
  destruct (window_pat2_total year_now text (Window None None None)) as (r2 & ->).
  cbn [mbind result_bind]. destruct r2; [eauto |].
  destruct (window_pat3_total year_now text (Window None None None)) as (r3 & ->).
  cbn [mbind result_bind]. destruct r3; [eauto |].
  destruct (window_plain_month_total text (Window None None None)) as (r4 & ->).
  cbn [mbind result_bind]. destruct r4; eauto.
Qed.

(** X11. The date resolver never raises: whatever the clock, it returns a
    window for every request in ASCII (where the model of the character
    classes and of [int] is exact). *)
Theorem _find_month_or_window_returns (year_now : Z) (text : str) :
  Forall (fun c => c < 128) text →
  ∃ w, _find_month_or_window year_now text = Ok w.
Proof. intros _. exact (window_total year_now text). Qed.

Lemma _find_month_or_window_returns_witness :
  Forall (fun c => c < 128) (U "Feb 30 to 31, 2025")
  ∧ ∃ w, _find_month_or_window 2026 (U "Feb 30 to 31, 2025") = Ok w.
Proof.
  assert (H : Forall (fun c => c < 128) (U "Feb 30 to 31, 2025"))
    by (apply (bool_decide_unpack _); vm_compute; exact I).
  exact (conj H (_find_month_or_window_returns 2026 _ H)).
Defined.

Lemma WORD_NUMS_range (w : str) (n : Z) :
  (w, n) ∈ WORD_NUMS → (1 <= n <= 20)%Z.
Proof.
  intros H.
  assert (HF : Forall (fun p => (1 <= p.2 <= 20)%Z) WORD_NUMS)
    by (apply (bool_decide_unpack _); by vm_compute).
  eapply Forall_forall in HF; [| exact H]. done.
Qed.

Lemma duration_total (text : str) :
  ∃ d, _find_duration_days text = Ok d
       ∧ ∀ n, d = Some n → (0 <= n <= 999)%Z.
Proof.
  unfold _find_duration_days.
  destruct (search true duration_digits_re text) as [m |] eqn:Hm.
  - destruct (group_present _ _ _ _ 1 Hm eq_refl) as (g & Hg & ->).
    destruct (group_text _ _ _ _ digits_body 1 g Hm eq_refl Hg) as (r1 & Hr1 & Hl).
    destruct (digits_body_lang _ _ _ Hr1 Hl) as [Hne Hd].
    pose proof Hm as Hs. apply search_sound in Hs as (_ & Hgr & _).
    apply Hgr in Hg as (r2 & Hin & Hl2).
    assert (Hlen : (length g <= 3)%nat).
    { vm_compute in Hin. apply elem_of_cons in Hin as [[= ->] | Hin];
        [| by apply elem_of_nil in Hin].
      by apply lang_rep_length in Hl2 as [_ Hhi]. }
    cbn [mbind result_bind].
    rewrite int_of_digits by (try done; unfold max_str_digits; lia).
    cbn [mbind result_bind]. eexists. split; [done |]. intros n [= <-].
    pose proof (digits_number_bound g Hd) as [H0 Hb]. split; [done |].
    assert (10 ^ Z.of_nat (length g) <= 10 ^ 3)%Z by (apply Z.pow_le_mono_r; lia).
    lia.
  - eexists. split; [done |]. intros n Hn.
    destruct (List.find _ WORD_NUMS) as [[w k] |] eqn:Hf; [| discriminate].
    simpl in Hn. injection Hn as <-.
    apply find_some in Hf as [Hin _]. apply list_elem_of_In, WORD_NUMS_range in Hin. lia.
Qed.

(** X12. On a request in ASCII the duration extractor never raises, and a
    duration it reports is between 0 and 999. *)
Theorem _find_duration_days_returns (text : str) :
  Forall (fun c => c < 128) text →
  ∃ d, _find_duration_days text = Ok d
       ∧ ∀ n, d = Some n → (0 <= n <= 999)%Z.
Proof. intros _. exact (duration_total text). Qed.

Lemma _find_duration_days_returns_witness :
  Forall (fun c => c < 128) (U "a 999-night stay")
  ∧ ∃ d, _find_duration_days (U "a 999-night stay") = Ok d
         ∧ ∀ n, d = Some n → (0 <= n <= 999)%Z.
Proof.
  assert (H : Forall (fun c => c < 128) (U "a 999-night stay"))
    by (apply (bool_decide_unpack _); vm_compute; exact I).
  exact (conj H (_find_duration_days_returns _ H)).
Defined.

(** ** Characters a match cannot contain *)

Lemma lang_avoids (ic : bool) (x : N) (r : regex) :
  ∀ w, avoids ic x r = true → lang ic r w → x ∉ w.
Proof.
  induction r as [| | y | | negated items | r1 IH1 r2 IH2 | r1 IH1 r2 IH2
                 | lo hi greedy r1 IH1 | idx r1 IH1 | r1 IH1 | |];
    intros w Ha H; cbn [lang] in H; cbn [avoids] in Ha; subst;
    try (by apply not_elem_of_nil); try done.
  - destruct H as (c & -> & Hc). intros ->%list_elem_of_singleton.
    by rewrite Hc in Ha.
  - destruct H as (c & -> & Hc). intros ->%list_elem_of_singleton.
    apply N.eqb_eq in Ha as ->. done.
  - destruct H as (c & -> & Hc). intros ->%list_elem_of_singleton.
    by rewrite Hc in Ha.
  - apply andb_true_iff in Ha as [Ha1 Ha2]. destruct H as (w1 & w2 & -> & H1 & H2).
    intros [Hin | Hin]%elem_of_app; [by eapply IH1 | by eapply IH2].
  - apply andb_true_iff in Ha as [Ha1 Ha2]. destruct H as [H | H]; eauto.
  - destruct H as (ws & -> & Hall & _). intros Hin.
    induction Hall as [| w ws Hw _ IH]; [by apply elem_of_nil in Hin |].
    simpl in Hin. apply elem_of_app in Hin as [Hin | Hin]; [| auto].
    by eapply IH1.
  - eauto.
Qed.

(** ** [re.finditer] and [re.sub] *)

Lemma search_at_from (ic : bool) (r : regex) (text : str) :
  ∀ (rest : str) (pos : nat) (prev : option N) (i : nat) (s' : mstate),
    rest = drop pos text →
    search_at ic r pos prev rest = Some (i, s') →
    wf text s' ∧ lang ic r (slice text i (ms_pos s')).
Proof.
  intros rest pos prev i s' Hrest H.
  apply (search_at_sound ic r text) in H as (prev' & Hs); [| done].
  set (s0 := MState i prev' (drop i text) []) in *.
  assert (Hwf : wf text s0) by done.
  pose proof (spans_lang ic r s0 s' Hs) as (w & Hr & Hp & Hl).
  destruct (wf_slice text s0 s' w Hwf Hr Hp) as [Hwf' Hsl].
  subst s0. simpl in *. by rewrite Hsl.
Qed.

(** Every match that [finditer] yields is a match of the pattern in the text. *)
Lemma finditer_at_sound (ic : bool) (r : regex) (text : str) (m : match_obj) :
  ∀ (fuel pos : nat) (prev : option N) (rest : str),
    rest = drop pos text →
    m ∈ finditer_at fuel ic r text pos prev rest →
    m_string m = text ∧ lang ic r (group0 m).
Proof.
  induction fuel as [| fuel IH]; intros pos prev rest Hrest Hin; cbn [finditer_at] in Hin.
  { by apply elem_of_nil in Hin. }
  destruct (search_at ic r pos prev rest) as [[i s'] |] eqn:Hs;
    [| by apply elem_of_nil in Hin].
  destruct (search_at_from ic r text rest pos prev i s' Hrest Hs) as [Hwf Hl].
  assert (Hhere : ∀ m', m' = Match text i (ms_pos s') (ms_caps s') →
                        m_string m' = text ∧ lang ic r (group0 m')).
  { intros m' ->. done. }
  destruct (i <? ms_pos s')%nat.
  - apply elem_of_cons in Hin as [-> | Hin]; [by apply Hhere |].
    by eapply IH; [| exact Hin].
  - destruct (ms_rest s') as [| c rest'] eqn:Hr.
    + apply list_elem_of_singleton in Hin as ->. by apply Hhere.
    + apply elem_of_cons in Hin as [-> | Hin]; [by apply Hhere |].
      eapply IH; [| exact Hin]. unfold wf in Hwf. rewrite Hr in Hwf.
      rewrite <- Nat.add_1_r, <- drop_drop, <- Hwf. done.
Qed.

Lemma finditer_sound (ic : bool) (r : regex) (text : str) (m : match_obj) :
  m ∈ finditer ic r text → m_string m = text ∧ lang ic r (group0 m).
Proof. unfold finditer. by apply finditer_at_sound. Qed.

(** [re.sub] only copies characters of the text and of the replacement. *)
Lemma splice_chars (text repl : str) (ms : list match_obj) (from : nat) (c : N) :
  c ∈ splice text repl from ms → c ∈ text ∨ c ∈ repl.
Proof.
  revert from. induction ms as [| m ms IH]; intros from; cbn [splice].
  - intros H. left. eapply elem_of_sublist; [exact H | apply sublist_drop].
  - intros [H | [H | H]%elem_of_app]%elem_of_app; [| auto | eauto].
    left. unfold slice in H.
    eapply elem_of_sublist; [| apply sublist_drop].
    eapply elem_of_sublist; [exact H | apply sublist_take].
Qed.

Lemma lstrip_sublist (s : str) : lstrip s `sublist_of` s.
Proof.
  induction s as [| c s IH]; simpl; [done |].
  destruct (is_space c); [by apply sublist_cons | done].
Qed.

Lemma strip_chars (s : str) (c : N) : c ∈ strip s → c ∈ s.
Proof.
  unfold strip, rstrip. intros H.
  apply list_elem_of_In, in_rev, list_elem_of_In in H.
  eapply elem_of_sublist in H; [| apply lstrip_sublist].
  apply list_elem_of_In, in_rev, list_elem_of_In in H.
  eapply elem_of_sublist; [exact H | apply lstrip_sublist].
Qed.

Lemma _clean_chars (s : str) (c : N) : c ∈ _clean s → c ∈ s ∨ c = 32.
Proof.
  unfold _clean, sub. intros [H | H]%splice_chars.
  - left. by apply strip_chars.
  - right. by apply list_elem_of_singleton in H.
Qed.

(** ** Constraints are cut at punctuation *)

(** X13. No constraint contains a period, a comma or a semicolon: each
    clause stops at the first of them. *)
Theorem constraints_have_no_punctuation (text c : str) :
  c ∈ _find_constraints text →
  ((code ".") ∉ c) ∧ ((code ",") ∉ c) ∧ ((code ";") ∉ c).
Proof.
  intros Hc.
  assert (Hcand : c ∈ constraint_candidates text).
  { eapply elem_of_sublist; [exact Hc |].
    apply (dedup_spec (constraint_candidates text) ∅). }
  unfold constraint_candidates in Hcand.
  apply list_elem_of_In, in_flat_map in Hcand as (kw & Hkw & Hm).
  apply in_map_iff in Hm as (m & <- & Hm).
  apply list_elem_of_In, finditer_sound in Hm as [_ Hl].
  assert (Hav : ∀ x, x ≠ 32 →
            forallb (fun kw => avoids true x (constraint_re kw)) constraint_keywords = true →
            x ∉ _clean (group0 m)).
  { intros x Hx Hall Hin. apply _clean_chars in Hin as [Hin | ->]; [| done].
    rewrite forallb_forall in Hall. apply Hall in Hkw.
    by eapply lang_avoids. }
  split_and!; apply Hav; done.
Qed.

Lemma constraints_have_no_punctuation_witness :
  U "must avoid Rome" ∈ _find_constraints (U "We must avoid Rome, ok; no pets.")
  ∧ ((code ".") ∉ U "must avoid Rome") ∧ ((code ",") ∉ U "must avoid Rome")
  ∧ ((code ";") ∉ U "must avoid Rome").
Proof.
  assert (H : U "must avoid Rome" ∈ _find_constraints (U "We must avoid Rome, ok; no pets."))
    by (apply (bool_decide_unpack _); vm_compute; exact I).
  split; [exact H |].
  exact (constraints_have_no_punctuation _ _ H).
Defined.

(** ** Counts and amounts are never negative *)

(** X14. On a request in ASCII, a number of adults, when the resolver
    reports one, is not negative. *)
Theorem adults_nonnegative (text : str) (t : travelers_t) (a : Z) :
  Forall (fun c => c < 128) text →
  _find_travelers text = Ok t → adults t = Some a → (0 <= a)%Z.
Proof.
  intros _.
  assert (Hint : ∀ r m g n, search true r text = Some m →
            group_is digits_body 1 r = true →
            group_str m 1 = Ok g → int_of_str g = Ok n → (0 <= n)%Z).
  { intros r m g n Hm Ht Hg Hn. unfold group_str in Hg.
    destruct (group m 1) as [g' |] eqn:Hg'; [| discriminate]. injection Hg as ->.
    destruct (digit_group true r text m 1 g Hm Ht Hg') as [Hne Hd].
    rewrite int_of_digit_run in Hn by done.
    destruct (max_str_digits <? length g)%nat; [discriminate |]. injection Hn as <-.
    apply digits_number_bound. done. }
  unfold _find_travelers. cbv zeta. intros H Ha.
  destruct (search true family_re text) as [m |] eqn:Hm.
  { ok_inv H. injection H as <-. cbn [adults] in Ha. injection Ha as <-.
    pose proof (Hint _ _ _ _ Hm eq_refl Ha0 Ha1). destruct (3 <=? a1)%Z; lia. }
  destruct (search true n_people_re text) as [m1 |] eqn:Hm1.
  { ok_inv H. injection H as <-. cbn [adults] in Ha. injection Ha as <-. eauto. }
  destruct (List.find _ WORD_NUMS) as [[w n] |] eqn:Hf.
  { injection H as <-. cbn [adults] in Ha. injection Ha as <-.
    apply find_some in Hf as [Hin _]. apply list_elem_of_In, WORD_NUMS_range in Hin. lia. }
  destruct (search true for_n_re text) as [m2 |] eqn:Hm2.
  { ok_inv H.
    destruct (dict_get WORD_NUMS (lower a0)) as [k |] eqn:Hk;
      injection H as <-; cbn [adults] in Ha; injection Ha as <-; simpl.
    - apply dict_get_elem_of, WORD_NUMS_range in Hk. lia.
    - destruct (isdigit (lower a0)) eqn:Hd; [| injection Ha1 as <-; lia].
      unfold isdigit in Hd. destruct (lower a0) as [| c w] eqn:Hw; [discriminate |].
      rewrite forallb_forall in Hd.
      assert (Hall : Forall (fun c => is_digit c = true) (c :: w)).
      { apply Forall_forall. intros x Hx. by apply Hd, list_elem_of_In. }
      rewrite int_of_digit_run in Ha1 by done.
      destruct (max_str_digits <? length (c :: w))%nat; [discriminate |].
      injection Ha1 as <-. by apply digits_number_bound. }
  destruct (is_match _); injection H as <-; cbn [adults] in Ha; [| discriminate].
  injection Ha as <-. lia.
Qed.

Lemma adults_nonnegative_witness :
  Forall (fun c => c < 128) (U "a trip for 12 people")
  ∧ _find_travelers (U "a trip for 12 people") = Ok (Travelers (Some 12%Z) 0)
  ∧ (0 <= 12)%Z.
Proof.
  assert (H : Forall (fun c => c < 128) (U "a trip for 12 people"))
    by (apply (bool_decide_unpack _); vm_compute; exact I).
  assert (Ht : _find_travelers (U "a trip for 12 people") = Ok (Travelers (Some 12%Z) 0))
    by (vm_compute; reflexivity).
  exact (conj H (conj Ht (adults_nonnegative _ _ 12 H Ht eq_refl))).
Defined.













(** ** Floats that stay finite *)








(** ** Digit runs *)



(** ** The characters of an amount *)











(** ** The amount groups of the budget patterns *)


















(** ** The other extractors *)








(** ** Cleaning collapses whitespace *)

Lemma space_set (c : N) : set_matches false false [CSpace] c = is_space c.
Proof. unfold set_matches, set_has. simpl. apply orb_false_r. Qed.

Lemma rounds_S (step : (mstate → option mstate) → mstate → option mstate)
    (lo : nat) (hi : option nat) (greedy : bool) (k : mstate → option mstate)
    (fuel done : nat) (s : mstate) :
  rounds step lo hi greedy k (S fuel) done s
  = let more :=
      if match hi with Some h => (h <=? done)%nat | None => false end then None
      else step (fun s' => if (done <? lo)%nat || (ms_pos s <? ms_pos s')%nat
                           then rounds step lo hi greedy k fuel (S done) s'
                           else None) s in
    if (done <? lo)%nat then more
    else if greedy then or_else more (k s) else or_else (k s) more.
Proof. reflexivity. Qed.

Lemma rounds_space (rest : str) :
  ∀ (fuel done pos : nat) (prev : option N) (caps : list (nat * (nat * nat))),
    (1 <= done)%nat → (length rest < fuel)%nat →
    rounds (rmatch false (RSet false [CSpace])) 1 None true Some fuel done
      (MState pos prev rest caps)
    = Some (skip_space pos prev rest caps).
Proof.
  induction rest as [| c rest IH]; intros fuel done pos prev caps Hd Hf;
    (destruct fuel as [| fuel]; [simpl in Hf; lia |]);
    (destruct done as [| done]; [lia |]).
  - reflexivity.
  - rewrite rounds_S. change (S done <? 1)%nat with false. cbv iota zeta.
    cbn [rmatch]. unfold step_char. cbn [ms_rest]. rewrite space_set.
    cbn [skip_space]. destruct (is_space c); [| reflexivity].
    unfold advance. cbn [ms_pos ms_caps orb].
    assert ((pos <? S pos)%nat = true) as -> by (apply Nat.ltb_lt; lia).
    rewrite IH; [reflexivity | lia | simpl in Hf; lia].
Qed.

Lemma rmatch_space (pos : nat) (prev : option N) (rest : str)
    (caps : list (nat * (nat * nat))) :
  rmatch false (RRep 1 None true (RSet false [CSpace])) Some (MState pos prev rest caps)
  = match rest with
    | c :: rest' =>
        if is_space c then Some (skip_space (S pos) (Some c) rest' caps) else None
    | [] => None
    end.
Proof.
  cbn [rmatch ms_rest]. destruct rest as [| c rest]; [reflexivity |].
  change (1 + S (length (c :: rest)))%nat with (S (S (S (length rest)))).
  rewrite rounds_S. change (0 <? 1)%nat with true. cbv iota zeta.
  cbn [rmatch]. unfold step_char. cbn [ms_rest]. rewrite space_set.
  destruct (is_space c); [| reflexivity].
  unfold advance. cbn [ms_pos ms_caps orb].
  apply rounds_space; lia.
Qed.

Lemma search_at_space (rest : str) :
  ∀ (pos : nat) (prev : option N),
    search_at false (RRep 1 None true (RSet false [CSpace])) pos prev rest
    = find_space pos prev rest.
Proof.
  induction rest as [| c rest IH]; intros pos prev;
    cbn [search_at find_space]; rewrite rmatch_space; [reflexivity |].
  destruct (is_space c); [reflexivity | apply IH].
Qed.

Lemma skip_space_wf (text rest : str) :
  ∀ (pos : nat) (prev : option N) (caps : list (nat * (nat * nat))),
    rest = drop pos text →
    ms_rest (skip_space pos prev rest caps) = drop (ms_pos (skip_space pos prev rest caps)) text
    ∧ (length (ms_rest (skip_space pos prev rest caps)) <= length rest)%nat
    ∧ collapse true rest = collapse false (ms_rest (skip_space pos prev rest caps)).
Proof.
  induction rest as [| c rest IH]; intros pos prev caps Hw; cbn [skip_space].
  { by cbn [ms_rest ms_pos]. }
  destruct (is_space c) eqn:Hc.
  - destruct (IH (S pos) (Some c) caps) as (H1 & H2 & H3).
    { erewrite drop_S in Hw; [by injection Hw |].
      rewrite <- (Nat.add_0_r pos), <- lookup_drop, <- Hw. done. }
    split; [done |]. split; [simpl; lia |]. cbn [collapse]. by rewrite Hc.
  - cbn [ms_rest ms_pos]. split; [done |]. split; [done |].
    cbn [collapse]. by rewrite Hc.
Qed.

Lemma slice_snoc (text rest : str) (from pos : nat) (c : N) :
  c :: rest = drop pos text → (from <= pos)%nat →
  slice text from (S pos) = slice text from pos ++ [c] ∧ rest = drop (S pos) text.
Proof.
  intros Hw Hle.
  assert (Hc : text !! pos = Some c).
  { rewrite <- (Nat.add_0_r pos), <- lookup_drop, <- Hw. done. }
  split.
  - unfold slice. replace (S pos - from)%nat with (S (pos - from)) by lia.
    apply take_S_r. rewrite lookup_drop. by replace (from + (pos - from))%nat with pos by lia.
  - rewrite (drop_S _ _ _ Hc) in Hw. by injection Hw.
Qed.

Lemma slice_to_end (text : str) (from pos : nat) :
  drop pos text = [] → slice text from pos = drop from text.
Proof.
  intros Hd. unfold slice. apply take_ge. rewrite length_drop.
  apply (f_equal length) in Hd. rewrite length_drop in Hd. simpl in Hd. lia.
Qed.

Lemma finditer_at_skip (text rest : str) (fuel pos : nat) (prev : option N) (c : N) :
  is_space c = false →
  finditer_at (S fuel) false (RRep 1 None true (RSet false [CSpace])) text pos prev
    (c :: rest)
  = finditer_at (S fuel) false (RRep 1 None true (RSet false [CSpace])) text (S pos)
      (Some c) rest.
Proof.
  intros Hc. cbn [finditer_at search_at]. rewrite rmatch_space, Hc. reflexivity.
Qed.

Lemma skip_space_pos (rest : str) :
  ∀ (pos : nat) (prev : option N) (caps : list (nat * (nat * nat))),
    (pos <= ms_pos (skip_space pos prev rest caps))%nat.
Proof.
  induction rest as [| x rest IH]; intros pos prev caps; cbn [skip_space]; [done |].
  destruct (is_space x); [| done]. specialize (IH (S pos) (Some x) caps). lia.
Qed.

Lemma splice_space (text : str) :
  ∀ (fuel : nat) (rest : str) (pos : nat) (prev : option N) (from : nat),
    rest = drop pos text → (from <= pos)%nat → (length rest < fuel)%nat →
    splice text [32] from
      (finditer_at fuel false (RRep 1 None true (RSet false [CSpace])) text pos prev rest)
    = slice text from pos ++ collapse false rest.
Proof.
  induction fuel as [| fuel IHf]; [intros; lia |].
  induction rest as [| c rest IHr]; intros pos prev from Hw Hle Hf.
  { cbn [finditer_at search_at]. rewrite rmatch_space.
    cbn [splice collapse]. rewrite app_nil_r. symmetry. by apply slice_to_end. }
  destruct (slice_snoc text rest from pos c Hw Hle) as [Hsl Hrest].
  destruct (is_space c) eqn:Hc.
  - cbn [finditer_at search_at]. rewrite rmatch_space, Hc.
    destruct (skip_space_wf text rest (S pos) (Some c) [] Hrest) as (Hwf & Hlen & Hcol).
    pose proof (skip_space_pos rest (S pos) (Some c) []) as Hpos.
    set (s' := skip_space (S pos) (Some c) rest []) in *. cbv zeta.
    assert ((pos <? ms_pos s')%nat = true) as -> by (apply Nat.ltb_lt; lia).
    cbn [splice m_start m_end collapse]. rewrite Hc.
    rewrite IHf; [| done | done | simpl in Hf; lia].
    unfold slice at 2. rewrite Nat.sub_diag, take_0. cbn [app]. by rewrite Hcol.
  - rewrite finditer_at_skip by done. cbn [collapse]. rewrite Hc.
    rewrite IHr; [| done | lia | simpl in Hf; lia].
    rewrite Hsl, <- app_assoc. reflexivity.
Qed.

(** Cleaning is stripping, then collapsing each run of whitespace. *)
Lemma _clean_collapse (text : str) : _clean text = collapse false (strip text).
Proof.
  unfold _clean, sub, finditer.
  assert (re (U "\s+") = RRep 1 None true (RSet false [CSpace])) as ->
    by (vm_compute; reflexivity).
  change (U " ") with [32].
  rewrite (splice_space (strip text) _ (strip text) 0 None 0); [| done | done | lia].
  unfold slice. by rewrite take_0.
Qed.

Lemma ends_nonspace_snoc (s : str) (c : N) :
  ∀ b, ends_nonspace b (s ++ [c]) = negb (is_space c).
Proof. induction s as [| x s IH]; intros b; simpl; [done | apply IH]. Qed.

Lemma ends_nonspace_rev (s : str) (b : bool) :
  ends_nonspace b s = match rev s with c :: _ => negb (is_space c) | [] => negb b end.
Proof.
  destruct (rev s) as [| c r] eqn:Hr.
  - apply (f_equal (@rev N)) in Hr. rewrite rev_involutive in Hr. by subst.
  - apply (f_equal (@rev N)) in Hr. rewrite rev_involutive in Hr. subst.
    simpl. apply ends_nonspace_snoc.
Qed.

Lemma collapse_spacing (s : str) :
  ∀ b, ends_nonspace b s = true → spacing_from b (collapse b s) = true.
Proof.
  induction s as [| c s IH]; intros b; cbn [ends_nonspace collapse]; [done |].
  destruct (is_space c) eqn:Hc; intros He.
  - destruct b; [by apply IH |]. cbn [spacing_from].
    change (is_space 32) with true. cbv iota. rewrite IH by done. reflexivity.
  - cbn [spacing_from]. rewrite Hc. by apply IH.
Qed.

Lemma collapse_nonspace (s : str) : ∀ b, nonspace (collapse b s) = nonspace s.
Proof.
  unfold nonspace. induction s as [| c s IH]; intros b; cbn [collapse List.filter]; [done |].
  destruct (is_space c) eqn:Hc; cbn [negb].
  - destruct b; [apply IH |]. cbn [List.filter]. change (is_space 32) with true.
    cbn [negb]. apply IH.
  - cbn [List.filter]. rewrite Hc. cbn [negb]. by rewrite IH.
Qed.

Lemma lstrip_nonspace (s : str) : nonspace (lstrip s) = nonspace s.
Proof.
  unfold nonspace. induction s as [| c s IH]; [done |]. cbn [lstrip List.filter].
  destruct (is_space c) eqn:Hc; cbn [negb]; [exact IH |].
  cbn [List.filter]. by rewrite Hc.
Qed.

Lemma strip_nonspace (s : str) : nonspace (strip s) = nonspace s.
Proof.
  unfold strip, rstrip, nonspace.
  rewrite List.filter_rev. fold (nonspace (lstrip (rev s))).
  rewrite lstrip_nonspace. unfold nonspace.
  rewrite List.filter_rev, rev_involutive. apply lstrip_nonspace.
Qed.

Lemma _clean_spacing (text : str) :
  normal_spacing (_clean text) = true ∧ nonspace (_clean text) = nonspace text.
Proof.
  rewrite _clean_collapse. split; [| by rewrite collapse_nonspace, strip_nonspace].
  pose proof (strip_no_outer_whitespace text) as [Hh Hl].
  pose proof (ends_nonspace_rev (strip text) true) as He.
  destruct (strip text) as [| c s]; [done |].
  cbn [collapse]. rewrite Hh. cbn [normal_spacing spacing_from]. rewrite Hh.
  apply collapse_spacing.
  cbn [ends_nonspace] in He. rewrite Hh in He. rewrite He.
  destruct (rev (c :: s)) as [| x r] eqn:Hr; [by destruct (app_cons_not_nil (rev s) [] c) |].
  by rewrite Hl.
Qed.

(** X18. A cleaned text is normally spaced: its only whitespace is single
    blanks between other characters.  Cleaning keeps every other character,
    in order. *)
Theorem _clean_normal_spacing (text : str) :
  normal_spacing (_clean text) = true ∧ nonspace (_clean text) = nonspace text.
Proof. exact (_clean_spacing text). Qed.

Lemma spacing_collapse (s : str) :
  ∀ b, spacing_from b s = true → collapse b s = s ∧ ends_nonspace b s = true.
Proof.
  induction s as [| c s IH]; intros b; cbn [spacing_from collapse ends_nonspace]; [done |].
  destruct (is_space c) eqn:Hc.
  - destruct b; [done |]. cbn [negb andb].
    intros [->%N.eqb_eq Hs]%andb_true_iff. destruct (IH true Hs) as [-> He]. done.
  - intros Hs. destruct (IH false Hs) as [-> He]. done.
Qed.

(** X19. Cleaning leaves a text unchanged exactly when the text is
    normally spaced; so cleaning twice is cleaning once. *)
Theorem _clean_fixed_points (s : str) :
  (_clean s = s ↔ normal_spacing s = true) ∧ _clean (_clean s) = _clean s.
Proof.
  assert (Hfix : ∀ t, normal_spacing t = true → _clean t = t).
  { intros t Ht. rewrite _clean_collapse. destruct t as [| c t]; [done |].
    cbn [normal_spacing spacing_from] in Ht.
    destruct (is_space c) eqn:Hc; [done |].
    destruct (spacing_collapse t false Ht) as [Hcol He].
    assert (Hstrip : strip (c :: t) = c :: t).
    { unfold strip, rstrip. rewrite (lstrip_fixed (c :: t)) by done.
      rewrite lstrip_fixed; [apply rev_involutive |].
      pose proof (ends_nonspace_rev (c :: t) true) as Hr.
      cbn [ends_nonspace] in Hr. rewrite Hc, He in Hr.
      destruct (rev (c :: t)) as [| x r]; [done |]. by apply negb_true_iff. }
    rewrite Hstrip. cbn [collapse]. by rewrite Hc, Hcol. }
  split; [split; [| apply Hfix] |].
  - intros <-. apply _clean_spacing.
  - apply Hfix, _clean_spacing.
Qed.

(** ** Destinations and departure cities *)

Lemma is_upper_bounds (c : N) : is_upper c = true ↔ 65 <= c <= 90.
Proof. unfold is_upper, between. rewrite andb_true_iff, !N.leb_le. done. Qed.

Lemma is_lower_bounds (c : N) : is_lower c = true ↔ 97 <= c <= 122.
Proof. unfold is_lower, between. rewrite andb_true_iff, !N.leb_le. done. Qed.

Lemma not_upper (c : N) : is_upper c = false ↔ c < 65 ∨ 90 < c.
Proof.
  unfold is_upper, between. rewrite andb_false_iff, N.leb_gt, N.leb_gt. done.
Qed.

Lemma not_lower (c : N) : is_lower c = false ↔ c < 97 ∨ 122 < c.
Proof.
  unfold is_lower, between. rewrite andb_false_iff, N.leb_gt, N.leb_gt. done.
Qed.

(** Splits on whether [c] is a capital, a small letter, or neither. *)
Ltac letter_cases c :=
  unfold upper_c, lower_c;
  destruct (is_upper c) eqn:Hu; destruct (is_lower c) eqn:Hl;
  cbv iota; rewrite ?Hu, ?Hl;
  [ apply is_upper_bounds in Hu; apply is_lower_bounds in Hl; lia
  | apply is_upper_bounds in Hu; clear Hl
  | apply is_lower_bounds in Hl; clear Hu
  | apply not_upper in Hu; apply not_lower in Hl ].

Lemma is_alpha_upper (c : N) : is_alpha (upper_c c) = is_alpha c.
Proof. unfold is_alpha. letter_cases c; try done; digit_facts. Qed.

Lemma is_alpha_lower (c : N) : is_alpha (lower_c c) = is_alpha c.
Proof. unfold is_alpha. letter_cases c; try done; digit_facts. Qed.

Lemma is_space_not_alpha (c : N) : is_space c = true → is_alpha c = false.
Proof.
  unfold is_alpha. intros Hs. letter_cases c; try done; exfalso;
    revert Hs; digit_facts; discriminate.
Qed.

Lemma not_alpha_fixed (c : N) : is_alpha c = false → upper_c c = c ∧ lower_c c = c.
Proof.
  unfold is_alpha, upper_c, lower_c. intros [-> ->]%orb_false_iff. done.
Qed.

Lemma place_char_upper (c : N) : place_char (upper_c c) = place_char c.
Proof.
  unfold place_char, is_word, is_alpha, is_digit. letter_cases c; try done; digit_facts.
Qed.

Lemma place_char_lower (c : N) : place_char (lower_c c) = place_char c.
Proof.
  unfold place_char, is_word, is_alpha, is_digit. letter_cases c; try done; digit_facts.
Qed.

Lemma letter_set (c : N) :
  set_matches true false [CRange 65 90] c = true → is_alpha c = true.
Proof.
  unfold set_matches, set_has, is_alpha. simpl. rewrite !orb_false_r.
  fold (is_upper c) (is_upper (lower_c c)) (is_upper (upper_c c)).
  letter_cases c; done.
Qed.

Lemma place_set (c : N) :
  set_matches true false [CWord; CChar 45; CSpace] c = true →
  (place_char c || is_space c) = true.
Proof.
  assert (Hset : ∀ y, set_has [CWord; CChar 45; CSpace] y = true →
                      (place_char y || is_space y) = true).
  { intros y. unfold set_has, place_char. simpl. rewrite orb_false_r.
    destruct (is_word y), (y =? 45), (is_space y); simpl; try done;
      by rewrite ?orb_true_r. }
  assert (Hsp : ∀ y, is_space y = true → upper_c y = y ∧ lower_c y = y).
  { intros y Hy. by apply not_alpha_fixed, is_space_not_alpha. }
  unfold set_matches. intros H.
  apply orb_true_iff in H as [H | H]; [apply orb_true_iff in H as [H | H] |];
    apply Hset in H; [done | |].
  - apply orb_true_iff in H as [H | H].
    + by rewrite place_char_lower in H; rewrite H.
    + destruct (is_alpha c) eqn:Ha.
      * unfold place_char, is_word. by rewrite Ha.
      * destruct (not_alpha_fixed c Ha) as [_ E]. rewrite E in H. by rewrite H, orb_true_r.
  - apply orb_true_iff in H as [H | H].
    + by rewrite place_char_upper in H; rewrite H.
    + destruct (is_alpha c) eqn:Ha.
      * unfold place_char, is_word. by rewrite Ha.
      * destruct (not_alpha_fixed c Ha) as [E _]. rewrite E in H. by rewrite H, orb_true_r.
Qed.

(** What the pattern of a place can capture: a letter, then word
    characters, hyphens and whitespace. *)
Lemma place_body_lang (r : regex) (g : str) :
  place_body r = true → lang true r g →
  ∃ c g', g = c :: g' ∧ is_alpha c = true
          ∧ Forall (fun x => (place_char x || is_space x) = true) g'.
Proof.
  intros Hr. unfold place_body in Hr.
  repeat match type of Hr with
         | match ?x with _ => _ end = true => destruct x; try discriminate
         end.
  match goal with
  | |- lang true (RCat _ ?body) g → _ =>
      intros (w1 & w2 & -> & (c & -> & Hc) & Hw2);
      exists c, w2; split; [done |]; split; [by apply letter_set |];
      apply (lang_leaves true _ body w2); [| exact Hw2]
  end.
  cbn [leaves]. exact place_set.
Qed.

(** ** Title case *)

Lemma title_from_length (s : str) : ∀ b, length (title_from b s) = length s.
Proof. induction s as [| c s IH]; intros b; simpl; [done | by rewrite IH]. Qed.

Lemma title_from_twice (s : str) :
  ∀ b, title_from b (title_from b s) = title_from b s.
Proof.
  induction s as [| c s IH]; intros b; cbn [title_from]; [done |].
  destruct b.
  - rewrite is_alpha_lower, IH. f_equal. letter_cases c; try done.
    assert (is_upper (c + 32) = false) as -> by digit_facts. done.
  - rewrite is_alpha_upper, IH. f_equal. letter_cases c; try done.
    assert (is_lower (c - 32) = false) as -> by digit_facts. done.
Qed.

Lemma title_from_spacing (s : str) :
  ∀ b p, spacing_from p (title_from b s) = spacing_from p s.
Proof.
  induction s as [| c s IH]; intros b p; cbn [title_from spacing_from]; [done |].
  set (c' := if b then lower_c c else upper_c c).
  destruct (is_space c) eqn:Hc.
  - destruct (not_alpha_fixed c (is_space_not_alpha c Hc)) as [Eu El].
    assert (c' = c) as -> by (unfold c'; destruct b; done).
    by rewrite Hc, IH.
  - assert (is_space c' = false) as ->; [| apply IH].
    destruct (is_alpha c) eqn:Ha.
    + destruct (is_space c') eqn:Hs; [| done].
      apply is_space_not_alpha in Hs. unfold c' in Hs.
      destruct b; [rewrite is_alpha_lower in Hs | rewrite is_alpha_upper in Hs]; congruence.
    + destruct (not_alpha_fixed c Ha) as [Eu El]. unfold c'. destruct b; congruence.
Qed.

Lemma title_from_chars (s : str) :
  ∀ b, Forall (fun x => place_char x = true) s →
       Forall (fun x => place_char x = true) (title_from b s).
Proof.
  induction s as [| c s IH]; intros b Hs; cbn [title_from]; [done |].
  apply Forall_cons in Hs as [Hc Hs]. constructor; [| by apply IH].
  destruct b; by rewrite ?place_char_lower, ?place_char_upper.
Qed.

Lemma spacing_blank (s : str) (x : N) :
  ∀ b, spacing_from b s = true → x ∈ s → is_space x = true → x = 32.
Proof.
  induction s as [| c s IH]; intros b Hs Hx Hsp; [by apply elem_of_nil in Hx |].
  cbn [spacing_from] in Hs. apply elem_of_cons in Hx as [-> | Hx].
  - rewrite Hsp in Hs. apply andb_true_iff in Hs as [Hs _].
    apply andb_true_iff in Hs as [_ Hs]. by apply N.eqb_eq.
  - destruct (is_space c); [| by eapply IH].
    apply andb_true_iff in Hs as [_ Hs]. by eapply IH.
Qed.

Lemma alpha_upper (c : N) : is_alpha c = true → is_upper (upper_c c) = true.
Proof.
  unfold is_alpha. letter_cases c; try done. intros _. digit_facts.
Qed.

Lemma alpha_place (c : N) : is_alpha c = true → place_char c = true.
Proof. unfold place_char, is_word. by intros ->. Qed.

(** The title-cased, cleaned text of a captured place. *)
Lemma place_shape (g : str) (c : N) (g' : str) :
  g = c :: g' → is_alpha c = true →
  Forall (fun x => (place_char x || is_space x) = true) g' →
  normal_spacing (title (_clean g)) = true
  ∧ title (title (_clean g)) = title (_clean g)
  ∧ Forall (fun x => place_char x = true) (title (_clean g))
  ∧ ∃ c' d', title (_clean g) = c' :: d' ∧ is_upper c' = true.
Proof.
  intros Hg Hc Hg'.
  destruct (_clean_spacing g) as [Hsp Hns].
  assert (Hcs : is_space c = false).
  { destruct (is_space c) eqn:E; [| done]. apply is_space_not_alpha in E. congruence. }
  assert (Hchars : Forall (fun x => place_char x = true) (_clean g)).
  { apply Forall_forall. intros y Hy.
    destruct (_clean_chars g y Hy) as [Hin | ->]; [| done].
    rewrite Hg in Hin. apply elem_of_cons in Hin as [-> | Hin]; [by apply alpha_place |].
    eapply Forall_forall in Hg'; [| exact Hin].
    apply orb_true_iff in Hg' as [? | Hs]; [done |].
    assert (y = 32) as ->; [| done].
    destruct (_clean g) as [| x s] eqn:E; [by apply elem_of_nil in Hy |].
    by apply (spacing_blank (x :: s) y true). }
  destruct (_clean g) as [| x s] eqn:E.
  { rewrite Hg in Hns. unfold nonspace in Hns. cbn [List.filter] in Hns.
    rewrite Hcs in Hns. discriminate. }
  assert (Hx : x = c).
  { cbn [normal_spacing spacing_from] in Hsp. destruct (is_space x) eqn:Hxs; [done |].
    rewrite Hg in Hns. unfold nonspace in Hns. cbn [List.filter] in Hns.
    rewrite Hxs, Hcs in Hns. cbn [negb] in Hns. by injection Hns. }
  subst x. unfold title. split; [| split; [| split]].
  - change (spacing_from true (title_from false (c :: s)) = true).
    rewrite title_from_spacing. exact Hsp.
  - apply title_from_twice.
  - by apply title_from_chars.
  - cbn [title_from]. eexists _, _. split; [done |]. by apply alpha_upper.
Qed.

(** X20. A destination or a departure city, when one is found, is never
    empty: it starts with a capital letter, is written with letters, digits,
    underscores, hyphens and single blanks only, and is in title case.
    Stated for requests in ASCII, where the model of the character classes
    is exact. *)
Theorem place_names_are_tidy (text d : str) :
  Forall (fun c => c < 128) text →
  _find_destination text = Ok (Some d) ∨ _find_departure_city text = Ok (Some d) →
  normal_spacing d = true ∧ title d = d
  ∧ Forall (fun x => place_char x = true) d
  ∧ ∃ c d', d = c :: d' ∧ is_upper c = true.
Proof.
  intros _ H.
  assert (Hg : ∃ r m g, search true r text = Some m ∧ group_is place_body 1 r = true
                        ∧ group m 1 = Some g ∧ d = title (_clean g)).
  { destruct H as [H | H]; [unfold _find_destination in H | unfold _find_departure_city in H].
    - destruct (search true destination_re text) as [m |] eqn:Hm; [| discriminate].
      unfold group_str in H. destruct (group m 1) as [g |] eqn:Hg; [| discriminate].
      cbn [mbind result_bind] in H. injection H as <-.
      exists destination_re, m, g. split; [done |]. split; [by vm_compute | done].
    - destruct (search true departure_re text) as [m |] eqn:Hm; [| discriminate].
      unfold group_str in H. destruct (group m 1) as [g |] eqn:Hg; [| discriminate].
      cbn [mbind result_bind] in H. injection H as <-.
      exists departure_re, m, g. split; [done |]. split; [by vm_compute | done]. }
  destruct Hg as (r & m & g & Hm & Hr & Hg & ->).
  destruct (group_text true r text m place_body 1 g Hm Hr Hg) as (r1 & Hr1 & Hl).
  destruct (place_body_lang r1 g Hr1 Hl) as (c & g' & E & Hc & Hg').
  by apply (place_shape g c g').
Qed.

Lemma place_names_are_tidy_witness :
  Forall (fun c => c < 128) (U "a trip to new york for two")
  ∧ (_find_destination (U "a trip to new york for two") = Ok (Some (U "New York"))
     ∨ _find_departure_city (U "a trip to new york for two") = Ok (Some (U "New York")))
  ∧ normal_spacing (U "New York") = true ∧ title (U "New York") = U "New York"
  ∧ Forall (fun x => place_char x = true) (U "New York")
  ∧ ∃ c d', U "New York" = c :: d' ∧ is_upper c = true.
Proof.
  assert (H1 : Forall (fun c => c < 128) (U "a trip to new york for two"))
    by (apply (bool_decide_unpack _); vm_compute; exact I).
  assert (H2 : _find_destination (U "a trip to new york for two") = Ok (Some (U "New York"))
               ∨ _find_departure_city (U "a trip to new york for two")
                 = Ok (Some (U "New York")))
    by (left; vm_compute; reflexivity).
  exact (conj H1 (conj H2 (place_names_are_tidy _ _ H1 H2))).
Defined.

(** ** Constraints start with their keyword *)

Lemma lang_literal_prefix (r : regex) :
  ∀ w, lang true r w →
       ∃ k rest, w = k ++ rest ∧ lower k = lower (literal_prefix r).
Proof.
  assert (Hnone : ∀ w : str, ∃ k rest, w = k ++ rest ∧ lower k = lower []).
  { intros w. by exists [], w. }
  induction r as [| | x | | negated items | r1 IH1 r2 IH2 | r1 IH1 r2 IH2
                 | lo hi greedy r1 IH1 | idx r1 IH1 | r1 IH1 | |];
    intros w Hw; try apply Hnone.
  - destruct Hw as (c & -> & Hc). exists [c], []. split; [done |].
    apply N.eqb_eq in Hc. unfold lower. simpl. by rewrite Hc.
  - destruct Hw as (w1 & w2 & -> & H1 & H2).
    destruct r1 as [| | y | | | | | | | | |]; try apply Hnone.
    + destruct H1 as (c & -> & Hc). destruct (IH2 w2 H2) as (k & rest & -> & Hk).
      exists (c :: k), rest. split; [done |]. apply N.eqb_eq in Hc.
      cbn [literal_prefix]. unfold lower in *. cbn [map]. by rewrite Hc, Hk.
    + simpl in H1. subst w1. cbn [literal_prefix app]. by apply IH2.
Qed.

Lemma is_space_lower (c : N) : is_space (lower_c c) = is_space c.
Proof.
  destruct (is_alpha c) eqn:Ha.
  - destruct (is_space c) eqn:Hs; [apply is_space_not_alpha in Hs; congruence |].
    destruct (is_space (lower_c c)) eqn:Hl; [| done].
    apply is_space_not_alpha in Hl. rewrite is_alpha_lower in Hl. congruence.
  - by destruct (not_alpha_fixed c Ha) as [_ ->].
Qed.

Lemma lstrip_snoc (l : str) (c : N) :
  is_space c = false → lstrip (l ++ [c]) = lstrip l ++ [c].
Proof.
  intros Hc. induction l as [| x l IH]; cbn [lstrip app]; [by rewrite Hc |].
  destruct (is_space x); done.
Qed.

Lemma rstrip_cons (c : N) (s : str) :
  is_space c = false → rstrip (c :: s) = c :: rstrip s.
Proof.
  intros Hc. unfold rstrip. cbn [rev]. rewrite lstrip_snoc by done.
  by rewrite rev_app_distr.
Qed.

(** Cleaning leaves alone a head without whitespace. *)
Lemma _clean_prefix (k t : str) :
  k ≠ [] → Forall (fun c => is_space c = false) k →
  ∃ u, _clean (k ++ t) = k ++ u.
Proof.
  intros Hne Hk. rewrite _clean_collapse. unfold strip.
  rewrite (lstrip_fixed (k ++ t)) by (destruct Hk; done).
  exists (collapse false (rstrip t)). clear Hne.
  induction Hk as [| c k Hc Hk IH]; [done |].
  cbn [app]. rewrite rstrip_cons by done. cbn [collapse]. by rewrite Hc, IH.
Qed.

Lemma constraint_keywords_words :
  Forall (fun kw => ∃ w, w ∈ constraint_words
                         ∧ lower (take (length w) (literal_prefix (constraint_re kw))) = w
                         ∧ (length w <= length (literal_prefix (constraint_re kw)))%nat
                         ∧ w ≠ []
                         ∧ forallb (fun c => negb (is_space c)) w = true)
         constraint_keywords.
Proof.
  assert (Hone : ∀ kw w : str,
            bool_decide (w ∈ constraint_words) = true →
            bool_decide (lower (take (length w) (literal_prefix (constraint_re kw))) = w)
              && (length w <=? length (literal_prefix (constraint_re kw)))%nat
              && negb (bool_decide (w = []))
              && forallb (fun c => negb (is_space c)) w = true →
            ∃ w, w ∈ constraint_words
                 ∧ lower (take (length w) (literal_prefix (constraint_re kw))) = w
                 ∧ (length w <= length (literal_prefix (constraint_re kw)))%nat
                 ∧ w ≠ []
                 ∧ forallb (fun c => negb (is_space c)) w = true).
  { intros kw w Hin H. exists w.
    apply andb_true_iff in H as [H H4]. apply andb_true_iff in H as [H H3].
    apply andb_true_iff in H as [H1 H2].
    split_and!; [by apply bool_decide_eq_true in Hin | | by apply Nat.leb_le | | done].
    - by apply bool_decide_eq_true in H1.
    - apply negb_true_iff in H3. by apply bool_decide_eq_false in H3. }
  repeat constructor.
  - by apply (Hone _ (U "must")); vm_compute.
  - by apply (Hone _ (U "need")); vm_compute.
  - by apply (Hone _ (U "avoid")); vm_compute.
  - by apply (Hone _ (U "no")); vm_compute.
  - by apply (Hone _ (U "prefer")); vm_compute.
  - by apply (Hone _ (U "nonstop")); vm_compute.
  - by apply (Hone _ (U "non-stop")); vm_compute.
Qed.

(** X21. On a request in ASCII, every constraint is normally spaced and
    starts, up to letter case, with one of the words must, need, avoid, no,
    prefer, nonstop and non-stop. *)
Theorem constraints_start_with_keyword (text c : str) :
  Forall (fun x => x < 128) text →
  c ∈ _find_constraints text →
  normal_spacing c = true
  ∧ ∃ w, w ∈ constraint_words ∧ lower (take (length w) c) = w.
Proof.
  intros _ Hc.
  assert (Hcand : c ∈ constraint_candidates text).
  { eapply elem_of_sublist; [exact Hc |].
    apply (dedup_spec (constraint_candidates text) ∅). }
  unfold constraint_candidates in Hcand.
  apply list_elem_of_In, in_flat_map in Hcand as (kw & Hkw & Hm).
  apply in_map_iff in Hm as (m & <- & Hm).
  split; [apply _clean_spacing |].
  apply list_elem_of_In, finditer_sound in Hm as [_ Hl].
  pose proof constraint_keywords_words as Hwords.
  eapply Forall_forall in Hwords; [| by apply list_elem_of_In].
  destruct Hwords as (w & Hw & Hpre & Hlen & Hne & Hns).
  exists w. split; [done |].
  destruct (lang_literal_prefix _ _ Hl) as (k & rest & Hg & Hk).
  assert (Hkl : length k = length (literal_prefix (constraint_re kw))).
  { apply (f_equal length) in Hk. unfold lower in Hk. by rewrite !length_map in Hk. }
  assert (Hlow : lower (take (length w) k) = w).
  { unfold lower in *. by rewrite <- firstn_map, Hk, firstn_map. }
  assert (Hsp : Forall (fun c => is_space c = false) (take (length w) k)).
  { apply Forall_forall. intros x Hx.
    rewrite forallb_forall in Hns. rewrite <- is_space_lower.
    apply negb_true_iff, Hns. rewrite <- Hlow. unfold lower.
    apply in_map. by apply list_elem_of_In. }
  destruct (_clean_prefix (take (length w) k) (drop (length w) k ++ rest)) as (u & Hu).
  { intros E. apply (f_equal length) in E. rewrite length_take in E.
    assert (0 < length w)%nat by (destruct w; [done | simpl; lia]).
    simpl in E. lia. }
  { done. }
  rewrite Hg, <- (take_drop (length w) k), <- app_assoc, Hu.
  rewrite take_app_length'; [done |]. rewrite length_take. lia.
Qed.

Lemma constraints_start_with_keyword_witness :
  Forall (fun x => x < 128) (U "Must   avoid red-eye flights, please.")
  ∧ U "Must avoid red-eye flights" ∈ _find_constraints (U "Must   avoid red-eye flights, please.")
  ∧ normal_spacing (U "Must avoid red-eye flights") = true
  ∧ ∃ w, w ∈ constraint_words ∧ lower (take (length w) (U "Must avoid red-eye flights")) = w.
Proof.
  assert (H0 : Forall (fun x => x < 128) (U "Must   avoid red-eye flights, please."))
    by (apply (bool_decide_unpack _); vm_compute; exact I).
  assert (H : U "Must avoid red-eye flights"
              ∈ _find_constraints (U "Must   avoid red-eye flights, please."))
    by (apply (bool_decide_unpack _); vm_compute; exact I).
  exact (conj H0 (conj H (constraints_start_with_keyword _ _ H0 H))).
Defined.

(** ** Letter case does not matter *)

Lemma lower_c_idem (c : N) : lower_c (lower_c c) = lower_c c.
Proof.
  letter_cases c; try done. assert (is_upper (c + 32) = false) as -> by digit_facts. done.
Qed.

Lemma lower_idem (s : str) : lower (lower s) = lower s.
Proof. unfold lower. rewrite map_map. apply map_ext. intros c. apply lower_c_idem. Qed.

Lemma is_word_lower (c : N) : is_word (lower_c c) = is_word c.
Proof.
  unfold is_word, is_alpha, is_digit. letter_cases c; try done; digit_facts.
Qed.

Lemma newline_lower (c : N) : (lower_c c =? 10) = (c =? 10).
Proof. letter_cases c; try done; digit_facts. Qed.

Lemma lit_matches_lower (p c : N) : lit_matches true p (lower_c c) = lit_matches true p c.
Proof. unfold lit_matches. by rewrite lower_c_idem. Qed.

Lemma set_matches_lower (negated : bool) (items : list cset_item) (c : N) :
  set_matches true negated items (lower_c c) = set_matches true negated items c.
Proof.
  unfold set_matches. destruct (is_upper c) eqn:Hu.
  - assert (E1 : lower_c c = c + 32) by (unfold lower_c; by rewrite Hu).
    apply is_upper_bounds in Hu.
    assert (E2 : lower_c (c + 32) = c + 32).
    { unfold lower_c. assert (is_upper (c + 32) = false) as -> by digit_facts. done. }
    assert (E3 : upper_c (c + 32) = c).
    { unfold upper_c. assert (is_lower (c + 32) = true) as -> by digit_facts. lia. }
    assert (E4 : upper_c c = c).
    { unfold upper_c. assert (is_lower c = false) as -> by digit_facts. done. }
    rewrite E1, E2, E3, E4.
    destruct (set_has items c), (set_has items (c + 32)); reflexivity.
  - assert (E : lower_c c = c) by (unfold lower_c; by rewrite Hu). by rewrite !E.
Qed.

Lemma step_char_lower (p : N → bool) (k k' : mstate → option mstate) (s : mstate) :
  (∀ c, p (lower_c c) = p c) →
  (∀ s0, k' (lower_state s0) = lower_state <$> k s0) →
  step_char p k' (lower_state s) = lower_state <$> step_char p k s.
Proof.
  intros Hp Hk. unfold step_char. destruct s as [pos prev rest caps].
  destruct rest as [| c rest]; [done |]. cbn [lower_state ms_rest ms_pos ms_prev ms_caps].
  unfold lower. cbn [map]. rewrite Hp. destruct (p c); [| done].
  apply (Hk (advance (MState pos prev (c :: rest) caps) c rest)).
Qed.

Lemma or_else_lower (a b : option mstate) :
  or_else (lower_state <$> a) (lower_state <$> b) = lower_state <$> or_else a b.
Proof. by destruct a. Qed.

Lemma rounds_lower (step step' : (mstate → option mstate) → mstate → option mstate)
    (lo : nat) (hi : option nat) (greedy : bool) (k k' : mstate → option mstate) :
  (∀ k0 k0' s0, (∀ s1, k0' (lower_state s1) = lower_state <$> k0 s1) →
                step' k0' (lower_state s0) = lower_state <$> step k0 s0) →
  (∀ s0, k' (lower_state s0) = lower_state <$> k s0) →
  ∀ fuel done s,
    rounds step' lo hi greedy k' fuel done (lower_state s)
    = lower_state <$> rounds step lo hi greedy k fuel done s.
Proof.
  intros Hstep Hk. induction fuel as [| fuel IH]; intros done s.
  - cbn [rounds]. destruct (done <? lo)%nat; [done |]. rewrite Hk.
    destruct greedy; [done |]. by destruct (k s).
  - rewrite !rounds_S. cbv zeta.
    assert (Hmore :
      (if match hi with Some h => (h <=? done)%nat | None => false end then None
       else step' (fun s' => if (done <? lo)%nat || (ms_pos (lower_state s) <? ms_pos s')%nat
                             then rounds step' lo hi greedy k' fuel (S done) s'
                             else None) (lower_state s))
      = lower_state <$>
        (if match hi with Some h => (h <=? done)%nat | None => false end then None
         else step (fun s' => if (done <? lo)%nat || (ms_pos s <? ms_pos s')%nat
                              then rounds step lo hi greedy k fuel (S done) s'
                              else None) s)).
    { destruct (match hi with Some h => (h <=? done)%nat | None => false end); [done |].
      apply Hstep. intros s1. cbn [lower_state ms_pos].
      destruct ((done <? lo)%nat || (ms_pos s <? ms_pos s1)%nat); [apply IH | done]. }
    rewrite Hmore. destruct (done <? lo)%nat; [done |]. rewrite Hk.
    destruct greedy; apply or_else_lower.
Qed.

(** The matcher takes the same steps on a text and on its lower-cased
    form. *)
Lemma rmatch_lower (r : regex) :
  ∀ (k k' : mstate → option mstate) (s : mstate),
    (∀ s0, k' (lower_state s0) = lower_state <$> k s0) →
    rmatch true r k' (lower_state s) = lower_state <$> rmatch true r k s.
Proof.
  induction r as [| | p | | negated items | r1 IH1 r2 IH2 | r1 IH1 r2 IH2
                 | lo hi greedy r1 IH1 | idx r1 IH1 | r1 IH1 | |];
    intros k k' s Hk; cbn [rmatch].
  - apply Hk.
  - done.
  - apply step_char_lower; [apply lit_matches_lower | done].
  - apply step_char_lower; [| done]. intros c. by rewrite newline_lower.
  - apply step_char_lower; [apply set_matches_lower | done].
  - apply IH1. intros s0. by apply IH2.
  - rewrite (IH1 k k' s Hk), (IH2 k k' s Hk). apply or_else_lower.
  - assert (length (ms_rest (lower_state s)) = length (ms_rest s)) as ->
      by (destruct s; apply length_map).
    apply rounds_lower; [| done]. intros k0 k0' s0 Hk0. by apply IH1.
  - apply IH1. intros s0. apply (Hk (set_cap idx (ms_pos s) s0)).
  - rewrite (IH1 Some Some s) by done.
    destruct (rmatch true r1 Some s) as [s' |]; [| done]. cbn [fmap option_fmap option_map].
    apply (Hk (MState (ms_pos s) (ms_prev s) (ms_rest s) (ms_caps s'))).
  - destruct s as [pos prev rest caps]. cbn [lower_state ms_prev ms_rest].
    assert (word_opt (lower_c <$> prev) = word_opt prev) as ->
      by (destruct prev; [apply is_word_lower | done]).
    assert (word_opt (head (lower rest)) = word_opt (head rest)) as ->
      by (destruct rest; [done | apply is_word_lower]).
    destruct (xorb _ _); [| done]. apply (Hk (MState pos prev rest caps)).
  - destruct s as [pos prev rest caps]. cbn [lower_state ms_rest].
    destruct rest as [| c [| d rest]]; cbn [lower map].
    + apply (Hk (MState pos prev [] caps)).
    + rewrite newline_lower. destruct (c =? 10); [| done].
      apply (Hk (MState pos prev [c] caps)).
    + done.
Qed.

Lemma search_at_lower (r : regex) (rest : str) :
  ∀ (pos : nat) (prev : option N),
    search_at true r pos (lower_c <$> prev) (lower rest)
    = (fun p => (p.1, lower_state p.2)) <$> search_at true r pos prev rest.
Proof.
  induction rest as [| c rest IH]; intros pos prev.
  - pose proof (rmatch_lower r Some Some (MState pos prev [] []) ltac:(done)) as H.
    unfold lower_state, lower in H. cbn [ms_pos ms_prev ms_rest ms_caps map] in H.
    unfold lower. cbn [map search_at]. rewrite H.
    match goal with
    | |- context [rmatch true r Some ?s] => destruct (rmatch true r Some s)
    end; reflexivity.
  - pose proof (rmatch_lower r Some Some (MState pos prev (c :: rest) []) ltac:(done)) as H.
    unfold lower_state, lower in H. cbn [ms_pos ms_prev ms_rest ms_caps map] in H.
    unfold lower. cbn [map search_at]. rewrite H.
    match goal with
    | |- context [rmatch true r Some ?s] => destruct (rmatch true r Some s)
    end; [reflexivity |]. apply (IH (S pos) (Some c)).
Qed.

Lemma search_lower (r : regex) (text : str) :
  search true r (lower text) = lower_match <$> search true r text.
Proof.
  unfold search. pose proof (search_at_lower r text 0 None) as H.
  cbn [fmap option_fmap option_map] in H. rewrite H.
  destruct (search_at true r 0 None text) as [[i s'] |]; reflexivity.
Qed.

Lemma is_match_lower (r : regex) (text : str) :
  is_match (search true r (lower text)) = is_match (search true r text).
Proof. rewrite search_lower. by destruct (search true r text). Qed.

Lemma slice_lower (s : str) (i j : nat) : slice (lower s) i j = lower (slice s i j).
Proof. unfold slice, lower. by rewrite skipn_map, firstn_map. Qed.

Lemma group_lower (m : match_obj) (idx : nat) :
  group (lower_match m) idx = lower <$> group m idx.
Proof.
  unfold group. cbn [lower_match m_caps m_string].
  destruct (cap_lookup idx (m_caps m)) as [[i j] |]; [| done].
  cbn [fmap option_fmap option_map]. by rewrite slice_lower.
Qed.

Lemma group_str_lower (m : match_obj) (idx : nat) :
  group_str (lower_match m) idx = lower <$> group_str m idx.
Proof. unfold group_str. rewrite group_lower. by destruct (group m idx). Qed.

Lemma group0_lower (m : match_obj) : group0 (lower_match m) = lower (group0 m).
Proof. unfold group0. cbn [lower_match m_string m_start m_end]. apply slice_lower. Qed.

Lemma finditer_at_lower (r : regex) (text : str) :
  ∀ (fuel pos : nat) (prev : option N) (rest : str),
    finditer_at fuel true r (lower text) pos (lower_c <$> prev) (lower rest)
    = map lower_match (finditer_at fuel true r text pos prev rest).
Proof.
  induction fuel as [| fuel IH]; intros pos prev rest; cbn [finditer_at]; [done |].
  rewrite (search_at_lower r rest pos prev).
  destruct (search_at true r pos prev rest) as [[i s'] |];
    cbn [fmap option_fmap option_map fst snd]; [| done].
  destruct s' as [p q t caps].
  cbn [lower_state ms_pos ms_prev ms_rest ms_caps]. cbv zeta.
  destruct (i <? p)%nat.
  - cbn [map]. f_equal. apply IH.
  - destruct t as [| c t]; [done |]. unfold lower at 2. cbn [map]. f_equal.
    apply (IH (S p) (Some c) t).
Qed.

Lemma finditer_lower (r : regex) (text : str) :
  finditer true r (lower text) = map lower_match (finditer true r text).
Proof.
  unfold finditer. unfold lower at 1. rewrite length_map.
  apply (finditer_at_lower r text (S (length text)) 0 None text).
Qed.

(** *** Cleaning and title case *)

Lemma lstrip_lower (s : str) : lstrip (lower s) = lower (lstrip s).
Proof.
  unfold lower. induction s as [| c s IH]; [done |]. cbn [map lstrip].
  rewrite is_space_lower. destruct (is_space c); done.
Qed.

Lemma strip_lower (s : str) : strip (lower s) = lower (strip s).
Proof.
  assert (Hrev : ∀ l : str, rev (lower l) = lower (rev l)).
  { intros l. unfold lower. symmetry. apply map_rev. }
  unfold strip, rstrip. by rewrite lstrip_lower, Hrev, lstrip_lower, Hrev.
Qed.

Lemma collapse_lower (s : str) : ∀ b, collapse b (lower s) = lower (collapse b s).
Proof.
  unfold lower. induction s as [| c s IH]; intros b; [done |]. cbn [map collapse].
  rewrite is_space_lower. destruct (is_space c); [destruct b |]; cbn [map]; by rewrite IH.
Qed.

Lemma _clean_lower (s : str) : _clean (lower s) = lower (_clean s).
Proof. by rewrite !_clean_collapse, strip_lower, collapse_lower. Qed.

Lemma title_from_lower (s : str) : ∀ b, title_from b (lower s) = title_from b s.
Proof.
  unfold lower. induction s as [| c s IH]; intros b; [done |]. cbn [map title_from].
  rewrite is_alpha_lower, IH. f_equal. destruct b; [apply lower_c_idem |].
  letter_cases c; try done. assert (is_lower (c + 32) = true) as -> by digit_facts. lia.
Qed.

Lemma lower_digits (g : str) : Forall (fun c => is_digit c = true) g → lower g = g.
Proof.
  unfold lower. induction 1 as [| c g Hc _ IH]; [done |]. cbn [map]. rewrite IH.
  f_equal. unfold lower_c. by rewrite digit_not_upper.
Qed.

Lemma find_ext {A : Type} (f g : A → bool) (l : list A) :
  (∀ x, f x = g x) → List.find f l = List.find g l.
Proof. intros H. induction l as [| x l IH]; [done |]. simpl. by rewrite H, IH. Qed.

Lemma existsb_eq {A : Type} (f g : A → bool) (l : list A) :
  (∀ x, f x = g x) → existsb f l = existsb g l.
Proof. intros H. induction l as [| x l IH]; [done |]. simpl. by rewrite H, IH. Qed.

(** *** The extractors on the lower-cased request *)

Lemma place_lower (r : regex) (text : str) :
  match search true r (lower text) with
  | Some m => g ← group_str m 1; Ok (Some (title (_clean g)))
  | None => Ok None
  end
  = match search true r text with
    | Some m => g ← group_str m 1; Ok (Some (title (_clean g)))
    | None => Ok None
    end.
Proof.
  rewrite search_lower. destruct (search true r text) as [m |]; [| done].
  cbn [fmap option_fmap option_map]. rewrite group_str_lower.
  destruct (group_str m 1) as [g | e]; [| done]. cbn [fmap result_fmap mbind result_bind].
  unfold title. by rewrite _clean_lower, title_from_lower.
Qed.

Lemma digits_group_lower (r : regex) (text : str) (m : match_obj) :
  search true r text = Some m → group_is digits_body 1 r = true →
  group_str (lower_match m) 1 = group_str m 1.
Proof.
  intros Hm Hr. rewrite group_str_lower. unfold group_str.
  destruct (group m 1) as [g |] eqn:Hg; [| done]. cbn [fmap result_fmap].
  destruct (digit_group true r text m 1 g Hm Hr Hg) as [_ Hd].
  by rewrite lower_digits.
Qed.

Lemma _find_duration_days_lower (text : str) :
  _find_duration_days (lower text) = _find_duration_days text.
Proof.
  unfold _find_duration_days. rewrite search_lower.
  destruct (search true duration_digits_re text) as [m |] eqn:Hm;
    cbn [fmap option_fmap option_map].
  - by rewrite (digits_group_lower _ _ _ Hm eq_refl).
  - do 2 f_equal. apply find_ext. intros [w n]. apply is_match_lower.
Qed.

Lemma _find_travelers_lower (text : str) :
  _find_travelers (lower text) = _find_travelers text.
Proof.
  unfold _find_travelers. cbv zeta. rewrite !search_lower.
  destruct (search true family_re text) as [m |] eqn:Hm;
    cbn [fmap option_fmap option_map].
  { by rewrite (digits_group_lower _ _ _ Hm eq_refl). }
  destruct (search true n_people_re text) as [m1 |] eqn:Hm1;
    cbn [fmap option_fmap option_map].
  { by rewrite (digits_group_lower _ _ _ Hm1 eq_refl). }
  rewrite (find_ext _ (fun '(w, n) => is_match (search true (word_people_re w) text)))
    by (intros [w n]; apply is_match_lower).
  destruct (List.find _ WORD_NUMS) as [[w n] |]; [done |].
  destruct (search true for_n_re text) as [m2 |] eqn:Hm2;
    cbn [fmap option_fmap option_map].
  { rewrite group_str_lower. destruct (group_str m2 1) as [g | e]; [| done].
    cbn [fmap result_fmap mbind result_bind]. by rewrite lower_idem. }
  by destruct (search true couple_re text).
Qed.

Lemma _normalize_budget_number_lower (g : str) :
  _normalize_budget_number (lower g) = _normalize_budget_number g.
Proof. unfold _normalize_budget_number. by rewrite lower_idem. Qed.

Lemma budget_by_sign_lower (signs : list (str * str)) (text : str) :
  budget_by_sign signs (lower text) = budget_by_sign signs text.
Proof.
  induction signs as [| [sign code_] signs IH]; [done |]. cbn [budget_by_sign].
  rewrite search_lower, IH.
  destruct (search true (sign_re sign) text) as [m |]; [| done].
  cbn [fmap option_fmap option_map]. rewrite group_str_lower.
  destruct (group_str m 1) as [g | e]; [| done]. cbn [fmap result_fmap mbind result_bind].
  rewrite strip_lower, _normalize_budget_number_lower.
  by destruct (strip g).
Qed.

Lemma budget_band_lower (text : str) : budget_band (lower text) = budget_band text.
Proof. unfold budget_band. by rewrite !is_match_lower. Qed.

Lemma _find_budget_lower (text : str) : _find_budget (lower text) = _find_budget text.
Proof.
  unfold _find_budget. rewrite budget_by_sign_lower, !search_lower, budget_band_lower.
  destruct (budget_by_sign CURRENCY_SIGNS text) as [[b |] | e]; [done | | done].
  cbn [mbind result_bind].
  destruct (search true currency_word_re text) as [m |]; cbn [fmap option_fmap option_map].
  { rewrite !group_str_lower.
    destruct (group_str m 1) as [g1 | e]; [| done]. cbn [fmap result_fmap mbind result_bind].
    rewrite _normalize_budget_number_lower.
    destruct (_normalize_budget_number g1) as [amt | e]; [| done].
    cbn [mbind result_bind].
    destruct (group_str m 2) as [g2 | e]; [| done]. cbn [fmap result_fmap mbind result_bind].
    by rewrite lower_idem. }
  destruct (search true budget_number_re text) as [m |]; cbn [fmap option_fmap option_map];
    [| done].
  rewrite group_str_lower.
  destruct (group_str m 1) as [g | e]; [| done]. cbn [fmap result_fmap mbind result_bind].
  by rewrite _normalize_budget_number_lower.
Qed.

Lemma _find_interests_lower (text : str) :
  _find_interests (lower text) = _find_interests text.
Proof.
  unfold _find_interests. cbv zeta. f_equal.
  generalize (∅ : gset str). induction INTEREST_KEYWORDS as [| [tag words] kw IH];
    intros acc; [done |].
  cbn [foldl]. rewrite (existsb_eq _ (fun w => is_match (search true (interest_re w) text)))
    by (intros w; apply is_match_lower).
  apply IH.
Qed.

Lemma dedup_lower (cs : list str) :
  ∀ seen, dedup seen (map lower cs) = map lower (dedup seen cs).
Proof.
  induction cs as [| c cs IH]; intros seen; [done |]. cbn [map dedup].
  rewrite lower_idem. destruct (decide (lower c ∈ seen)); [apply IH |].
  cbn [map]. by rewrite IH.
Qed.

Lemma _find_constraints_lower (text : str) :
  _find_constraints (lower text) = map lower (_find_constraints text).
Proof.
  unfold _find_constraints. cbv zeta. rewrite <- dedup_lower. f_equal.
  induction constraint_keywords as [| kw kws IH]; [done |].
  cbn [flat_map]. rewrite map_app, IH. f_equal.
  rewrite finditer_lower, !map_map. apply map_ext. intros m.
  by rewrite group0_lower, _clean_lower.
Qed.

(** X22. Letter case does not matter to the extractors that match with
    IGNORECASE: two requests in ASCII that differ in letter case only give
    the same destination, departure city, duration, travelers, budget and
    interests, and the same constraints up to letter case. *)
Theorem letter_case_is_ignored (t1 t2 : str) :
  Forall (fun c => c < 128) t1 → Forall (fun c => c < 128) t2 →
  lower t1 = lower t2 →
  _find_destination t1 = _find_destination t2
  ∧ _find_departure_city t1 = _find_departure_city t2
  ∧ _find_duration_days t1 = _find_duration_days t2
  ∧ _find_travelers t1 = _find_travelers t2
  ∧ _find_budget t1 = _find_budget t2
  ∧ _find_interests t1 = _find_interests t2
  ∧ map lower (_find_constraints t1) = map lower (_find_constraints t2).
Proof.
  intros _ _ E. split_and!.
  - unfold _find_destination.
    by rewrite <- (place_lower destination_re t1), E, place_lower.
  - unfold _find_departure_city.
    by rewrite <- (place_lower departure_re t1), E, place_lower.
  - by rewrite <- (_find_duration_days_lower t1), E, _find_duration_days_lower.
  - by rewrite <- (_find_travelers_lower t1), E, _find_travelers_lower.
  - by rewrite <- (_find_budget_lower t1), E, _find_budget_lower.
  - by rewrite <- (_find_interests_lower t1), E, _find_interests_lower.
  - by rewrite <- !_find_constraints_lower, E.
Qed.

Lemma letter_case_is_ignored_witness :
  Forall (fun c => c < 128) (U "A Trip TO Paris FOR Two, NO red-eye flights, $3K")
  ∧ Forall (fun c => c < 128) (U "a trip to paris for two, no red-eye flights, $3k")
  ∧ lower (U "A Trip TO Paris FOR Two, NO red-eye flights, $3K")
    = lower (U "a trip to paris for two, no red-eye flights, $3k")
  ∧ _find_destination (U "A Trip TO Paris FOR Two, NO red-eye flights, $3K")
    = _find_destination (U "a trip to paris for two, no red-eye flights, $3k").
Proof.
  assert (H1 : Forall (fun c => c < 128) (U "A Trip TO Paris FOR Two, NO red-eye flights, $3K"))
    by (apply (bool_decide_unpack _); vm_compute; exact I).
  assert (H2 : Forall (fun c => c < 128) (U "a trip to paris for two, no red-eye flights, $3k"))
    by (apply (bool_decide_unpack _); vm_compute; exact I).
  assert (H3 : lower (U "A Trip TO Paris FOR Two, NO red-eye flights, $3K")
               = lower (U "a trip to paris for two, no red-eye flights, $3k"))
    by (vm_compute; reflexivity).
  exact (conj H1 (conj H2 (conj H3 (proj1 (letter_case_is_ignored _ _ H1 H2 H3))))).
Defined.

(** ** Where a search stops *)

Lemma prev_after_nil (prev : option N) : prev_after prev [] = prev.
Proof. done. Qed.


Lemma prev_after_cons (prev : option N) (c : N) (A : str) :
  prev_after prev (c :: A) = prev_after (Some c) A.
Proof.
  unfold prev_after. destruct A as [| d A]; [done |]. rewrite last_cons_cons.
  destruct (last (d :: A)) eqn:E; [done |]. by apply last_None in E.
Qed.

Lemma prev_after_last (pre A : str) : prev_after (last pre) A = last (pre ++ A).
Proof.
  unfold prev_after. rewrite last_app. by destruct (last A).
Qed.


Lemma search_at_inv (ic : bool) (r : regex) (rest : str) :
  ∀ (pos : nat) (prev : option N) (i : nat) (s' : mstate),
    search_at ic r pos prev rest = Some (i, s') →
    ∃ A B, rest = A ++ B ∧ i = (pos + length A)%nat
           ∧ rmatch ic r Some (MState i (prev_after prev A) B []) = Some s'.
Proof.
  induction rest as [| c rest IH]; intros pos prev i s'; cbn [search_at].
  - destruct (rmatch ic r Some _) as [s1 |] eqn:Hm; [| discriminate].
    intros [= <- <-]. exists [], []. by rewrite Nat.add_0_r.
  - destruct (rmatch ic r Some _) as [s1 |] eqn:Hm.
    + intros [= <- <-]. exists [], (c :: rest). by rewrite Nat.add_0_r.
    + intros H. apply IH in H as (A & B & -> & -> & H).
      exists (c :: A), B. rewrite prev_after_cons. split; [done |].
      split; [simpl; lia | done].
Qed.

Lemma search_at_some (ic : bool) (r : regex) (A B : str) (s' : mstate) :
  ∀ (pos : nat) (prev : option N),
    rmatch ic r Some (MState (pos + length A) (prev_after prev A) B []) = Some s' →
    is_Some (search_at ic r pos prev (A ++ B)).
Proof.
  induction A as [| c A IH]; intros pos prev Hhere.
  - cbn [app length] in *. rewrite Nat.add_0_r, prev_after_nil in Hhere.
    destruct B; cbn [search_at]; rewrite Hhere; cbv iota; exact (mk_is_Some _ _ eq_refl).
  - cbn [app search_at].
    match goal with
    | |- is_Some (match ?x with _ => _ end) => destruct x
    end; [exact (mk_is_Some _ _ eq_refl) |].
    apply IH. rewrite prev_after_cons in Hhere.
    by replace (pos + length (c :: A))%nat with (S pos + length A)%nat
      in Hhere by (simpl; lia).
Qed.

(** ** Whole words *)

Lemma as_word_re (r : regex) (w : str) : as_word r = Some w → r = word_re w.
Proof.
  assert (H : ∀ r w, lits_of r = Some w → r = lits w).
  { clear. induction r as [| | | | | r1 _ r2 IH | | | | | |]; intros w; try discriminate.
    - destruct r1; try discriminate. cbn [lits_of].
      destruct (lits_of r2) as [w' |]; [| discriminate]. intros [= <-].
      cbn [lits]. by rewrite (IH w').
    - by intros [= <-]. }
  destruct r as [| | | | | r1 r2 | | | | | |]; try discriminate.
  destruct r1; try discriminate. cbn [as_word]. intros Hw. unfold word_re.
  by rewrite (H r2 w).
Qed.

Lemma rmatch_lits (w : str) :
  ∀ (pos : nat) (prev : option N) (rest : str) (caps : list (nat * (nat * nat))),
    is_Some (rmatch true (lits w) Some (MState pos prev rest caps))
    ↔ word_tail w prev rest = true.
Proof.
  induction w as [| p w IH]; intros pos prev rest caps; cbn [lits rmatch word_tail].
  - cbn [ms_prev ms_rest]. destruct (xorb _ _); [| by split; [intros [? ?] |]].
    split; [done | intros _; exact (mk_is_Some _ _ eq_refl)].
  - unfold step_char. cbn [ms_rest]. destruct rest as [| c rest].
    { split; [by intros [? ?] | done]. }
    destruct (lit_matches true p c); cbn [andb].
    + apply IH.
    + split; [by intros [? ?] | done].
Qed.

Lemma rmatch_word_re (w : str) (pos : nat) (prev : option N) (rest : str)
    (caps : list (nat * (nat * nat))) :
  is_Some (rmatch true (word_re w) Some (MState pos prev rest caps))
  ↔ word_here w prev rest = true.
Proof.
  unfold word_re, word_here. cbn [rmatch ms_prev ms_rest].
  destruct (xorb _ _); cbn [andb]; [apply rmatch_lits |].
  split; [by intros [? ?] | done].
Qed.

Lemma xorb_boundary (a b : option N) :
  xorb (word_opt a) (word_opt b) = true ↔ boundary a b.
Proof. unfold boundary. destruct (word_opt a), (word_opt b); simpl; split; done. Qed.

Lemma word_tail_spec (w : str) :
  ∀ (prev : option N) (rest : str),
    word_tail w prev rest = true
    ↔ ∃ mid post, rest = mid ++ post ∧ lower mid = lower w
                  ∧ boundary (prev_after prev mid) (head post).
Proof.
  induction w as [| p w IH]; intros prev rest; cbn [word_tail].
  - rewrite xorb_boundary. split.
    + intros H. by exists [], rest.
    + intros (mid & post & -> & Hm & H). destruct mid; [done | discriminate].
  - destruct rest as [| c rest].
    { split; [done |]. intros (mid & post & E & Hm & _).
      destruct mid; [discriminate | discriminate]. }
    rewrite andb_true_iff, IH. unfold lit_matches. rewrite N.eqb_eq. split.
    + intros (Hc & mid & post & -> & Hm & Hb). exists (c :: mid), post.
      split; [done |]. unfold lower in *. cbn [map]. rewrite Hm, Hc.
      split; [done |]. by rewrite prev_after_cons.
    + intros (mid & post & E & Hm & Hb). destruct mid as [| d mid]; [discriminate |].
      injection E as <- ->. unfold lower in *. cbn [map] in Hm. injection Hm as Hc Hm.
      split; [done |]. exists mid, post. split; [done |]. split; [done |].
      by rewrite prev_after_cons in Hb.
Qed.

(** A search for [\b w \b] succeeds exactly when [w] stands in the text
    as a whole word. *)
Lemma search_word_re (w text : str) :
  is_match (search true (word_re w) text) = true ↔ whole_word_in w text.
Proof.
  unfold search, whole_word_in. split.
  - destruct (search_at true (word_re w) 0 None text) as [[i s'] |] eqn:Hs; [| done].
    intros _. apply search_at_inv in Hs as (A & B & -> & -> & Hm).
    assert (Hh : word_here w (prev_after None A) B = true).
    { apply (rmatch_word_re w (0 + length A) _ B []). by rewrite Hm. }
    unfold word_here in Hh. apply andb_true_iff in Hh as [Hb Ht].
    apply xorb_boundary in Hb. apply word_tail_spec in Ht as (mid & post & -> & Hm' & Hb').
    exists A, mid, post. split; [done |]. split; [done |].
    change (prev_after None A) with (prev_after (last []) A) in Hb, Hb'.
    unfold prev_after in Hb. cbn [last] in Hb.
    assert (HA : match last A with Some c => Some c | None => None end = last A)
      by (by destruct (last A)).
    rewrite HA in Hb. split; [done |].
    rewrite <- prev_after_last. unfold prev_after at 2 in Hb'. cbn [last] in Hb'.
    by rewrite HA in Hb'.
  - intros (pre & mid & post & -> & Hm & Hb1 & Hb2).
    assert (Hh : word_here w (prev_after None pre) (mid ++ post) = true).
    { unfold word_here. apply andb_true_iff. split.
      - apply xorb_boundary. unfold prev_after. by destruct (last pre).
      - apply word_tail_spec. exists mid, post. split; [done |]. split; [done |].
        rewrite <- prev_after_last in Hb2. unfold prev_after at 2.
        by destruct (last pre). }
    apply (rmatch_word_re w (0 + length pre) _ _ []) in Hh as [s' Hs'].
    destruct (search_at_some true (word_re w) pre (mid ++ post) s' 0 None Hs') as [[i s1] ->].
    done.
Qed.

(** ** Interests, word by word *)

Lemma INTEREST_KEYWORDS_words :
  Forall (fun p => Forall (fun w => as_word (interest_re w) = Some w) p.2)
         INTEREST_KEYWORDS.
Proof. apply (bool_decide_unpack _). by vm_compute. Qed.

(** X7. On a request in ASCII, a tag is among the interests exactly when
    one of the trigger words listed for it stands in the request as a whole
    word, up to letter case: some stretch of the request lower-cases to the
    trigger word, with a word boundary on either side of it. *)
Theorem interest_tag_iff_trigger_word (text t : str) :
  Forall (fun c => c < 128) text →
  t ∈ _find_interests text
  ↔ ∃ words w, (t, words) ∈ INTEREST_KEYWORDS ∧ w ∈ words ∧ whole_word_in w text.
Proof.
  intros _. rewrite interest_tag_iff_match.
  assert (Hre : ∀ words w, (t, words) ∈ INTEREST_KEYWORDS → w ∈ words →
                  interest_re w = word_re w).
  { intros words w Hin Hw. pose proof INTEREST_KEYWORDS_words as H.
    eapply Forall_forall in H; [| exact Hin]. eapply Forall_forall in H; [| exact Hw].
    by apply as_word_re. }
  split; intros (words & w & Hin & Hw & H); exists words, w;
    (split; [done |]; split; [done |]).
  - rewrite (Hre words w Hin Hw) in H. by apply search_word_re.
  - rewrite (Hre words w Hin Hw). by apply search_word_re.
Qed.

Lemma interest_tag_iff_trigger_word_witness :
  Forall (fun c => c < 128) (U "Great STREET Food, no party")
  ∧ (U "food" ∈ _find_interests (U "Great STREET Food, no party")
     ↔ ∃ words w, (U "food", words) ∈ INTEREST_KEYWORDS ∧ w ∈ words
                  ∧ whole_word_in w (U "Great STREET Food, no party")).
Proof.
  assert (H : Forall (fun c => c < 128) (U "Great STREET Food, no party"))
    by (apply (bool_decide_unpack _); vm_compute; exact I).
  exact (conj H (interest_tag_iff_trigger_word _ (U "food") H)).
Defined.

(** ** The matcher, step by step *)








(** ** What the family pattern reads *)



















(** ** Travelers *)



